(** * Extraction-and-validation pipeline of the open-source deadlines data tools

    A shallow embedding of [extractor/ai_agent.py] (class [AIAgentService]),
    of [load_existing_data] from [extractor/extract_activity.py] and
    [extractor/extract_for_actions.py], and of [extract_and_save] from the
    latter, followed by the properties of the pipeline that the
    specification states and by further properties of the same code.

    Python [str] values are sequences of Unicode code points, Python values
    coming out of [json.loads] and [yaml.safe_load] are an inductive type, and
    a Python call either returns or raises. *)

From Stdlib Require Import Ascii String.
From Stdlib Require Import List ZArith NArith Lia Bool.
From Stdlib Require Import Decimal DecimalNat DecimalZ.
From Stdlib Require Import Floats.SpecFloat.
From Stdlib Require Import Orders Sorting.Mergesort Sorting.Sorted Permutation.
Import ListNotations.
Open Scope list_scope.

Set Warnings "-register-all".

(* ================================================================== *)
(** * Python strings *)
(* ================================================================== *)

Module PyStr.

(** A character is a Unicode code point; a [str] is a list of them, so that
    [len], slicing and concatenation are the list operations. *)
Definition char := N.
Definition str := list char.

Definition char_eqb : char -> char -> bool := N.eqb.
Definition str_eqb (a b : str) : bool :=
  if list_eq_dec N.eq_dec a b then true else false.

(** An ASCII literal of the source. *)
Definition lit (s : string) : str :=
  map (fun a => N_of_ascii a) (list_ascii_of_string s).
Arguments lit s%_string.

Definition NL : char := 10%N.
Definition SPACE : char := 32%N.

(** [sep.join(parts)] *)
Fixpoint join (sep : str) (parts : list str) : str :=
  match parts with
  | [] => []
  | [p] => p
  | p :: rest => p ++ sep ++ join sep rest
  end.

(** [s.startswith(p)] *)
Fixpoint startswith (p s : str) : bool :=
  match p, s with
  | [], _ => true
  | _, [] => false
  | a :: p', b :: s' => char_eqb a b && startswith p' s'
  end.

(** [needle in hay] on two strings. *)
Fixpoint contains (needle hay : str) : bool :=
  startswith needle hay ||
  match hay with
  | [] => false
  | _ :: hay' => contains needle hay'
  end.

(** Decimal rendering, as [str(n)] and the f-string [{n}] do for [int]. *)
Fixpoint str_of_uint (u : Decimal.uint) : str :=
  match u with
  | Nil => []
  | D0 u => 48%N :: str_of_uint u
  | D1 u => 49%N :: str_of_uint u
  | D2 u => 50%N :: str_of_uint u
  | D3 u => 51%N :: str_of_uint u
  | D4 u => 52%N :: str_of_uint u
  | D5 u => 53%N :: str_of_uint u
  | D6 u => 54%N :: str_of_uint u
  | D7 u => 55%N :: str_of_uint u
  | D8 u => 56%N :: str_of_uint u
  | D9 u => 57%N :: str_of_uint u
  end.

Definition str_of_nat (n : nat) : str := str_of_uint (Nat.to_uint n).

Definition str_of_Z (z : Z) : str :=
  match Z.to_int z with
  | Decimal.Pos u => str_of_uint u
  | Decimal.Neg u => 45%N :: str_of_uint u
  end.

Definition is_digit (c : char) : bool := ((48 <=? c) && (c <=? 57))%N.

End PyStr.

Import PyStr.
Arguments lit s%_string.

(* ================================================================== *)
(** * Python values, exceptions and a few builtins *)
(* ================================================================== *)

Module Py.

(** What [json.loads] and [yaml.safe_load] build.  Objects are association
    lists with string keys; a key is bound to its first entry.  (The dates
    and the keys of other types that a YAML file can also hold are left
    out.) *)
Inductive value : Type :=
| VNone
| VBool (b : bool)
| VInt (z : Z)
| VFloat (f : spec_float)
| VStr (s : str)
| VList (l : list value)
| VDict (d : list (str * value)).

Definition dict := list (str * value).

Inductive exn : Type :=
| AttributeError
| TypeError
| KeyError
| OtherError (message : str).

(** Outcome of a call: it returns or it raises. *)
Inductive res (A : Type) : Type :=
| Ret (a : A)
| Raise (e : exn).
Arguments Ret {A} a.
Arguments Raise {A} e.

Definition bind {A B} (m : res A) (k : A -> res B) : res B :=
  match m with
  | Ret a => k a
  | Raise e => Raise e
  end.

Fixpoint lookup (k : str) (d : dict) : option value :=
  match d with
  | [] => None
  | (k', v) :: d' => if str_eqb k k' then Some v else lookup k d'
  end.

(** [d.get(k)]: the value, or [None] when the key is absent. *)
Definition get (d : dict) (k : str) : value :=
  match lookup k d with
  | Some v => v
  | None => VNone
  end.

(** Truth value of an object, as [not x] and [if x] see it. *)
Definition truthy (v : value) : bool :=
  match v with
  | VNone => false
  | VBool b => b
  | VInt z => negb (z =? 0)%Z
  | VFloat f => match f with S754_zero _ => false | _ => true end
  | VStr s => match s with [] => false | _ => true end
  | VList l => match l with [] => false | _ => true end
  | VDict d => match d with [] => false | _ => true end
  end.

(** [isinstance(v, str)] *)
Definition isinstance_str (v : value) : bool :=
  match v with VStr _ => true | _ => false end.

(** [isinstance(v, int)]; [bool] is a subclass of [int]. *)
Definition isinstance_int (v : value) : bool :=
  match v with VInt _ | VBool _ => true | _ => false end.

(** [isinstance(v, list)] *)
Definition isinstance_list (v : value) : bool :=
  match v with VList _ => true | _ => false end.

(** [len(v)] where the source reaches it, which is on lists only. *)
Definition len (v : value) : nat :=
  match v with
  | VList l => length l
  | VStr s => length s
  | VDict d => length d
  | _ => 0
  end.

(** [v == s] for a string [s]: only an equal string is equal to it. *)
Definition eq_str (v : value) (s : str) : bool :=
  match v with VStr t => str_eqb t s | _ => false end.

End Py.

Import Py.

(* ================================================================== *)
(** * The schema validator: [AIAgentService.validate_extracted_data] *)
(* ================================================================== *)

Module Validator.

Record verdict : Type := {
  valid : bool;
  errors : option (list str);
  warnings : option (list str)
}.

Definition msg_title : str := lit "Missing or invalid title".
Definition msg_description : str := lit "Missing or invalid description".
Definition msg_category : str :=
  lit "Invalid category (must be conference, competition, or activity)".
Definition msg_tags : str := lit "Tags must be a non-empty array".
Definition msg_events : str := lit "Events must be a non-empty array".

(** f'Event {index}: ...' *)
Definition event_msg (index : nat) (tail : str) : str :=
  lit "Event " ++ str_of_nat index ++ lit ": " ++ tail.

Definition msg_id (index : nat) : str :=
  event_msg index (lit "Missing or invalid id").
Definition msg_duplicate (index : nat) (id : str) : str :=
  event_msg index (lit "Duplicate ID '" ++ id ++ lit "'").
Definition msg_year (index : nat) : str :=
  event_msg index (lit "Missing or invalid year").
Definition msg_link (index : nat) : str :=
  event_msg index (lit "Missing or invalid link").
Definition msg_timeline (index : nat) : str :=
  event_msg index (lit "Timeline must be a non-empty array").
Definition msg_timezone (index : nat) : str :=
  event_msg index (lit "Missing or invalid timezone").

Definition categories : list str :=
  [lit "conference"; lit "competition"; lit "activity"].

(** [not d.get(k) or not isinstance(d.get(k), str)] *)
Definition bad_str (d : dict) (k : str) : bool :=
  negb (truthy (get d k)) || negb (isinstance_str (get d k)).

(** [not d.get(k) or not isinstance(d.get(k), int)] *)
Definition bad_int (d : dict) (k : str) : bool :=
  negb (truthy (get d k)) || negb (isinstance_int (get d k)).

(** [not isinstance(d.get(k), list) or len(d.get(k, [])) == 0] *)
Definition bad_list (d : dict) (k : str) : bool :=
  negb (isinstance_list (get d k)) || (len (get d k) =? 0)%nat.

(** [d.get('category') not in ['conference', 'competition', 'activity']] *)
Definition bad_category (d : dict) : bool :=
  negb (existsb (eq_str (get d (lit "category"))) categories).

(** [if b: errors.append(m)], as the list appended to [errors]. *)
Definition when (b : bool) (m : str) : list str := if b then [m] else [].

(** [event['id'] in existing_ids] *)
Definition known_id (existing_ids : list str) (v : value) : bool :=
  existsb (eq_str v) existing_ids.

(** The [if]/[elif] on the id of one event. *)
Definition id_errors (existing_ids : list str) (index : nat) (ev : dict)
  : list str :=
  if bad_str ev (lit "id") then [msg_id index]
  else match get ev (lit "id") with
       | VStr id =>
           if known_id existing_ids (VStr id) then [msg_duplicate index id]
           else []
       | _ => []
       end.

(** The five checks of the loop body on one event, in source order. *)
Definition event_errors (existing_ids : list str) (index : nat) (ev : dict)
  : list str :=
  id_errors existing_ids index ev
  ++ when (bad_int ev (lit "year")) (msg_year index)
  ++ when (bad_str ev (lit "link")) (msg_link index)
  ++ when (bad_list ev (lit "timeline")) (msg_timeline index)
  ++ when (bad_str ev (lit "timezone")) (msg_timezone index).

(** The body of the loop for one event.  [event.get] exists on a [dict]
    only: any other element of the list raises [AttributeError]. *)
Definition check_event (existing_ids : list str) (index : nat)
    (event : value) : res (list str) :=
  match event with
  | VDict ev => Ret (event_errors existing_ids index ev)
  | _ => Raise AttributeError
  end.

(** [for index, event in enumerate(data['events'])], threading [errors]. *)
Fixpoint check_events (existing_ids : list str) (index : nat)
    (events : list value) (errs : list str) : res (list str) :=
  match events with
  | [] => Ret errs
  | event :: rest =>
      bind (check_event existing_ids index event) (fun es =>
        check_events existing_ids (S index) rest (errs ++ es))
  end.

(** The messages of a run of object events, the first at index [i]: what
    the loop appends when no element raises. *)
Fixpoint events_errors (known : list str) (i : nat) (evs : list dict)
  : list str :=
  match evs with
  | [] => []
  | ev :: rest => event_errors known i ev ++ events_errors known (S i) rest
  end.

(** The five record-level checks, in source order. *)
Definition record_errors (d : dict) : list str :=
  when (bad_str d (lit "title")) msg_title
  ++ when (bad_str d (lit "description")) msg_description
  ++ when (bad_category d) msg_category
  ++ when (bad_list d (lit "tags")) msg_tags
  ++ when (bad_list d (lit "events")) msg_events.

(** The returned dictionary: [valid] is [len(errors) == 0], and an empty
    list of errors or of warnings is returned as [None]. *)
Definition make_verdict (errs : list str) : verdict :=
  {| valid := (length errs =? 0)%nat;
     errors := match errs with [] => None | _ => Some errs end;
     warnings := None |}.

(** The list behind the [errors] slot: [None] stands for no error. *)
Definition errors_list (r : verdict) : list str :=
  match errors r with Some l => l | None => [] end.

(** [validate_extracted_data].  [data.get] exists on a [dict] only; the
    loop over the events runs when [data.get('events')] is a list. *)
Definition validate_extracted_data (data : value) (existing_ids : list str)
  : res verdict :=
  match data with
  | VDict d =>
      bind (match get d (lit "events") with
            | VList events =>
                check_events existing_ids 0 events (record_errors d)
            | _ => Ret (record_errors d)
            end)
           (fun errs => Ret (make_verdict errs))
  | _ => Raise AttributeError
  end.

End Validator.

Import Validator.

(* ================================================================== *)
(** * The content normalizer: the four [re.sub] passes of
      [AIAgentService.fetch_web_content] *)
(* ================================================================== *)

Module Normalizer.

(** Which characters beyond ASCII are alphanumeric is a table of the Unicode
    database, not of this program; it is a parameter of the model.  The
    regular expressions consult it in one place only, the word boundary
    after the tag name. *)
Record tables : Type := { alnum : char -> bool }.

(** The table in which no character beyond ASCII is alphanumeric. *)
Definition ascii_tables : tables := {| alnum := fun _ => false |}.

Definition LT : char := 60%N.
Definition GT : char := 62%N.

Definition is_lower (c : char) : bool := ((97 <=? c) && (c <=? 122))%N.
Definition is_upper (c : char) : bool := ((65 <=? c) && (c <=? 90))%N.

(** A character matched by the class of word characters. *)
Definition is_word (U : tables) (c : char) : bool :=
  if (c <? 128)%N
  then is_lower c || is_upper c || is_digit c || (c =? 95)%N
  else alnum U c.

(** White space, for the class of space characters and for [str.strip]. *)
Definition is_space (c : char) : bool :=
  (((9 <=? c) && (c <=? 13)) || ((28 <=? c) && (c <=? 32))
   || (c =? 133) || (c =? 160) || (c =? 5760)
   || ((8192 <=? c) && (c <=? 8202))
   || (c =? 8232) || (c =? 8233) || (c =? 8239) || (c =? 8287)
   || (c =? 12288))%N.

(** Under [re.IGNORECASE], a character [p] of the pattern matches [x] when
    [x] is [p], its upper-case letter, or one of the three characters that
    fold onto the letters s, i and k. *)
Definition ci_eq (p x : char) : bool :=
  ((x =? p) || (is_lower p && (x =? p - 32))
   || ((p =? 115) && (x =? 383))
   || ((p =? 105) && ((x =? 304) || (x =? 305)))
   || ((p =? 107) && (x =? 8490)))%N.

(** The literal [pat] matches, letter case aside, at the start of [s]. *)
Fixpoint starts_ci (pat s : str) : bool :=
  match pat, s with
  | [], _ => true
  | _, [] => false
  | p :: pat', x :: s' => ci_eq p x && starts_ci pat' s'
  end.

(** Length of the longest prefix of characters satisfying [p]. *)
Fixpoint span (p : char -> bool) (s : str) : nat :=
  match s with
  | [] => 0
  | c :: s' => if p c then S (span p s') else 0
  end.

(** A pattern is modelled by its matcher: the length of the match that
    starts at the head of the given text, if there is one. *)
Definition matcher := str -> option nat.

(** [re.sub] for a pattern that matches no empty string: the text is scanned
    from the left; a match is replaced and the scan resumes after it, any
    other character is copied.  [skip] counts the characters of the current
    match that are still to be passed over. *)
Fixpoint sub_from (m : matcher) (repl : str) (skip : nat) (s : str) : str :=
  match s with
  | [] => []
  | c :: s' =>
      match skip with
      | S k => sub_from m repl k s'
      | O =>
          match m (c :: s') with
          | Some (S n) => repl ++ sub_from m repl n s'
          | _ => c :: sub_from m repl 0 s'
          end
      end
  end.

Definition re_sub (m : matcher) (repl : str) (s : str) : str :=
  sub_from m repl 0 s.

(** Offset of the first place of [s] where the closing tag [close] stands.
    This is where the body of the block pattern has to stop: it is a run of
    characters other than [<], followed by any number of groups made of a
    [<] that does not open [close] and a further such run. *)
Fixpoint close_at (close : str) (s : str) : option nat :=
  match s with
  | [] => None
  | c :: s' =>
      if (c =? LT)%N && starts_ci close s then Some 0
      else option_map S (close_at close s')
  end.

(** The word-boundary assertion between [prev] and the text [rest]. *)
Definition boundary (U : tables) (prev : char) (rest : str) : bool :=
  xorb (is_word U prev)
       (match rest with [] => false | c :: _ => is_word U c end).

(** The literals [<name] and [</name>] of the block pattern. *)
Definition open_tag (name : str) : str := LT :: name.
Definition close_tag (name : str) : str := LT :: 47%N :: name ++ [GT].

(** The block pattern of a tag [name], under [re.IGNORECASE]: the opening
    [<name], a word boundary, the body described above, and the closing
    tag [</name>]. *)
Definition m_block (U : tables) (name : str) : matcher := fun s =>
  let k := length (open_tag name) in
  if starts_ci (open_tag name) s then
    let rest := skipn k s in
    if boundary U (last (firstn k s) LT) rest then
      match close_at (close_tag name) rest with
      | Some p => Some (k + p + length (close_tag name))
      | None => None
      end
    else None
  else None.

(** The tag pattern: a [<], one or more characters other than [>], taken
    greedily, and a [>]. *)
Definition m_tag : matcher := fun s =>
  match s with
  | c :: s' =>
      if (c =? LT)%N then
        let n := span (fun x => negb (x =? GT)%N) s' in
        match n, skipn n s' with
        | S _, g :: _ => if (g =? GT)%N then Some (n + 2) else None
        | _, _ => None
        end
      else None
  | [] => None
  end.

(** The pattern of one or more space characters. *)
Definition m_spaces : matcher := fun s =>
  match span is_space s with
  | O => None
  | n => Some n
  end.

Fixpoint lstrip (s : str) : str :=
  match s with
  | [] => []
  | c :: s' => if is_space c then lstrip s' else s
  end.

(** [s.strip()] *)
Definition strip (s : str) : str :=
  List.rev (lstrip (List.rev (lstrip s))).

(** The four passes. *)
Definition remove_scripts (U : tables) : str -> str :=
  re_sub (m_block U (lit "script")) [].
Definition remove_styles (U : tables) : str -> str :=
  re_sub (m_block U (lit "style")) [].
Definition replace_tags : str -> str := re_sub m_tag [SPACE].
Definition collapse_spaces : str -> str := re_sub m_spaces [SPACE].

(** The text that [fetch_web_content] makes of the page it received. *)
Definition normalize_web (U : tables) (html : str) : str :=
  strip (collapse_spaces (replace_tags (remove_styles U (remove_scripts U html)))).

(** A block of the tag [name], in three parts: [head] is the opening
    literal in some letter case, [tail] the closing tag in some letter
    case, and [inner] what stands between them, which starts at a word
    boundary and in which no closing tag begins. *)
Definition is_block (U : tables) (name : str) (head inner tail : str) : bool :=
  starts_ci (open_tag name) head
  && (length head =? length (open_tag name))
  && boundary U (last head LT) (inner ++ tail)
  && starts_ci (close_tag name) tail
  && (length tail =? length (close_tag name))
  && match close_at (close_tag name) (inner ++ tail) with
     | Some p => p =? length inner
     | None => false
     end.

(** Normal forms of the text, used to state what the passes achieve. *)

(** Every space character is a single U+0020 followed by a character that
    is not a space. *)
Fixpoint collapsed (s : str) : bool :=
  match s with
  | [] => true
  | c :: s' =>
      (if is_space c
       then (c =? SPACE)%N
            && match s' with [] => true | d :: _ => negb (is_space d) end
       else true)
      && collapsed s'
  end.

(** Every [<] is followed at once by [>], or by no [>] at all: nowhere
    does the tag pattern match. *)
Fixpoint tagless (s : str) : bool :=
  match s with
  | [] => true
  | c :: s' =>
      (if (c =? LT)%N
       then match s' with [] => true | d :: _ => (d =? GT)%N end
            || negb (existsb (N.eqb GT) s')
       else true)
      && tagless s'
  end.

End Normalizer.

Import Normalizer.

(* ================================================================== *)
(** * The prompts built by [AIAgentService.extract_activity_info] *)
(* ================================================================== *)

Module Prompt.

(** The fixed instruction text of the system prompt: what stands before the
    line of the tag hint and what stands after the line of the id hint.  No
    property below reads it, so it is left as a parameter. *)
Record template : Type := { preamble : str; example : str }.

(** The separator between hints, U+3001. *)
Definition SEP : str := [12289%N].
(** The text standing for an empty hint list, U+65E0. *)
Definition NONE_HINT : str := [26080%N].
(** The marker that stands for further ids, U+7B49. *)
Definition AND_MORE : str := [31561%N].

(** The label of the tag hint line, up to its full-width colon. *)
Definition TAGS_LABEL : str :=
  [12304; 26631; 31614; 24314; 35758; 12305; 65288; 20248; 20808; 20351;
   29992; 65289; 65306]%N.
(** The label of the id hint line. *)
Definition IDS_LABEL : str :=
  [12304; 24050; 23384; 22312; 73; 68; 12305; 65288; 36991; 20813; 37325;
   22797; 65289; 65306]%N.

(** The hint made of [existing_tags[:20]], or the placeholder for an empty
    list. *)
Definition tag_hint (existing_tags : list str) : str :=
  match existing_tags with
  | [] => NONE_HINT
  | _ => join SEP (firstn 20 existing_tags)
  end.

(** The hint made of [existing_ids[:10]], with the marker when
    [len(existing_ids) > 10]. *)
Definition id_hint (existing_ids : list str) : str :=
  match existing_ids with
  | [] => NONE_HINT
  | _ =>
      join SEP (firstn 10 existing_ids)
      ++ (if 10 <? length existing_ids then AND_MORE else [])
  end.

Definition system_prompt (T : template) (existing_tags existing_ids : list str)
  : str :=
  preamble T
  ++ TAGS_LABEL ++ tag_hint existing_tags ++ [NL]
  ++ IDS_LABEL ++ id_hint existing_ids
  ++ example T.

(** The opening of the user prompt for a page, up to the URL. *)
Definition URL_HEADER : str :=
  [35831; 20174; 20197; 19979; 32593; 39029; 20869; 23481; 20013; 25552;
   21462; 27963; 21160; 20449; 24687; 65306; 10; 10; 26469; 28304; 85; 82;
   76; 58; 32]%N.
(** What stands between the URL and the content. *)
Definition CONTENT_HEADER : str := [10; 10; 20869; 23481; 65306; 10]%N.
(** The opening of the user prompt when there is no URL. *)
Definition PLAIN_HEADER : str :=
  [35831; 20174; 20197; 19979; 20869; 23481; 20013; 25552; 21462; 27963;
   21160; 20449; 24687; 65306; 10; 10]%N.

(** The bound of the slice [content[:8000]]. *)
Definition CONTENT_LIMIT : nat := N.to_nat 8000.

(** The user prompt; it embeds [content[:8000]]. *)
Definition user_prompt (source_url content : str) : str :=
  match source_url with
  | [] => PLAIN_HEADER ++ firstn CONTENT_LIMIT content
  | _ =>
      URL_HEADER ++ source_url ++ CONTENT_HEADER
      ++ firstn CONTENT_LIMIT content
  end.

End Prompt.

Import Prompt.

(* ================================================================== *)
(** * The pipeline: [AIAgentService.__init__], [extract_from_url] and
      [extract_activity_info] *)
(* ================================================================== *)

Module Pipeline.

Record client : Type := { api_key : str; base_url : option str }.

Record service : Type := {
  provider : str;
  model : str;
  openai : option client
}.

(** [os.getenv(name, default)] over an environment [env]. *)
Definition getenv_or (env : str -> option str) (name default : str) : str :=
  match env name with Some v => v | None => default end.

(** The client, when the key named [key_var] is set to a non-empty string. *)
Definition client_for (env : str -> option str) (key_var : str)
    (base : option str) : option client :=
  match env key_var with
  | Some (c :: k) => Some {| api_key := c :: k; base_url := base |}
  | _ => None
  end.

(** [AIAgentService.__init__] *)
Definition init (env : str -> option str) : service :=
  let provider := getenv_or env (lit "AI_PROVIDER") (lit "github") in
  let model := getenv_or env (lit "AI_MODEL") (lit "gpt-4o-mini") in
  {| provider := provider;
     model := model;
     openai :=
       if str_eqb provider (lit "github") then
         client_for env (lit "GITHUB_TOKEN")
           (Some (lit "https://models.inference.ai.azure.com"))
       else if str_eqb provider (lit "dashscope") then
         client_for env (lit "DASHSCOPE_API_KEY")
           (Some (getenv_or env (lit "DASHSCOPE_BASE_URL")
                    (lit "https://dashscope.aliyuncs.com/compatible-mode/v1")))
       else
         client_for env (lit "OPENAI_API_KEY") None |}.

(** What the programs print to standard output, one constructor for each
    [print] of the sources: those of [extract_activity_info] around the raw
    answer, the parsed answer (rendered by [json.dumps]) and the list of
    errors, then those of [extract_and_save]. *)
Inductive printed : Type :=
| RawBanner
| Raw (response_content : str)
| RawEnd
| ParsedBanner
| Parsed (extracted_data : value)
| ParsedEnd
| InvalidBanner
| InvalidErrors (errors : option (list str))
| InvalidEnd
| Extracting (url : str)
| Rule
| Loaded (tags ids : nat)
| Succeeded
| WarningsBanner
| Warning (warning : str)
| YamlBanner
| Yaml (yaml_content : str)
| Saved (output_file : str)
| Failed (error : option str).

(** The collaborators outside the program: the HTTP transport, the completion
    endpoint, the JSON parser, the text the interpreter gives to its own
    exceptions, and the standard output, on which a [print] returns or
    raises (as it does on a character that the encoding of the stream
    cannot encode). *)
Record world : Type := {
  http_get : str -> res str;
  chat_completion : str -> str -> str -> res (option str);
  json_loads : str -> res value;
  exn_text : exn -> str;
  py_print : printed -> res unit
}.

(** A run of [print] statements, up to the first that raises. *)
Fixpoint prints (w : world) (ps : list printed) : res unit :=
  match ps with
  | [] => Ret tt
  | p :: rest => bind (py_print w p) (fun _ => prints w rest)
  end.

(** The calls that leave the process, in the order they are made. *)
Inductive call : Type :=
| Fetch (url : str)
| Completion (model system user : str).

Record outcome : Type := {
  success : bool;
  error : option str;
  data : option value;
  outcome_warnings : option (list str)
}.

(** [str(error)] *)
Definition describe (w : world) (e : exn) : str :=
  match e with
  | OtherError m => m
  | _ => exn_text w e
  end.

Definition failure (message : str) : outcome :=
  {| success := false; error := Some message; data := None;
     outcome_warnings := None |}.

(** The name of the provider and of its variable in the configuration
    message. *)
Definition provider_names (svc : service) : str * str :=
  if str_eqb (provider svc) (lit "github") then
    (lit "GitHub Models", lit "GITHUB_TOKEN")
  else if str_eqb (provider svc) (lit "dashscope") then
    (lit "DashScope", lit "DASHSCOPE_API_KEY")
  else (lit "OpenAI", lit "OPENAI_API_KEY").

Definition not_configured (svc : service) : outcome :=
  let (name, env_var) := provider_names svc in
  failure (name ++ lit " API key not configured. Please set " ++ env_var
           ++ lit " environment variable.").

(** What follows a completion that returned [response_content]: the check
    for an empty answer, [json.loads], the validator, the [print]s between
    them, and the two [return]s of the [try] block. *)
Definition after_completion (w : world) (existing_ids : list str)
    (response_content : option str) : res outcome :=
  match response_content with
  | None | Some [] => Raise (OtherError (lit "No response from AI"))
  | Some text =>
      bind (prints w [RawBanner; Raw text; RawEnd]) (fun _ =>
      bind (json_loads w text) (fun extracted_data =>
      bind (prints w [ParsedBanner; Parsed extracted_data; ParsedEnd])
        (fun _ =>
      bind (validate_extracted_data extracted_data existing_ids)
        (fun validation =>
           if negb (valid validation) then
             bind (prints w [InvalidBanner;
                             InvalidErrors (errors validation);
                             InvalidEnd]) (fun _ =>
             match errors validation with
             | Some errs =>
                 Ret {| success := false;
                        error := Some (join (lit "; ") errs);
                        data := None;
                        outcome_warnings := warnings validation |}
             | None => Raise TypeError
             end)
           else
             Ret {| success := true; error := None;
                    data := Some extracted_data;
                    outcome_warnings := warnings validation |}))))
  end.

(** [extract_activity_info], with the calls it makes. *)
Definition extract_activity_info (w : world) (T : template) (svc : service)
    (content source_url : str) (existing_tags existing_ids : list str)
  : outcome * list call :=
  match openai svc with
  | None => (not_configured svc, [])
  | Some _ =>
      let system := system_prompt T existing_tags existing_ids in
      let user := user_prompt source_url content in
      let attempt :=
        bind (chat_completion w (model svc) system user)
             (after_completion w existing_ids) in
      (match attempt with
       | Ret o => o
       | Raise e => failure (lit "AI extraction failed: " ++ describe w e)
       end,
       [Completion (model svc) system user])
  end.

(** [fetch_web_content]: the page is requested, then normalized. *)
Definition fetch_web_content (w : world) (U : tables) (url : str)
  : res str * list call :=
  (bind (http_get w url) (fun html => Ret (normalize_web U html)),
   [Fetch url]).

(** [extract_from_url] *)
Definition extract_from_url (w : world) (U : tables) (T : template)
    (svc : service) (url : str) (existing_tags existing_ids : list str)
  : outcome * list call :=
  let (fetched, calls) := fetch_web_content w U url in
  match fetched with
  | Ret web_content =>
      let (o, calls') :=
        extract_activity_info w T svc web_content url
          existing_tags existing_ids in
      (o, calls ++ calls')
  | Raise e =>
      (failure (lit "Failed to extract from URL: " ++ describe w e), calls)
  end.

End Pipeline.

Import Pipeline.

(* ================================================================== *)
(** * The corpus index: [load_existing_data] *)
(* ================================================================== *)

(** The order of [str]: by code points, a proper prefix first. *)
Module StrOrder <: Orders.TotalLeBool.

Definition t := str.

Fixpoint leb (a b : str) : bool :=
  match a, b with
  | [], _ => true
  | _ :: _, [] => false
  | x :: a', y :: b' => (x <? y)%N || ((x =? y)%N && leb a' b')
  end.

Theorem leb_total : forall a b, leb a b = true \/ leb b a = true.
Proof.
  induction a as [|x a IH]; destruct b as [|y b]; simpl; auto.
  destruct (N.compare_spec x y) as [E|L|G].
  - subst. rewrite N.ltb_irrefl, N.eqb_refl. simpl. apply IH.
  - left. apply N.ltb_lt in L. now rewrite L.
  - right. apply N.ltb_lt in G. now rewrite G.
Qed.

End StrOrder.

Module StrSort := Mergesort.Sort StrOrder.

Module Corpus.

(** One [*.yml] file of the store directory: its path, and what
    [open] followed by [yaml.safe_load] makes of it. *)
Record store_file : Type := { path : str; loaded : res value }.

(** The two sets being built, and the paths of the files for which a warning
    was printed.  A set is kept as the list of its elements in the order of
    their arrival. *)
Record state : Type := {
  all_tags : list value;
  all_ids : list value;
  warned : list str
}.

(** A statement of the [try] block: it leaves a state behind whether it
    completes or raises. *)
Definition M (A : Type) : Type := state -> res A * state.

Definition ret {A} (a : A) : M A := fun st => (Ret a, st).

Definition lift {A} (r : res A) : M A := fun st => (r, st).

Definition seq {A B} (m : M A) (k : A -> M B) : M B := fun st =>
  match m st with
  | (Ret a, st') => k a st'
  | (Raise e, st') => (Raise e, st')
  end.

Notation "x <- m ;; k" := (seq m (fun x => k))
  (at level 61, m at next level, right associativity).

(** [for x in xs: body(x)] *)
Fixpoint for_each (xs : list value) (body : value -> M unit) : M unit :=
  match xs with
  | [] => ret tt
  | x :: rest => _ <- body x ;; for_each rest body
  end.

(** The integer a [bool] or [int] stands for. *)
Definition as_int (v : value) : option Z :=
  match v with
  | VBool b => Some (if b then 1 else 0)%Z
  | VInt z => Some z
  | _ => None
  end.

(** Comparison of an integer with a float, in exact arithmetic; [None] when
    the float is not a number. *)
Definition compare_int_float (z : Z) (f : spec_float) : option comparison :=
  match f with
  | S754_zero _ => Some (z ?= 0)%Z
  | S754_infinity negative => Some (if negative then Gt else Lt)
  | S754_nan => None
  | S754_finite negative m e =>
      let sm := (if negative then Z.neg m else Z.pos m) in
      Some (if (0 <=? e)%Z then (z ?= sm * 2 ^ e)%Z
            else (z * 2 ^ (- e) ?= sm)%Z)
  end.

(** Comparison of two numbers of any of the three numeric types. *)
Definition compare_num (a b : value) : option comparison :=
  match as_int a, as_int b, a, b with
  | Some x, Some y, _, _ => Some (x ?= y)%Z
  | Some x, None, _, VFloat g => compare_int_float x g
  | None, Some y, VFloat f, _ => option_map CompOpp (compare_int_float y f)
  | None, None, VFloat f, VFloat g => SFcompare f g
  | _, _, _, _ => None
  end.

(** [a == b] on the objects a set can hold. *)
Definition py_eq (a b : value) : bool :=
  match a, b with
  | VNone, VNone => true
  | VStr s, VStr t => str_eqb s t
  | _, _ => match compare_num a b with Some Eq => true | _ => false end
  end.

Definition hashable (v : value) : bool :=
  match v with VList _ | VDict _ => false | _ => true end.

(** [s.add(x)] *)
Definition set_add (x : value) (s : list value) : res (list value) :=
  if hashable x then Ret (if existsb (py_eq x) s then s else s ++ [x])
  else Raise TypeError.

(** [iter(v)]: the elements of a list, the keys of a dict, the characters of
    a string. *)
Definition py_iter (v : value) : res (list value) :=
  match v with
  | VList l => Ret l
  | VDict d => Ret (map (fun kv => VStr (fst kv)) d)
  | VStr s => Ret (map (fun c => VStr [c]) s)
  | _ => Raise TypeError
  end.

(** [k in v] for a string [k]. *)
Definition py_in (k : str) (v : value) : res bool :=
  match v with
  | VDict d => Ret (match lookup k d with Some _ => true | None => false end)
  | VList l => Ret (existsb (fun x => eq_str x k) l)
  | VStr s => Ret (contains k s)
  | _ => Raise TypeError
  end.

(** [v[k]] for a string [k]. *)
Definition py_getitem (v : value) (k : str) : res value :=
  match v with
  | VDict d => match lookup k d with Some x => Ret x | None => Raise KeyError end
  | _ => Raise TypeError
  end.

Definition add_tag (x : value) : M unit := fun st =>
  match set_add x (all_tags st) with
  | Ret s => (Ret tt, {| all_tags := s; all_ids := all_ids st;
                         warned := warned st |})
  | Raise e => (Raise e, st)
  end.

Definition add_id (x : value) : M unit := fun st =>
  match set_add x (all_ids st) with
  | Ret s => (Ret tt, {| all_tags := all_tags st; all_ids := s;
                         warned := warned st |})
  | Raise e => (Raise e, st)
  end.

(** [if 'tags' in item: all_tags.update(item['tags'])] *)
Definition collect_tags (item : value) : M unit :=
  has <- lift (py_in (lit "tags") item) ;;
  if has : bool then
    tags <- lift (py_getitem item (lit "tags")) ;;
    elements <- lift (py_iter tags) ;;
    for_each elements add_tag
  else ret tt.

(** [if 'id' in event: all_ids.add(event['id'])] *)
Definition collect_id (event : value) : M unit :=
  has <- lift (py_in (lit "id") event) ;;
  if has : bool then
    id <- lift (py_getitem event (lit "id")) ;;
    add_id id
  else ret tt.

(** [if 'events' in item: for event in item['events']: ...] *)
Definition collect_ids (item : value) : M unit :=
  has <- lift (py_in (lit "events") item) ;;
  if has : bool then
    events <- lift (py_getitem item (lit "events")) ;;
    elements <- lift (py_iter events) ;;
    for_each elements collect_id
  else ret tt.

(** The body of the [with] block once the file is loaded. *)
Definition collect (data : value) : M unit :=
  if negb (truthy data) then ret tt
  else
    items <- lift (py_iter data) ;;
    for_each items (fun item => _ <- collect_tags item ;; collect_ids item).

Definition warn (f : store_file) (st : state) : state :=
  {| all_tags := all_tags st; all_ids := all_ids st;
     warned := warned st ++ [path f] |}.

(** One turn of the loop over the files: the [try] with its [except]. *)
Definition visit (st : state) (f : store_file) : state :=
  match loaded f with
  | Raise _ => warn f st
  | Ret data =>
      match collect data st with
      | (Ret _, st') => st'
      | (Raise _, st') => warn f st'
      end
  end.

Definition is_str (v : value) : bool :=
  match v with VStr _ => true | _ => false end.

Definition is_num (v : value) : bool :=
  match v with VBool _ | VInt _ | VFloat _ => true | _ => false end.

Definition str_of (v : value) : str :=
  match v with VStr s => s | _ => [] end.

(** [a < b] on numbers. *)
Definition num_lt (a b : value) : bool :=
  match compare_num a b with Some Lt => true | _ => false end.

Fixpoint insert_num (x : value) (l : list value) : list value :=
  match l with
  | [] => [x]
  | y :: l' => if num_lt x y then x :: l else y :: insert_num x l'
  end.

(** [sorted(s)] on the elements of a set.  Strings are ordered among
    themselves and numbers among themselves; one element needs no
    comparison; any other mixture raises [TypeError], since no sort can
    avoid comparing two elements of different kinds.  (With a NaN among
    numbers the order the interpreter produces is not modelled.) *)
Definition py_sorted (s : list value) : res (list value) :=
  if (length s <=? 1)%nat then Ret s
  else if forallb is_str s then Ret (map VStr (StrSort.sort (map str_of s)))
  else if forallb is_num s then Ret (fold_right insert_num [] s)
  else Raise TypeError.

Definition empty : state := {| all_tags := []; all_ids := []; warned := [] |}.

(** [load_existing_data], over the files that [data_dir.glob('*.yml')]
    yields, together with the paths that were warned about. *)
Definition load_existing_data (files : list store_file)
  : res (list value * list value) * list str :=
  let st := fold_left visit files empty in
  (bind (py_sorted (all_tags st)) (fun tags =>
   bind (py_sorted (all_ids st)) (fun ids => Ret (tags, ids))),
   warned st).

(** The shape of a store the way the serializer writes it: a sequence of
    objects, whose [tags], when present, is a list of strings and whose
    [events], when present, is a list of objects, the [id] of which, when
    present, is a string. *)
Definition event_shaped (event : value) : bool :=
  match event with
  | VDict e =>
      match lookup (lit "id") e with
      | None | Some (VStr _) => true
      | _ => false
      end
  | _ => false
  end.

Definition item_shaped (item : value) : bool :=
  match item with
  | VDict d =>
      match lookup (lit "tags") d with
      | None => true
      | Some (VList ts) => forallb is_str ts
      | _ => false
      end
      &&
      match lookup (lit "events") d with
      | None => true
      | Some (VList es) => forallb event_shaped es
      | _ => false
      end
  | _ => false
  end.

Definition store_shaped (data : value) : bool :=
  match data with
  | VNone => true
  | VList items => forallb item_shaped items
  | _ => false
  end.

(** The tags and the ids that a store holds, read off its shape. *)
Definition item_tags (item : value) : list str :=
  match item with
  | VDict d =>
      match lookup (lit "tags") d with
      | Some (VList ts) => map str_of ts
      | _ => []
      end
  | _ => []
  end.

Definition event_ids (event : value) : list str :=
  match event with
  | VDict e =>
      match lookup (lit "id") e with
      | Some (VStr s) => [s]
      | _ => []
      end
  | _ => []
  end.

Definition item_ids (item : value) : list str :=
  match item with
  | VDict d =>
      match lookup (lit "events") d with
      | Some (VList es) => flat_map event_ids es
      | _ => []
      end
  | _ => []
  end.

Definition store_items (f : store_file) : list value :=
  match loaded f with
  | Ret (VList items) => items
  | _ => []
  end.

Definition corpus_tags (files : list store_file) : list str :=
  flat_map (fun f => flat_map item_tags (store_items f)) files.

Definition corpus_ids (files : list store_file) : list str :=
  flat_map (fun f => flat_map item_ids (store_items f)) files.

(** Insertion of a string into a set of strings, and the set made of a
    list of them. *)
Definition add_str (set : list str) (s : str) : list str :=
  if existsb (str_eqb s) set then set else set ++ [s].

Definition readable (f : store_file) : bool :=
  match loaded f with Ret _ => true | Raise _ => false end.

(** [a < b] on strings. *)
Definition str_lt (a b : str) : Prop := StrOrder.leb a b = true /\ a <> b.

End Corpus.

Import Corpus.

(* ================================================================== *)
(** * The serializer: [AIAgentService.to_yaml] *)
(* ================================================================== *)

Module Serializer.

(** A record with the field types of the data model.  On such a record the
    f-strings of [to_yaml] render a [str] as itself and an [int] in
    decimal. *)
Record timeline_entry : Type := { deadline : str; comment : str }.

Record event : Type := {
  year : Z;
  id : str;
  link : str;
  timeline : list timeline_entry;
  timezone : str;
  date : str;
  place : str
}.

Record record : Type := {
  title : str;
  description : str;
  category : str;
  tags : list str;
  events : list event
}.

(** The two lines appended for one timeline entry. *)
Definition timeline_lines (t : timeline_entry) : list str :=
  [lit "        - deadline: '" ++ deadline t ++ lit "'";
   lit "          comment: '" ++ comment t ++ lit "'"].

(** The lines appended for one event. *)
Definition event_lines (e : event) : list str :=
  [lit "    - year: " ++ str_of_Z (year e);
   lit "      id: " ++ id e;
   lit "      link: " ++ link e;
   lit "      timeline:"]
  ++ flat_map timeline_lines (timeline e)
  ++ [lit "      timezone: " ++ timezone e;
      lit "      date: " ++ date e;
      lit "      place: " ++ place e].

Definition tag_line (tag : str) : str := lit "    - " ++ tag.

(** [yaml_lines] when the loops are over. *)
Definition yaml_lines (r : record) : list str :=
  [lit "- title: " ++ title r;
   lit "  description: " ++ description r;
   lit "  category: " ++ category r;
   lit "  tags:"]
  ++ map tag_line (tags r)
  ++ [lit "  events:"]
  ++ flat_map event_lines (events r).

Definition to_yaml (r : record) : str := join [NL] (yaml_lines r).

(** The object that [json.loads] yields for a record. *)
Definition entry_value (t : timeline_entry) : value :=
  VDict [(lit "deadline", VStr (deadline t)); (lit "comment", VStr (comment t))].

Definition event_value (e : event) : value :=
  VDict [(lit "year", VInt (year e));
         (lit "id", VStr (id e));
         (lit "link", VStr (link e));
         (lit "timeline", VList (map entry_value (timeline e)));
         (lit "timezone", VStr (timezone e));
         (lit "date", VStr (date e));
         (lit "place", VStr (place e))].

Definition record_value (r : record) : value :=
  VDict [(lit "title", VStr (title r));
         (lit "description", VStr (description r));
         (lit "category", VStr (category r));
         (lit "tags", VList (map VStr (tags r)));
         (lit "events", VList (map event_value (events r)))].

(** A string without line feed. *)
Definition one_line (s : str) : bool := negb (existsb (N.eqb NL) s).

Definition entry_one_line (t : timeline_entry) : bool :=
  one_line (deadline t) && one_line (comment t).

Definition event_one_line (e : event) : bool :=
  one_line (id e) && one_line (link e)
  && forallb entry_one_line (timeline e)
  && one_line (timezone e) && one_line (date e) && one_line (place e).

(** A record no string of which holds a line feed. *)
Definition record_one_line (r : record) : bool :=
  one_line (title r) && one_line (description r) && one_line (category r)
  && forallb one_line (tags r)
  && forallb event_one_line (events r).

End Serializer.

(* ================================================================== *)
(** * What the validator accepts *)
(* ================================================================== *)

Module Shape.

(** The values that pass [x and isinstance(x, str)]. *)
Definition nonempty_str (v : value) : Prop := exists s, v = VStr s /\ s <> [].

(** The values that pass [isinstance(x, list) and len(x) != 0]. *)
Definition nonempty_list (v : value) : Prop := exists x l, v = VList (x :: l).

(** The values that pass [x and isinstance(x, int)]. *)
Definition year_ok (v : value) : Prop :=
  (exists z, v = VInt z /\ z <> 0%Z) \/ v = VBool true.

(** An event against which the loop body raises no message. *)
Definition event_ok (known : list str) (ev : dict) : Prop :=
  (exists id, get ev (lit "id") = VStr id /\ id <> [] /\ ~ In id known) /\
  year_ok (get ev (lit "year")) /\
  nonempty_str (get ev (lit "link")) /\
  nonempty_list (get ev (lit "timeline")) /\
  nonempty_str (get ev (lit "timezone")).

(** A record against which no rule raises a message. *)
Definition record_ok (known : list str) (d : dict) : Prop :=
  nonempty_str (get d (lit "title")) /\
  nonempty_str (get d (lit "description")) /\
  (exists c, get d (lit "category") = VStr c /\ In c categories) /\
  nonempty_list (get d (lit "tags")) /\
  exists ev evs,
    get d (lit "events") = VList (map VDict (ev :: evs)) /\
    Forall (event_ok known) (ev :: evs).

(** Two events that agree on what the loop body reads: the four scalar
    fields, and whether [timeline] is a list and how long. *)
Definition same_checks (ev ev' : dict) : Prop :=
  get ev (lit "id") = get ev' (lit "id") /\
  get ev (lit "year") = get ev' (lit "year") /\
  get ev (lit "link") = get ev' (lit "link") /\
  get ev (lit "timezone") = get ev' (lit "timezone") /\
  isinstance_list (get ev (lit "timeline"))
  = isinstance_list (get ev' (lit "timeline")) /\
  len (get ev (lit "timeline")) = len (get ev' (lit "timeline")).

End Shape.

Import Shape.

(* ================================================================== *)
(** * Files that the load warns about *)
(* ================================================================== *)

Module Warnings.



End Warnings.

Import Warnings.

(* ================================================================== *)
(** * The serializer on parsed data: [AIAgentService.to_yaml] as the
      drivers call it *)
(* ================================================================== *)

Module Render.

(** Two things belong to the interpreter and are parameters of the model:
    the limit on the number of digits of an integer turned into a string
    (4300 unless configured otherwise, 0 for no limit), beyond which the
    conversion raises a [ValueError]; and how [str()] renders the values
    that are neither strings, integers, booleans nor [None], that is
    floats, lists and objects, which may raise as well. *)
Record formats : Type := {
  int_max_str_digits : nat;
  format_other : value -> res str
}.

(** The number of decimal digits of an integer, its sign aside. *)
Definition digits (z : Z) : nat := length (str_of_Z (Z.abs z)).

Definition fits (F : formats) (z : Z) : bool :=
  (int_max_str_digits F =? 0)%nat || (digits z <=? int_max_str_digits F)%nat.

(** The [ValueError] of an integer with too many digits. *)
Definition too_long (F : formats) : exn :=
  OtherError (lit "Exceeds the limit (" ++ str_of_nat (int_max_str_digits F)
              ++ lit " digits) for integer string conversion; use sys.set_int_max_str_digits() to increase the limit").

(** What an f-string makes of [{v}]. *)
Definition py_format (F : formats) (v : value) : res str :=
  match v with
  | VStr s => Ret s
  | VInt z => if fits F z then Ret (str_of_Z z) else Raise (too_long F)
  | VBool true => Ret (lit "True")
  | VBool false => Ret (lit "False")
  | VNone => Ret (lit "None")
  | _ => format_other F v
  end.

(** The text of [{v[k]}]. *)
Definition field (F : formats) (v : value) (k : str) : res str :=
  bind (py_getitem v k) (py_format F).

(** A loop whose body appends lines: the lines of each element in turn,
    up to the first exception. *)
Fixpoint for_lines (body : value -> res (list str)) (xs : list value)
  : res (list str) :=
  match xs with
  | [] => Ret []
  | x :: rest =>
      bind (body x) (fun l =>
      bind (for_lines body rest) (fun ls => Ret (l ++ ls)))
  end.

Definition timeline_lines (F : formats) (timeline : value) : res (list str) :=
  bind (field F timeline (lit "deadline")) (fun deadline =>
  bind (field F timeline (lit "comment")) (fun comment =>
  Ret [lit "        - deadline: '" ++ deadline ++ lit "'";
       lit "          comment: '" ++ comment ++ lit "'"])).

Definition event_lines (F : formats) (event : value) : res (list str) :=
  bind (field F event (lit "year")) (fun year =>
  bind (field F event (lit "id")) (fun id =>
  bind (field F event (lit "link")) (fun link =>
  bind (py_getitem event (lit "timeline")) (fun timeline =>
  bind (py_iter timeline) (fun entries =>
  bind (for_lines (timeline_lines F) entries) (fun inner =>
  bind (field F event (lit "timezone")) (fun timezone =>
  bind (field F event (lit "date")) (fun date =>
  bind (field F event (lit "place")) (fun place =>
  Ret ([lit "    - year: " ++ year;
        lit "      id: " ++ id;
        lit "      link: " ++ link;
        lit "      timeline:"]
       ++ inner
       ++ [lit "      timezone: " ++ timezone;
           lit "      date: " ++ date;
           lit "      place: " ++ place])))))))))).

Definition tag_lines (F : formats) (tag : value) : res (list str) :=
  bind (py_format F tag) (fun text => Ret [lit "    - " ++ text]).

(** [to_yaml] *)
Definition to_yaml (F : formats) (data : value) : res str :=
  bind (field F data (lit "title")) (fun title =>
  bind (field F data (lit "description")) (fun description =>
  bind (field F data (lit "category")) (fun category =>
  bind (py_getitem data (lit "tags")) (fun tags =>
  bind (py_iter tags) (fun tag_list =>
  bind (for_lines (tag_lines F) tag_list) (fun tag_part =>
  bind (py_getitem data (lit "events")) (fun events =>
  bind (py_iter events) (fun event_list =>
  bind (for_lines (event_lines F) event_list) (fun inner =>
  Ret (join [NL]
         ([lit "- title: " ++ title;
           lit "  description: " ++ description;
           lit "  category: " ++ category;
           lit "  tags:"]
          ++ tag_part
          ++ [lit "  events:"]
          ++ inner))))))))))).

(** What [to_yaml] needs beyond what the validator checks: that the values
    it renders can be rendered, the two keys of every timeline entry, and
    [date] and [place]. *)
Definition printable (F : formats) (v : value) : bool :=
  match py_format F v with Ret _ => true | Raise _ => false end.

Definition has_text (F : formats) (k : str) (d : dict) : bool :=
  match lookup k d with Some v => printable F v | None => false end.

Definition entry_complete (F : formats) (timeline : value) : bool :=
  match timeline with
  | VDict t => has_text F (lit "deadline") t && has_text F (lit "comment") t
  | _ => false
  end.

Definition event_complete (F : formats) (ev : dict) : bool :=
  has_text F (lit "year") ev
  && match get ev (lit "timeline") with
     | VList entries => forallb (entry_complete F) entries
     | _ => false
     end
  && has_text F (lit "date") ev && has_text F (lit "place") ev.

Definition record_complete (F : formats) (d : dict) (evs : list dict) : bool :=
  match get d (lit "tags") with
  | VList tags => forallb (printable F) tags
  | _ => false
  end
  && forallb (event_complete F) evs.

End Render.

(* ================================================================== *)
(** * Files: [process_file_content] and [extract_from_file] *)
(* ================================================================== *)

Module FileInput.

(** What [str.lower] makes of a character beyond ASCII depends on the
    Unicode database, and for one letter on the text around it; it is a
    parameter of the model, given the text before the character, the
    character and the text after it. *)
Record casing : Type := { lower_wide : str -> char -> str -> str }.

Definition lower_ascii (c : char) : char :=
  if is_upper c then (c + 32)%N else c.

Fixpoint lower_from (K : casing) (before s : str) : str :=
  match s with
  | [] => []
  | c :: rest =>
      (if (c <? 128)%N then [lower_ascii c] else lower_wide K before c rest)
      ++ lower_from K (before ++ [c]) rest
  end.

(** [s.lower()] *)
Definition lower (K : casing) (s : str) : str := lower_from K [] s.

(** [s.endswith(suffix)] *)
Definition endswith (suffix s : str) : bool :=
  startswith (List.rev suffix) (List.rev s).

Definition image_extensions : list str :=
  [lit ".jpg"; lit ".jpeg"; lit ".png"; lit ".gif"; lit ".bmp"; lit ".webp"].

Definition is_image (K : casing) (file_name : str) : bool :=
  existsb (fun ext => endswith ext (lower K file_name)) image_extensions.

(** What stands for the content of an image. *)
Definition placeholder (file_name : str) : str :=
  lit "[Image file: " ++ file_name
  ++ lit ". OCR processing would be applied here in production.]".

(** [process_file_content] *)
Definition process_file_content (K : casing) (file_content file_name : str)
  : str :=
  if is_image K file_name then placeholder file_name else file_content.

(** [extract_from_file]: the processed content goes to
    [extract_activity_info] with the empty string for a URL.  Neither call
    raises here, so the [except] of the source has nothing to catch. *)
Definition extract_from_file (w : world) (K : casing) (T : template)
    (svc : service) (file_content file_name : str)
    (existing_tags existing_ids : list str) : outcome * list call :=
  extract_activity_info w T svc
    (process_file_content K file_content file_name) []
    existing_tags existing_ids.

End FileInput.

(* ================================================================== *)
(** * The agent as the drivers call it: with the lists that
      [load_existing_data] returns, whatever they hold *)
(* ================================================================== *)

Module Agent.

(** The parts of [sep.join(parts)] have to be strings; the first that is
    not raises [TypeError]. *)
Fixpoint strs_of (parts : list value) : res (list str) :=
  match parts with
  | [] => Ret []
  | VStr s :: rest => bind (strs_of rest) (fun l => Ret (s :: l))
  | _ :: _ => Raise TypeError
  end.

Definition py_join (sep : str) (parts : list value) : res str :=
  bind (strs_of parts) (fun l => Ret (join sep l)).

Definition tag_hint (existing_tags : list value) : res str :=
  match existing_tags with
  | [] => Ret NONE_HINT
  | _ => py_join SEP (firstn 20 existing_tags)
  end.

Definition id_hint (existing_ids : list value) : res str :=
  match existing_ids with
  | [] => Ret NONE_HINT
  | _ =>
      bind (py_join SEP (firstn 10 existing_ids)) (fun h =>
      Ret (h ++ (if 10 <? length existing_ids then AND_MORE else [])))
  end.

Definition system_prompt (T : template) (existing_tags existing_ids : list value)
  : res str :=
  bind (tag_hint existing_tags) (fun tags =>
  bind (id_hint existing_ids) (fun ids =>
  Ret (preamble T
       ++ TAGS_LABEL ++ tags ++ [NL]
       ++ IDS_LABEL ++ ids
       ++ example T))).

(** The strings among the existing ids.  The validator looks an id up
    among them only when that id is a string, which is equal to no value
    of another type. *)
Definition known_strs (existing_ids : list value) : list str :=
  flat_map (fun v => match v with VStr s => [s] | _ => [] end) existing_ids.

(** [extract_activity_info]: the system prompt is built before the [try],
    so that an exception of [join] leaves the function. *)
Definition extract_activity_info (w : world) (T : template) (svc : service)
    (content source_url : str) (existing_tags existing_ids : list value)
  : res (outcome * list call) :=
  match openai svc with
  | None => Ret (not_configured svc, [])
  | Some _ =>
      bind (system_prompt T existing_tags existing_ids) (fun system =>
      let user := user_prompt source_url content in
      let attempt :=
        bind (chat_completion w (model svc) system user)
             (after_completion w (known_strs existing_ids)) in
      Ret (match attempt with
           | Ret o => o
           | Raise e => failure (lit "AI extraction failed: " ++ describe w e)
           end,
           [Completion (model svc) system user]))
  end.

(** [extract_from_url], the [except] of which catches what the two calls
    raise. *)
Definition extract_from_url (w : world) (U : tables) (T : template)
    (svc : service) (url : str) (existing_tags existing_ids : list value)
  : outcome * list call :=
  let (fetched, calls) := fetch_web_content w U url in
  match fetched with
  | Ret web_content =>
      match extract_activity_info w T svc web_content url
              existing_tags existing_ids with
      | Ret (o, calls') => (o, calls ++ calls')
      | Raise e =>
          (failure (lit "Failed to extract from URL: " ++ describe w e), calls)
      end
  | Raise e =>
      (failure (lit "Failed to extract from URL: " ++ describe w e), calls)
  end.

End Agent.

(* ================================================================== *)
(** * The driver of the workflow: [extract_and_save] of
      [extract_for_actions.py] *)
(* ================================================================== *)

Module Driver.

(** The dictionary that [extract_and_save] returns, a field being [None]
    where the dictionary has no such key.  [file] is the name of the output
    file inside the data directory. *)
Record saved : Type := {
  saved_success : bool;
  saved_title : option value;
  saved_category : option value;
  saved_file : option str;
  saved_yaml : option str;
  saved_error : option str
}.

(** The files of the data directory: opening one for appending, writing
    a text to it and closing it each return or raise. *)
Record disk : Type := {
  fs_open : str -> res unit;
  fs_write : str -> str -> res unit;
  fs_close : str -> res unit
}.

(** What the driver does to the world around it: the calls of the agent,
    and the texts handed to a file by a [write] that returned; such a text
    is in the file once the file is closed. *)
Inductive effect : Type :=
| Net (c : call)
| Append (file text : str).

Definition appended (effects : list effect) : list (str * str) :=
  flat_map (fun e => match e with
                     | Append file text => [(file, text)]
                     | Net _ => []
                     end) effects.

(** A statement with its effects up to its return or its exception. *)
Definition run (A : Type) : Type := (res A * list effect)%type.

Definition quiet {A} (r : res A) : run A := (r, []).

Definition andthen {A B} (m : run A) (k : A -> run B) : run B :=
  match fst m with
  | Ret a => (fst (k a), snd m ++ snd (k a))
  | Raise e => (Raise e, snd m)
  end.

(** The [write]s of the [with] block, up to the first that raises. *)
Fixpoint write_all (D : disk) (file : str) (texts : list str) : run unit :=
  match texts with
  | [] => quiet (Ret tt)
  | text :: rest =>
      match fs_write D file text with
      | Ret _ =>
          (fst (write_all D file rest),
           Append file text :: snd (write_all D file rest))
      | Raise e => (Raise e, [])
      end
  end.

(** [with open(file, 'a') as f: ...]: the file is closed whether the block
    returns or raises, and an exception of the closing takes the place of
    that of the block. *)
Definition append_to (D : disk) (file : str) (texts : list str) : run unit :=
  match fs_open D file with
  | Raise e => (Raise e, [])
  | Ret _ =>
      (match fst (write_all D file texts), fs_close D file with
       | _, Raise e => Raise e
       | Raise e, Ret _ => Raise e
       | Ret _, Ret _ => Ret tt
       end,
       snd (write_all D file texts))
  end.

(** The [print]s of [if result.get('warnings')] and of its loop. *)
Definition warning_prints (warnings : option (list str)) : list printed :=
  match warnings with
  | Some (first :: rest) => WarningsBanner :: map Warning (first :: rest)
  | _ => []
  end.

(** [extract_and_save], over the files of the data directory, with what
    it returns or raises and the effects up to that point. *)
Definition extract_and_save (w : world) (U : tables) (T : template)
    (F : Render.formats) (D : disk) (env : str -> option str)
    (files : list store_file) (url : str) (auto_save : bool) : run saved :=
  andthen (quiet (prints w [Extracting url; Rule])) (fun _ =>
  andthen (quiet (fst (load_existing_data files))) (fun existing =>
  let existing_tags := fst existing in
  let existing_ids := snd existing in
  andthen (quiet (py_print w (Loaded (length existing_tags)
                                     (length existing_ids)))) (fun _ =>
  let agent := init env in
  let answer :=
    Agent.extract_from_url w U T agent url existing_tags existing_ids in
  andthen (Ret (fst answer), map Net (snd answer)) (fun result =>
  if success result then
    andthen (quiet (prints w (Succeeded
                              :: warning_prints (outcome_warnings result))))
      (fun _ =>
    andthen (quiet (match data result with
                    | Some d => Ret d
                    | None => Raise KeyError
                    end)) (fun d =>
    andthen (quiet (Render.to_yaml F d)) (fun yaml_content =>
    andthen (quiet (prints w [YamlBanner; Rule; Yaml yaml_content; Rule]))
      (fun _ =>
    andthen (quiet (py_getitem d (lit "category"))) (fun category =>
    andthen (quiet (Render.py_format F category)) (fun name =>
    let output_file := name ++ lit "s.yml" in
    if auto_save then
      andthen (append_to D output_file [[NL]; yaml_content; [NL]]) (fun _ =>
      andthen (quiet (py_print w (Saved output_file))) (fun _ =>
      andthen (quiet (py_getitem d (lit "title"))) (fun title =>
      quiet (Ret {| saved_success := true;
                    saved_title := Some title;
                    saved_category := Some category;
                    saved_file := Some output_file;
                    saved_yaml := None;
                    saved_error := None |}))))
    else
      andthen (quiet (py_getitem d (lit "title"))) (fun title =>
      quiet (Ret {| saved_success := true;
                    saved_title := Some title;
                    saved_category := Some category;
                    saved_file := None;
                    saved_yaml := Some yaml_content;
                    saved_error := None |}))))))))
  else
    andthen (quiet (py_print w (Failed (error result)))) (fun _ =>
    quiet (Ret {| saved_success := false;
                  saved_title := None;
                  saved_category := None;
                  saved_file := None;
                  saved_yaml := None;
                  saved_error := error result |})))))).

End Driver.

(* ================================================================== *)
(** * Sample inputs *)
(* ================================================================== *)

Module Samples.

Definition entry (deadline comment : str) : value :=
  VDict [(lit "deadline", VStr deadline); (lit "comment", VStr comment)].

(** The event of the end-to-end scenario, with a chosen id and year. *)
Definition event_with (id year : value) : dict :=
  [(lit "year", year);
   (lit "id", id);
   (lit "link", VStr (lit "https://e.org"));
   (lit "timeline",
    VList [entry (lit "2025-06-01T00:00:00") (lit "start");
           entry (lit "2025-09-30T23:59:59") (lit "end")]);
   (lit "timezone", VStr (lit "Asia/Shanghai"));
   (lit "date", VStr (lit "..."));
   (lit "place", VStr (lit "online"))].

Definition summer_event : dict :=
  event_with (VStr (lit "x-2025")) (VInt 2025).

(** The record of the end-to-end scenario around a chosen [events] value. *)
Definition record_with (events : value) : dict :=
  [(lit "title", VStr (lit "Open Source Summer"));
   (lit "description", VStr (lit "A summer of code"));
   (lit "category", VStr (lit "competition"));
   (lit "tags", VList [VStr (lit "a")]);
   (lit "events", events)].

Definition summer : dict := record_with (VList [VDict summer_event]).

(** The same record without [title] and with an unknown category. *)
Definition untitled_with (events : value) : dict :=
  [(lit "description", VStr (lit "A summer of code"));
   (lit "category", VStr (lit "webinar"));
   (lit "tags", VList [VStr (lit "a")]);
   (lit "events", events)].

(** A service without credential, one with a key, and a world whose
    completion endpoint answers with a fixed text that parses to a fixed
    value. *)
Definition no_env : str -> option str := fun _ => None.

Definition github_env : str -> option str := fun name =>
  if str_eqb name (lit "GITHUB_TOKEN") then Some (lit "ghp_token") else None.

Definition blank : template := {| preamble := []; example := [] |}.

Definition answering (text : str) (parsed : value) : world :=
  {| http_get := fun _ => Ret (lit "<html><body><p>Summer</p></body></html>");
     chat_completion := fun _ _ _ => Ret (Some text);
     json_loads := fun _ => Ret parsed;
     exn_text := fun _ => lit "error";
     py_print := fun _ => Ret tt |}.

(** An answer with a lone surrogate behind an escape, the object it parses
    to, and a world whose standard output is encoded in UTF-8: printing the
    parsed object raises, since [json.dumps(..., ensure_ascii=False)] leaves
    the surrogate as it is. *)
Definition surrogate_answer : str :=
  lit "{" ++ [34%N] ++ lit "description" ++ [34%N] ++ lit ": "
  ++ [34%N] ++ lit "\ud800" ++ [34%N] ++ lit "}".

Definition surrogate_record : value :=
  VDict [(lit "description", VStr [55296%N])].

Definition is_surrogate (c : char) : bool :=
  ((55296 <=? c) && (c <=? 57343))%N.

Definition utf8_stdout : world :=
  {| http_get := fun _ => Ret (lit "<html><body><p>Summer</p></body></html>");
     chat_completion := fun _ _ _ => Ret (Some surrogate_answer);
     json_loads := fun _ => Ret surrogate_record;
     exn_text := fun _ => lit "error";
     py_print := fun p =>
       match p with
       | Parsed (VDict [(_, VStr s)]) =>
           if existsb is_surrogate s then
             Raise (OtherError
                      (lit "'utf-8' codec can't encode character '\ud800' in position 20: surrogates not allowed"))
           else Ret tt
       | _ => Ret tt
       end |}.

(** A world without network. *)
Definition offline : world :=
  {| http_get := fun _ => Raise (OtherError (lit "connection refused"));
     chat_completion := fun _ _ _ =>
       Raise (OtherError (lit "connection refused"));
     json_loads := fun _ => Raise (OtherError (lit "not JSON"));
     exn_text := fun _ => lit "error";
     py_print := fun _ => Ret tt |}.

(** A stored record with the given tags and event ids. *)
Definition stored (tags ids : list value) : value :=
  VDict [(lit "title", VStr (lit "t"));
         (lit "tags", VList tags);
         (lit "events", VList (map (fun i => VDict [(lit "id", i)]) ids))].

Definition good_file : store_file :=
  {| path := lit "conferences.yml";
     loaded := Ret (VList [stored [VStr (lit "oss"); VStr (lit "ai")]
                             [VStr (lit "x-2025")];
                           stored [VStr (lit "ai")] [VStr (lit "k-2024")]]) |}.

Definition corrupt_file : store_file :=
  {| path := lit "activities.yml";
     loaded := Raise (OtherError (lit "mapping values are not allowed here")) |}.



(** The record of the end-to-end scenario, typed. *)
Definition summer_typed (title description : str) : Serializer.record :=
  {| Serializer.title := title;
     Serializer.description := description;
     Serializer.category := lit "competition";
     Serializer.tags := [lit "a"];
     Serializer.events :=
       [{| Serializer.year := 2025;
           Serializer.id := lit "x-2025";
           Serializer.link := lit "https://e.org";
           Serializer.timeline :=
             [{| Serializer.deadline := lit "2025-06-01T00:00:00";
                 Serializer.comment := lit "start" |};
              {| Serializer.deadline := lit "2025-09-30T23:59:59";
                 Serializer.comment := lit "end" |}];
           Serializer.timezone := lit "Asia/Shanghai";
           Serializer.date := lit "...";
           Serializer.place := lit "online" |}] |}.

(** Two records that differ in where a line feed stands. *)
Definition split_title : Serializer.record :=
  summer_typed (lit "Open Source" ++ [NL] ++ lit "  description: Summer")
               (lit "of code").

Definition split_description : Serializer.record :=
  summer_typed (lit "Open Source")
               (lit "Summer" ++ [NL] ++ lit "  description: of code").

(** A page with a script block, and the same page with another body in the
    block. *)
Definition page_with (inner : str) : str :=
  lit "<html><p>Summer  of</p>" ++ lit "<SCRIPT" ++ inner ++ lit "</Script>"
  ++ lit " <b>code</b> </html>".

(** A style block the inner text of which opens a script. *)
Definition style_then_script : str :=
  lit "<style>secret<script></style></script>".

(** A page that says outside of its script block what the block holds. *)
Definition echo_page : str := lit "alert<script>alert</script>".

(** An event with the checked fields of the scenario and nothing else. *)
Definition bare_event : dict :=
  [(lit "id", VStr (lit "x-2025"));
   (lit "year", VInt 2025);
   (lit "link", VStr (lit "https://e.org"));
   (lit "timezone", VStr (lit "Asia/Shanghai"));
   (lit "timeline", VList [VNone; VInt 7])].

(** A store with one record, of another id than the scenario's. *)
Definition archive_file : store_file :=
  {| path := lit "conferences.yml";
     loaded := Ret (VList [stored [VStr (lit "oss")] [VStr (lit "k-2024")]]) |}.

(** An interpreter with the usual limit on the digits of an integer, which
    renders as the empty string the values that the scenario does not
    hold, and one that lowers no character beyond ASCII. *)
Definition plain_formats : Render.formats :=
  {| Render.int_max_str_digits := 4300;
     Render.format_other := fun _ => Ret [] |}.

(** The record of the scenario with a lone surrogate in its title, and a
    disk whose files are encoded in UTF-8: a write raises on a text that
    holds a surrogate. *)
Definition escaped_title : dict :=
  [(lit "title", VStr [120%N; 56448%N]);
   (lit "description", VStr (lit "A summer of code"));
   (lit "category", VStr (lit "competition"));
   (lit "tags", VList [VStr (lit "a")]);
   (lit "events", VList [VDict summer_event])].

Definition utf8_disk : Driver.disk :=
  {| Driver.fs_open := fun _ => Ret tt;
     Driver.fs_write := fun _ text =>
       if existsb is_surrogate text then
         Raise (OtherError
                  (lit "'utf-8' codec can't encode character '\udc80' in position 10: surrogates not allowed"))
       else Ret tt;
     Driver.fs_close := fun _ => Ret tt |}.

(** A disk that accepts every operation. *)
Definition sound_disk : Driver.disk :=
  {| Driver.fs_open := fun _ => Ret tt;
     Driver.fs_write := fun _ _ => Ret tt;
     Driver.fs_close := fun _ => Ret tt |}.

Definition plain_casing : FileInput.casing :=
  {| FileInput.lower_wide := fun _ c _ => [c] |}.

End Samples.

(* ================================================================== *)
(** * Properties *)
(* ================================================================== *)

(** ** Strings and decimal numerals *)

Lemma str_eqb_eq (a b : str) : str_eqb a b = true <-> a = b.
Proof.
  unfold str_eqb. destruct (list_eq_dec N.eq_dec a b); split; congruence.
Qed.

Lemma str_eqb_refl (a : str) : str_eqb a a = true.
Proof. apply str_eqb_eq. reflexivity. Qed.

Lemma str_eqb_neq (a b : str) : str_eqb a b = false <-> a <> b.
Proof.
  unfold str_eqb. destruct (list_eq_dec N.eq_dec a b); split; congruence.
Qed.

Lemma str_of_uint_digits (u : Decimal.uint) :
  Forall (fun c => is_digit c = true) (str_of_uint u).
Proof. induction u; simpl; constructor; auto. Qed.

Lemma str_of_uint_inj (u v : Decimal.uint) :
  str_of_uint u = str_of_uint v -> u = v.
Proof.
  revert v. induction u; destruct v; simpl; intros H;
    try discriminate; try reflexivity;
    injection H as H; f_equal; auto.
Qed.

Lemma str_of_nat_inj (n m : nat) : str_of_nat n = str_of_nat m -> n = m.
Proof.
  unfold str_of_nat. intros H. apply str_of_uint_inj in H.
  rewrite <- (DecimalNat.Unsigned.of_to n), <- (DecimalNat.Unsigned.of_to m).
  now rewrite H.
Qed.

Lemma str_of_nat_digits (n : nat) :
  Forall (fun c => is_digit c = true) (str_of_nat n).
Proof. apply str_of_uint_digits. Qed.

(** A run of characters of one class, followed by a character outside the
    class, can be read off the front of a string in one way only. *)
Lemma run_unique (p : char -> bool) (a b x y : str) (c c' : char) :
  Forall (fun k => p k = true) a ->
  Forall (fun k => p k = true) b ->
  p c = false -> p c' = false ->
  a ++ c :: x = b ++ c' :: y ->
  a = b /\ c :: x = c' :: y.
Proof.
  intros Ha. revert b. induction Ha as [|d a Hd Ha IH]; intros b Hb Hc Hc' E.
  - destruct Hb as [|e b He Hb]; simpl in E.
    + split; [reflexivity | exact E].
    + injection E as E1 E2. subst. congruence.
  - destruct Hb as [|e b He Hb]; simpl in E.
    + injection E as E1 E2. subst. congruence.
    + injection E as E1 E2. subst.
      destruct (IH b Hb Hc Hc' E2) as [-> E3]. split; [reflexivity | exact E3].
Qed.

Lemma digit_run_unique (a b x y : str) (c c' : char) :
  Forall (fun k => is_digit k = true) a ->
  Forall (fun k => is_digit k = true) b ->
  is_digit c = false -> is_digit c' = false ->
  a ++ c :: x = b ++ c' :: y ->
  a = b /\ c :: x = c' :: y.
Proof. apply run_unique. Qed.

(** ** Messages of the validator *)

Lemma event_msg_inj (i j : nat) (t u : str) :
  event_msg i t = event_msg j u -> i = j /\ t = u.
Proof.
  unfold event_msg. intros E.
  apply app_inv_head in E.
  change (lit ": " ++ t) with (58%N :: 32%N :: t) in E.
  change (lit ": " ++ u) with (58%N :: 32%N :: u) in E.
  apply digit_run_unique in E;
    try apply str_of_nat_digits; try reflexivity.
  destruct E as [E1 E2]. apply str_of_nat_inj in E1.
  injection E2 as E2. auto.
Qed.

(** An event message is none of the five record-level messages. *)
Lemma record_msg_not_event (m : str) (d : dict) (i : nat) (t : str) :
  In m (record_errors d) -> m <> event_msg i t.
Proof.
  unfold record_errors, when, event_msg. intros H E. subst m.
  repeat (apply in_app_or in H; destruct H as [H|H]);
    match type of H with
    | In _ (if ?b then _ else _) => destruct b
    end; simpl in H; try tauto;
    destruct H as [H|[]]; cbv in H; try discriminate;
    destruct (Nat.to_uint i); simpl in H; discriminate.
Qed.

(** ** The loop over the events *)

Lemma check_events_dicts (known : list str) (evs : list dict) :
  forall i errs,
    check_events known i (map VDict evs) errs
    = Ret (errs ++ events_errors known i evs).
Proof.
  induction evs as [|ev evs IH]; intros i errs; simpl.
  - now rewrite app_nil_r.
  - rewrite IH. now rewrite app_assoc.
Qed.

Lemma check_events_returns (known : list str) (events : list value) :
  forall i errs out,
    check_events known i events errs = Ret out ->
    exists evs, events = map VDict evs.
Proof.
  induction events as [|e events IH]; intros i errs out H.
  - exists []. reflexivity.
  - simpl in H. destruct e; simpl in H; try discriminate.
    apply IH in H. destruct H as [evs ->]. exists (d :: evs). reflexivity.
Qed.

Lemma check_events_raises (known : list str) (events : list value) :
  forall i errs,
    (exists e, In e events /\ forall ev, e <> VDict ev) ->
    check_events known i events errs = Raise AttributeError.
Proof.
  induction events as [|e events IH]; intros i errs [x [Hin Hx]].
  - destruct Hin.
  - simpl. destruct e; simpl; try reflexivity.
    destruct Hin as [<-|Hin]; [now destruct (Hx d)|].
    apply IH. exists x. auto.
Qed.

Lemma in_events_errors (known : list str) (m : str) (evs : list dict) :
  forall i,
    In m (events_errors known i evs) <->
    exists k ev, nth_error evs k = Some ev /\ In m (event_errors known (i + k) ev).
Proof.
  induction evs as [|ev evs IH]; intros i; simpl.
  - split; [tauto|]. intros [k [e [H _]]]. destruct k; discriminate.
  - rewrite in_app_iff, IH. split.
    + intros [H|[k [e [H1 H2]]]].
      * exists 0, ev. rewrite Nat.add_0_r. auto.
      * exists (S k), e. rewrite Nat.add_succ_r. auto.
    + intros [[|k] [e [H1 H2]]]; simpl in H1.
      * injection H1 as <-. rewrite Nat.add_0_r in H2. auto.
      * right. exists k, e. rewrite Nat.add_succ_r in H2. auto.
Qed.

(** What the validator returns on an object whose [events] holds objects
    only: every message of every rule, in order. *)
Lemma validate_on_objects (d : dict) (known : list str) (evs : list dict) :
  get d (lit "events") = VList (map VDict evs) ->
  validate_extracted_data (VDict d) known
  = Ret (make_verdict (record_errors d ++ events_errors known 0 evs)).
Proof.
  intros H. unfold validate_extracted_data. rewrite H.
  rewrite check_events_dicts. reflexivity.
Qed.

Lemma validate_no_events_list (d : dict) (known : list str) :
  isinstance_list (get d (lit "events")) = false ->
  validate_extracted_data (VDict d) known
  = Ret (make_verdict (record_errors d)).
Proof.
  intros H. unfold validate_extracted_data.
  destruct (get d (lit "events")); try discriminate; reflexivity.
Qed.

Lemma errors_list_make (errs : list str) :
  errors_list (make_verdict errs) = errs.
Proof. destruct errs; reflexivity. Qed.

(** Whenever the validator returns, its messages are the record-level ones
    followed by those of the events, all of which were objects. *)
Lemma validate_returns_inv (data : value) (known : list str) (r : verdict) :
  validate_extracted_data data known = Ret r ->
  exists d evs,
    data = VDict d /\
    r = make_verdict (record_errors d ++ events_errors known 0 evs) /\
    (get d (lit "events") = VList (map VDict evs) \/
     (isinstance_list (get d (lit "events")) = false /\ evs = [])).
Proof.
  intros H. destruct data as [| | | | | |d]; try discriminate.
  exists d. unfold validate_extracted_data in H.
  destruct (get d (lit "events")) as [| | | | |events|] eqn:E;
    try (injection H as <-; exists []; rewrite app_nil_r; auto).
  destruct (check_events known 0 events (record_errors d)) as [out|e] eqn:C;
    simpl in H; [|discriminate].
  injection H as <-.
  destruct (check_events_returns _ _ _ _ _ C) as [evs ->].
  rewrite check_events_dicts in C. injection C as <-.
  exists evs. auto.
Qed.

(** Where a message of one event can come from. *)
Lemma in_event_errors_inv (known : list str) (k : nat) (ev : dict) (m : str) :
  In m (event_errors known k ev) ->
  (bad_str ev (lit "id") = true /\ m = msg_id k) \/
  (bad_str ev (lit "id") = false /\
   exists id, get ev (lit "id") = VStr id /\ In id known /\
              m = msg_duplicate k id) \/
  (bad_int ev (lit "year") = true /\ m = msg_year k) \/
  (bad_str ev (lit "link") = true /\ m = msg_link k) \/
  (bad_list ev (lit "timeline") = true /\ m = msg_timeline k) \/
  (bad_str ev (lit "timezone") = true /\ m = msg_timezone k).
Proof.
  unfold event_errors, id_errors, when. intros H.
  repeat (apply in_app_or in H; destruct H as [H|H]).
  - destruct (bad_str ev (lit "id")) eqn:B.
    + destruct H as [<-|[]]. auto.
    + destruct (get ev (lit "id")) as [| | | |id| |] eqn:G; try (now destruct H).
      destruct (known_id known (VStr id)) eqn:K; [|now destruct H].
      destruct H as [<-|[]]. right; left. split; [reflexivity|].
      exists id. repeat split.
      unfold known_id in K. apply existsb_exists in K.
      destruct K as [x [Hx E]]. simpl in E. apply str_eqb_eq in E. now subst.
  - destruct (bad_int ev (lit "year")); [|now destruct H].
    destruct H as [<-|[]]. tauto.
  - destruct (bad_str ev (lit "link")); [|now destruct H].
    destruct H as [<-|[]]. tauto.
  - destruct (bad_list ev (lit "timeline")); [|now destruct H].
    destruct H as [<-|[]]. tauto.
  - destruct (bad_str ev (lit "timezone")); [|now destruct H].
    destruct H as [<-|[]]. tauto.
Qed.

(** Two event messages with different tails are different. *)
Ltac msg_clash :=
  match goal with
  | H : ?a = ?b |- _ =>
      (unfold msg_id, msg_duplicate, msg_year, msg_link, msg_timeline,
         msg_timezone in H);
      apply event_msg_inj in H; destruct H as [_ H]; cbv in H; discriminate
  end.

Lemma year_msg_origin (known : list str) (i k : nat) (ev : dict) :
  In (msg_year i) (event_errors known k ev) ->
  i = k /\ bad_int ev (lit "year") = true.
Proof.
  intros H. apply in_event_errors_inv in H.
  destruct H as [[_ E]|[[_ [id [_ [_ E]]]]|[[B E]|[[_ E]|[[_ E]|[_ E]]]]]];
    try msg_clash.
  apply event_msg_inj in E. tauto.
Qed.

Lemma id_msg_origin (known : list str) (i k : nat) (ev : dict) :
  In (msg_id i) (event_errors known k ev) ->
  i = k /\ bad_str ev (lit "id") = true.
Proof.
  intros H. apply in_event_errors_inv in H.
  destruct H as [[B E]|[[_ [id [_ [_ E]]]]|[[_ E]|[[_ E]|[[_ E]|[_ E]]]]]];
    try msg_clash.
  apply event_msg_inj in E. tauto.
Qed.

Lemma duplicate_msg_origin (known : list str) (i k : nat) (ev : dict) (s : str) :
  In (msg_duplicate i s) (event_errors known k ev) ->
  i = k /\ bad_str ev (lit "id") = false /\
  get ev (lit "id") = VStr s /\ In s known.
Proof.
  intros H. apply in_event_errors_inv in H.
  destruct H as [[_ E]|[[B [id [G [K E]]]]|[[_ E]|[[_ E]|[[_ E]|[_ E]]]]]];
    try msg_clash.
  apply event_msg_inj in E. destruct E as [-> E].
  apply app_inv_head in E. apply app_inv_tail in E. subst. auto.
Qed.

Lemma startswith_app (p s : str) : startswith p (p ++ s) = true.
Proof.
  induction p as [|c p IH]; simpl; [reflexivity|].
  unfold char_eqb. now rewrite N.eqb_refl.
Qed.

Lemma contains_eq (needle hay : str) :
  contains needle hay
  = startswith needle hay
    || match hay with [] => false | _ :: hay' => contains needle hay' end.
Proof. destruct hay; reflexivity. Qed.

Lemma contains_app (needle a b : str) : contains needle (a ++ needle ++ b) = true.
Proof.
  induction a as [|c a IH].
  - rewrite contains_eq. simpl. now rewrite startswith_app.
  - simpl. rewrite IH. apply orb_true_r.
Qed.

Lemma valid_make (errs : list str) :
  valid (make_verdict errs) = match errs with [] => true | _ => false end.
Proof. destruct errs; reflexivity. Qed.

Lemma errors_make_nonempty (errs : list str) (m : str) :
  In m errs -> errors (make_verdict errs) = Some errs.
Proof. destruct errs; simpl; [tauto | reflexivity]. Qed.

Lemma valid_make_nonempty (errs : list str) (m : str) :
  In m errs -> valid (make_verdict errs) = false.
Proof. destruct errs; simpl; [tauto | reflexivity]. Qed.

Lemma in_validated (known : list str) (d : dict) (evs : list dict)
    (i : nat) (ev : dict) (m : str) :
  nth_error evs i = Some ev ->
  In m (event_errors known i ev) ->
  In m (record_errors d ++ events_errors known 0 evs).
Proof.
  intros Hn Hm. apply in_or_app. right.
  apply in_events_errors. exists i, ev. auto.
Qed.

Lemma known_id_in (known : list str) (id : str) :
  In id known -> known_id known (VStr id) = true.
Proof.
  intros H. unfold known_id. apply existsb_exists.
  exists id. split; [exact H | apply str_eqb_refl].
Qed.

Lemma duplicate_emitted (known : list str) (i : nat) (ev : dict) (id : str) :
  get ev (lit "id") = VStr id -> id <> [] -> In id known ->
  In (msg_duplicate i id) (event_errors known i ev).
Proof.
  intros G Hne K. unfold event_errors. apply in_or_app. left.
  unfold id_errors, bad_str. rewrite G. simpl.
  destruct id as [|c id]; [congruence|]. simpl.
  change (existsb (eq_str (VStr (c :: id))) known)
    with (known_id known (VStr (c :: id))).
  rewrite known_id_in by assumption. now left.
Qed.

(** C1, as amended: in a record whose [events] list holds objects only, an
    event whose [id] is a non-empty string found among the known ids makes
    validation return [valid = false] with the duplicate-id message for that
    index, which quotes the id; nothing is assumed of the other fields. *)
Theorem duplicate_id_rejected (d : dict) (known : list str)
    (evs : list dict) (i : nat) (ev : dict) (id : str) :
  get d (lit "events") = VList (map VDict evs) ->
  nth_error evs i = Some ev ->
  get ev (lit "id") = VStr id ->
  id <> [] ->
  In id known ->
  exists r errs,
    validate_extracted_data (VDict d) known = Ret r /\
    valid r = false /\
    errors r = Some errs /\
    In (msg_duplicate i id) errs /\
    contains (lit "Duplicate") (msg_duplicate i id) = true /\
    contains id (msg_duplicate i id) = true.
Proof.
  intros He Hn Hid Hne Hk.
  pose proof (in_validated known d evs i ev _ Hn
                (duplicate_emitted known i ev id Hid Hne Hk)) as Hin.
  eexists. eexists. split; [apply validate_on_objects; exact He|].
  split; [eapply valid_make_nonempty; exact Hin|].
  split; [eapply errors_make_nonempty; exact Hin|].
  split; [exact Hin|]. split.
  - unfold msg_duplicate, event_msg.
    change (lit "Duplicate ID '") with (lit "Duplicate" ++ lit " ID '").
    rewrite !app_assoc. rewrite <- !app_assoc.
    rewrite (app_assoc (lit "Event ")), (app_assoc (lit "Event " ++ _)).
    apply contains_app.
  - unfold msg_duplicate, event_msg.
    rewrite (app_assoc (lit "Event ")), (app_assoc (lit "Event " ++ _)).
    rewrite (app_assoc _ (lit "Duplicate ID '")).
    apply contains_app.
Qed.

Lemma duplicate_id_rejected_witness :
  exists r errs,
    validate_extracted_data (VDict Samples.summer) [lit "x-2025"] = Ret r /\
    valid r = false /\
    errors r = Some errs /\
    In (msg_duplicate 0 (lit "x-2025")) errs /\
    contains (lit "Duplicate") (msg_duplicate 0 (lit "x-2025")) = true /\
    contains (lit "x-2025") (msg_duplicate 0 (lit "x-2025")) = true.
Proof.
  apply (duplicate_id_rejected Samples.summer [lit "x-2025"]
           [Samples.summer_event] 0 Samples.summer_event (lit "x-2025")).
  - reflexivity.
  - reflexivity.
  - reflexivity.
  - discriminate.
  - simpl. left. reflexivity.
Defined.

(** C1 as stated fails on two inputs.  An event whose id is the empty string,
    itself among the known ids, gets the missing-id message and no
    duplicate-id message; and a list of events with an element that is not an
    object makes the validator raise instead of returning a verdict. *)
Lemma duplicate_id_counterexample :
  (let ev := Samples.event_with (VStr []) (VInt 2025) in
   let d := Samples.record_with (VList [VDict ev]) in
   lookup (lit "id") ev = Some (VStr []) /\
   In [] [@nil char] /\
   validate_extracted_data (VDict d) [[]]
   = Ret {| valid := false; errors := Some [msg_id 0]; warnings := None |} /\
   ~ In (msg_duplicate 0 []) [msg_id 0]) /\
  (let d := Samples.record_with (VList [VDict Samples.summer_event; VInt 5]) in
   lookup (lit "id") Samples.summer_event = Some (VStr (lit "x-2025")) /\
   validate_extracted_data (VDict d) [lit "x-2025"] = Raise AttributeError).
Proof.
  repeat split; try reflexivity.
  - simpl. auto.
  - intros [H|[]]. cbv in H. discriminate.
Qed.

Lemma id_message_emitted (known : list str) (i : nat) (ev : dict) (id : str) :
  get ev (lit "id") = VStr id -> In id known ->
  In (match id with [] => msg_id i | _ => msg_duplicate i id end)
     (event_errors known i ev).
Proof.
  intros G K. destruct id as [|c id].
  - unfold event_errors. apply in_or_app. left.
    unfold id_errors, bad_str. rewrite G. simpl. now left.
  - apply duplicate_emitted; auto. discriminate.
Qed.

(** C2, as amended: on a record whose [events] list holds objects only, the
    validator returns the messages of all rules, none hiding another: the
    five record-level checks followed by the five checks of every event.  A
    record without [title], with a category outside the three allowed ones
    and with an event whose id is known gets three distinct messages for
    these (the id message is the duplicate-id one, or the missing-id one
    when that id is the empty string). *)
Theorem errors_accumulate (d : dict) (known : list str)
    (evs : list dict) (i : nat) (ev : dict) (id : str) :
  get d (lit "events") = VList (map VDict evs) ->
  lookup (lit "title") d = None ->
  bad_category d = true ->
  nth_error evs i = Some ev ->
  get ev (lit "id") = VStr id ->
  In id known ->
  let id_message := match id with [] => msg_id i | _ => msg_duplicate i id end in
  exists r errs,
    validate_extracted_data (VDict d) known = Ret r /\
    valid r = false /\
    errors r = Some errs /\
    errs = record_errors d ++ events_errors known 0 evs /\
    In msg_title errs /\ In msg_category errs /\ In id_message errs /\
    msg_title <> msg_category /\ msg_title <> id_message /\
    msg_category <> id_message.
Proof.
  intros He Ht Hc Hn Hid Hk id_message.
  assert (T : In msg_title (record_errors d)).
  { unfold record_errors, bad_str, get. rewrite Ht. simpl. now left. }
  assert (C : In msg_category (record_errors d)).
  { unfold record_errors. rewrite Hc.
    apply in_or_app. right. apply in_or_app. right. simpl. now left. }
  assert (I : exists t, id_message = event_msg i t).
  { subst id_message. destruct id; eexists; reflexivity. }
  destruct I as [t I].
  exists (make_verdict (record_errors d ++ events_errors known 0 evs)).
  exists (record_errors d ++ events_errors known 0 evs).
  split; [apply validate_on_objects; exact He|].
  assert (Tin : In msg_title (record_errors d ++ events_errors known 0 evs))
    by (apply in_or_app; auto).
  split; [eapply valid_make_nonempty; exact Tin|].
  split; [eapply errors_make_nonempty; exact Tin|].
  split; [reflexivity|].
  split; [exact Tin|].
  split; [apply in_or_app; auto|].
  split; [eapply in_validated; [exact Hn | apply id_message_emitted; auto]|].
  rewrite I.
  split; [cbv; discriminate|].
  split; eapply record_msg_not_event; eassumption.
Qed.

Lemma errors_accumulate_witness :
  exists r errs,
    validate_extracted_data
      (VDict (Samples.untitled_with (VList [VDict Samples.summer_event])))
      [lit "x-2025"] = Ret r /\
    errors r = Some errs /\
    In msg_title errs /\ In msg_category errs /\
    In (msg_duplicate 0 (lit "x-2025")) errs.
Proof.
  destruct (errors_accumulate
              (Samples.untitled_with (VList [VDict Samples.summer_event]))
              [lit "x-2025"] [Samples.summer_event] 0 Samples.summer_event
              (lit "x-2025"))
    as [r [errs [H1 [_ [H2 [_ [H3 [H4 [H5 _]]]]]]]]].
  - reflexivity.
  - reflexivity.
  - reflexivity.
  - reflexivity.
  - reflexivity.
  - simpl. left. reflexivity.
  - exists r, errs. repeat split; assumption.
Defined.

(** C2 as stated fails: the record has no [title], an unknown category and an
    event with a known id, but the [null] element after that event makes the
    validator raise, so that no error list is returned at all. *)
Lemma errors_accumulate_counterexample :
  let d := Samples.untitled_with (VList [VDict Samples.summer_event; VNone]) in
  lookup (lit "title") d = None /\
  bad_category d = true /\
  known_id [lit "x-2025"] (get Samples.summer_event (lit "id")) = true /\
  validate_extracted_data (VDict d) [lit "x-2025"] = Raise AttributeError.
Proof. repeat split; reflexivity. Qed.

(** ** The year rule *)

(** On a value that is not a JSON boolean, the year check fails exactly when
    the field is absent, holds something that is not an integer, or holds 0. *)
Lemma bad_int_iff (ev : dict) (k : str) :
  (forall b, lookup k ev <> Some (VBool b)) ->
  bad_int ev k = true <->
  lookup k ev = None \/
  (exists v, lookup k ev = Some v /\ forall z, v <> VInt z) \/
  lookup k ev = Some (VInt 0).
Proof.
  intros NB. unfold bad_int, get.
  destruct (lookup k ev) as [v|] eqn:L; [|simpl; tauto].
  destruct v as [|b|z| | | |]; simpl; rewrite ?orb_true_r;
    try (split; [intros _; right; left; eexists; split;
                   [reflexivity | discriminate]
                | reflexivity]).
  - now destruct (NB b).
  - rewrite orb_false_r. destruct (Z.eqb_spec z 0) as [->|Hz]; simpl.
    + tauto.
    + split; [discriminate|].
      intros [H|[[v [H1 H2]]|H]]; try discriminate.
      * injection H1 as <-. now destruct (H2 z).
      * injection H as ->. congruence.
Qed.

Lemma nth_error_objects (evs : list dict) :
  forall i ev, nth_error (map VDict evs) i = Some (VDict ev) ->
               nth_error evs i = Some ev.
Proof.
  induction evs as [|e evs IH]; intros [|i] ev H; simpl in *;
    try discriminate.
  - injection H as H. now subst.
  - now apply IH.
Qed.

(** C3, as amended: whenever the validator returns, it has emitted the year
    message of index [i] exactly when the year of event [i] is absent, is
    not an integer, or is the integer 0, for every event whose year is not a
    JSON boolean; an event whose year is a non-zero integer gets no year
    message. *)
Theorem year_error_iff (d : dict) (known : list str) (events : list value)
    (r : verdict) (i : nat) (ev : dict) :
  validate_extracted_data (VDict d) known = Ret r ->
  get d (lit "events") = VList events ->
  nth_error events i = Some (VDict ev) ->
  (forall b, lookup (lit "year") ev <> Some (VBool b)) ->
  (In (msg_year i) (errors_list r) <->
   lookup (lit "year") ev = None \/
   (exists v, lookup (lit "year") ev = Some v /\ forall z, v <> VInt z) \/
   lookup (lit "year") ev = Some (VInt 0)) /\
  (forall z, lookup (lit "year") ev = Some (VInt z) -> z <> 0%Z ->
             ~ In (msg_year i) (errors_list r)).
Proof.
  intros V He Hi NB.
  apply validate_returns_inv in V.
  destruct V as [d' [evs [Ed [-> Hev]]]]. injection Ed as Ed. subst d'.
  destruct Hev as [Hev|[Hev _]]; [|rewrite He in Hev; discriminate].
  rewrite He in Hev. injection Hev as ->.
  assert (Hn : nth_error evs i = Some ev).
  { now apply nth_error_objects. }
  rewrite errors_list_make.
  assert (M : In (msg_year i) (record_errors d ++ events_errors known 0 evs)
              <-> bad_int ev (lit "year") = true).
  { split.
    - intros H. apply in_app_or in H. destruct H as [H|H].
      + exfalso. eapply record_msg_not_event; [exact H | reflexivity].
      + apply in_events_errors in H. destruct H as [k [e [H1 H2]]].
        apply year_msg_origin in H2. destruct H2 as [-> H2].
        simpl in Hn. congruence.
    - intros B. eapply in_validated; [exact Hn|].
      unfold event_errors. rewrite B.
      apply in_or_app. right. simpl. now left. }
  split.
  - rewrite M. apply bad_int_iff. exact NB.
  - intros z Hz Hnz. rewrite M. unfold bad_int, get. rewrite Hz. simpl.
    destruct (Z.eqb_spec z 0); [contradiction | discriminate].
Qed.

Lemma year_error_iff_witness :
  let ev := Samples.event_with (VStr (lit "x-2025")) (VInt 0) in
  let r := {| valid := false; errors := Some [msg_year 0]; warnings := None |} in
  (In (msg_year 0) (errors_list r) <->
   lookup (lit "year") ev = None \/
   (exists v, lookup (lit "year") ev = Some v /\ forall z, v <> VInt z) \/
   lookup (lit "year") ev = Some (VInt 0)) /\
  (forall z, lookup (lit "year") ev = Some (VInt z) -> z <> 0%Z ->
             ~ In (msg_year 0) (errors_list r)).
Proof.
  intros ev r.
  apply (year_error_iff (Samples.record_with (VList [VDict ev])) []
           [VDict ev] r 0 ev).
  - reflexivity.
  - reflexivity.
  - reflexivity.
  - intros b. discriminate.
Defined.

(** C3 as stated fails: the year 0 is present and is an integer, and the
    validator still emits the year message for that event. *)
Lemma year_error_counterexample :
  let ev := Samples.event_with (VStr (lit "x-2025")) (VInt 0) in
  let d := Samples.record_with (VList [VDict ev]) in
  lookup (lit "year") ev = Some (VInt 0) /\
  validate_extracted_data (VDict d) []
  = Ret {| valid := false; errors := Some [msg_year 0]; warnings := None |}.
Proof. split; reflexivity. Qed.

(** The year [true] is accepted, [bool] being a subclass of [int]. *)
Lemma year_true_accepted :
  let ev := Samples.event_with (VStr (lit "x-2025")) (VBool true) in
  validate_extracted_data (VDict (Samples.record_with (VList [VDict ev]))) []
  = Ret {| valid := true; errors := None; warnings := None |}.
Proof. reflexivity. Qed.

(** ** The two id messages and the verdict *)

(** C10: whenever the validator returns, no index has both the missing-id
    message and a duplicate-id message in the error list; and [valid] is true
    exactly when the [errors] slot is [None], which stands for the empty
    list: the slot never holds an empty list. *)
Theorem id_errors_exclusive (data : value) (known : list str) (r : verdict) :
  validate_extracted_data data known = Ret r ->
  (forall i id,
      ~ (In (msg_id i) (errors_list r) /\
         In (msg_duplicate i id) (errors_list r))) /\
  (valid r = true <-> errors r = None) /\
  errors r <> Some [].
Proof.
  intros H. apply validate_returns_inv in H.
  destruct H as [d [evs [-> [-> Hev]]]].
  rewrite errors_list_make.
  split; [|destruct (record_errors d ++ events_errors known 0 evs);
           simpl; repeat split; congruence].
  intros i id [H1 H2].
  apply in_app_or in H1. apply in_app_or in H2.
  destruct H1 as [H1|H1];
    [exfalso; eapply record_msg_not_event; [exact H1 | reflexivity]|].
  destruct H2 as [H2|H2];
    [exfalso; eapply record_msg_not_event; [exact H2 | reflexivity]|].
  apply in_events_errors in H1. destruct H1 as [k1 [e1 [N1 M1]]].
  apply in_events_errors in H2. destruct H2 as [k2 [e2 [N2 M2]]].
  apply id_msg_origin in M1. destruct M1 as [-> B1].
  apply duplicate_msg_origin in M2. destruct M2 as [E [B2 _]].
  simpl in E. subst k2. rewrite N1 in N2. injection N2 as ->. congruence.
Qed.

Lemma id_errors_exclusive_witness :
  (forall i id,
      ~ (In (msg_id i) [msg_duplicate 0 (lit "x-2025")] /\
         In (msg_duplicate i id) [msg_duplicate 0 (lit "x-2025")])) /\
  (false = true <-> Some [msg_duplicate 0 (lit "x-2025")] = None) /\
  Some [msg_duplicate 0 (lit "x-2025")] <> Some [].
Proof.
  apply (id_errors_exclusive (VDict Samples.summer) [lit "x-2025"]
           {| valid := false;
              errors := Some [msg_duplicate 0 (lit "x-2025")];
              warnings := None |}).
  reflexivity.
Defined.

(** ** The pipeline *)

Lemma invalid_has_errors (data : value) (known : list str) (r : verdict) :
  validate_extracted_data data known = Ret r ->
  valid r = false ->
  errors r = Some (errors_list r) /\ errors_list r <> [].
Proof.
  intros H V. apply validate_returns_inv in H.
  destruct H as [d [evs [_ [-> _]]]].
  destruct (record_errors d ++ events_errors known 0 evs);
    [discriminate | split; [reflexivity | discriminate]].
Qed.

Lemma join_fold (sep : str) (rest : list str) :
  forall pre m,
    pre ++ join sep (m :: rest)
    = fold_left (fun text x => text ++ sep ++ x) rest (pre ++ m).
Proof.
  induction rest as [|x rest IH]; intros pre m; [reflexivity|].
  change (join sep (m :: x :: rest)) with (m ++ sep ++ join sep (x :: rest)).
  cbn [fold_left].
  replace ((pre ++ m) ++ sep ++ x) with ((pre ++ m ++ sep) ++ x)
    by now rewrite <- !app_assoc.
  rewrite <- IH. now rewrite <- !app_assoc.
Qed.

Lemma prints_app (w : world) (ps qs : list printed) :
  prints w (ps ++ qs) = bind (prints w ps) (fun _ => prints w qs).
Proof.
  induction ps as [|p ps IH]; [reflexivity|].
  rewrite <- app_comm_cons. cbn [prints].
  destruct (py_print w p) as [[]|e]; [exact IH | reflexivity].
Qed.

(** C7, as amended: when the completion answers, its text parses and the
    validator returns a verdict that is not valid, the outcome depends on
    the nine [print]s that stand in the [try] block before the [return].
    When they return, [extract_activity_info] returns a failure whose
    error is the first message of the verdict followed, for each further
    message, by a semicolon, a space and that message; these are the
    messages of all violated rules, the record-level ones followed by those
    of every event.  When one of them raises, the outcome is the failure
    [AI extraction failed: ] followed by the text of that exception. *)
Theorem schema_violation_reported (w : world) (T : template) (svc : service)
    (c : client) (content source_url text : str)
    (existing_tags existing_ids : list str) (parsed : value) (r : verdict) :
  openai svc = Some c ->
  chat_completion w (model svc)
    (system_prompt T existing_tags existing_ids)
    (user_prompt source_url content) = Ret (Some text) ->
  text <> [] ->
  json_loads w text = Ret parsed ->
  validate_extracted_data parsed existing_ids = Ret r ->
  valid r = false ->
  let shown := [RawBanner; Raw text; RawEnd;
                ParsedBanner; Parsed parsed; ParsedEnd;
                InvalidBanner; InvalidErrors (errors r); InvalidEnd] in
  let o := fst (extract_activity_info w T svc content source_url
                  existing_tags existing_ids) in
  (prints w shown = Ret tt ->
   o = {| success := false;
          error := Some (fold_left (fun message m => message ++ lit "; " ++ m)
                           (tl (errors_list r)) (hd [] (errors_list r)));
          data := None;
          outcome_warnings := None |}) /\
  (forall e, prints w shown = Raise e ->
     o = failure (lit "AI extraction failed: " ++ describe w e)) /\
  errors_list r <> [] /\
  exists d evs,
    parsed = VDict d /\
    errors_list r = record_errors d ++ events_errors existing_ids 0 evs.
Proof.
  intros Ho Hc Ht Hj Hv Hinv shown o.
  destruct (invalid_has_errors _ _ _ Hv Hinv) as [He Hne].
  assert (O : o = match
                bind (prints w [RawBanner; Raw text; RawEnd]) (fun _ =>
                bind (prints w [ParsedBanner; Parsed parsed; ParsedEnd])
                  (fun _ =>
                bind (prints w [InvalidBanner; InvalidErrors (errors r);
                                InvalidEnd]) (fun _ =>
                Ret {| success := false;
                       error := Some (join (lit "; ") (errors_list r));
                       data := None;
                       outcome_warnings := warnings r |})))
              with
              | Ret o' => o'
              | Raise e => failure (lit "AI extraction failed: " ++ describe w e)
              end).
  { subst o. unfold extract_activity_info. rewrite Ho. cbn [fst]. rewrite Hc.
    cbn [bind]. destruct text as [|x text]; [congruence|].
    unfold after_completion.
    destruct (prints w [RawBanner; Raw (x :: text); RawEnd]); [|reflexivity].
    cbn [bind]. rewrite Hj. cbn [bind].
    destruct (prints w [ParsedBanner; Parsed parsed; ParsedEnd]);
      [|reflexivity].
    cbn [bind]. rewrite Hv. cbn [bind]. rewrite Hinv. cbn [negb].
    destruct (prints w [InvalidBanner; InvalidErrors (errors r); InvalidEnd]);
      [|reflexivity].
    cbn [bind]. rewrite He. reflexivity. }
  assert (P : prints w shown
              = bind (prints w [RawBanner; Raw text; RawEnd]) (fun _ =>
                bind (prints w [ParsedBanner; Parsed parsed; ParsedEnd])
                  (fun _ =>
                prints w [InvalidBanner; InvalidErrors (errors r);
                          InvalidEnd]))).
  { subst shown.
    change [RawBanner; Raw text; RawEnd; ParsedBanner; Parsed parsed;
            ParsedEnd; InvalidBanner; InvalidErrors (errors r); InvalidEnd]
      with ([RawBanner; Raw text; RawEnd]
            ++ [ParsedBanner; Parsed parsed; ParsedEnd]
            ++ [InvalidBanner; InvalidErrors (errors r); InvalidEnd]).
    rewrite prints_app.
    destruct (prints w [RawBanner; Raw text; RawEnd]); [|reflexivity].
    cbn [bind]. now rewrite prints_app. }
  assert (W : warnings r = None).
  { apply validate_returns_inv in Hv. destruct Hv as [d [evs [_ [-> _]]]].
    reflexivity. }
  split; [|split; [|split; [exact Hne|]]].
  - intros S. rewrite O. rewrite P in S.
    destruct (prints w [RawBanner; Raw text; RawEnd]) as [[]|];
      [|discriminate].
    cbn [bind] in *.
    destruct (prints w [ParsedBanner; Parsed parsed; ParsedEnd]) as [[]|];
      [|discriminate].
    cbn [bind] in *. rewrite S. cbn [bind]. rewrite W.
    destruct (errors_list r) as [|m rest]; [congruence|].
    cbn [hd tl]. f_equal. f_equal.
    exact (join_fold (lit "; ") rest [] m).
  - intros e S. rewrite O. rewrite P in S.
    destruct (prints w [RawBanner; Raw text; RawEnd]) as [[]|e1];
      [|injection S as ->; reflexivity].
    cbn [bind] in *.
    destruct (prints w [ParsedBanner; Parsed parsed; ParsedEnd]) as [[]|e2];
      [|injection S as ->; reflexivity].
    cbn [bind] in *. rewrite S. reflexivity.
  - apply validate_returns_inv in Hv. destruct Hv as [d [evs [-> [-> _]]]].
    exists d, evs. rewrite errors_list_make. auto.
Qed.

Lemma schema_violation_reported_witness :
  let parsed :=
    VDict (Samples.untitled_with (VList [VDict Samples.summer_event])) in
  let w := Samples.answering (lit "{}") parsed in
  fst (extract_activity_info w Samples.blank (init Samples.github_env)
         (lit "Summer") (lit "https://e.org") [] [lit "x-2025"])
  = {| success := false;
       error := Some (lit "Missing or invalid title; Invalid category (must be conference, competition, or activity); Event 0: Duplicate ID 'x-2025'");
       data := None;
       outcome_warnings := None |}.
Proof.
  intros parsed w.
  refine (proj1 (schema_violation_reported w Samples.blank
                   (init Samples.github_env)
                   {| api_key := lit "ghp_token";
                      base_url :=
                        Some (lit "https://models.inference.ai.azure.com") |}
                   (lit "Summer") (lit "https://e.org") (lit "{}")
                   [] [lit "x-2025"] parsed
                   {| valid := false;
                      errors := Some [msg_title; msg_category;
                                      msg_duplicate 0 (lit "x-2025")];
                      warnings := None |}
                   _ _ _ _ _ _) _);
    try reflexivity.
  discriminate.
Defined.

(** C7 as stated fails when a [print] of the [try] block raises.  The
    answer below parses to an object that holds a lone surrogate; the
    validator returns a verdict that is not valid, with four messages; but
    the parsed object is printed before it is validated, the print raises on
    a standard output encoded in UTF-8, and the outcome carries the text of
    that exception in place of the messages. *)
Lemma schema_violation_counterexample :
  json_loads Samples.utf8_stdout Samples.surrogate_answer
  = Ret Samples.surrogate_record /\
  validate_extracted_data Samples.surrogate_record []
  = Ret {| valid := false;
           errors := Some [msg_title; msg_category; msg_tags; msg_events];
           warnings := None |} /\
  fst (extract_activity_info Samples.utf8_stdout Samples.blank
         (init Samples.github_env) (lit "Summer") (lit "https://e.org") [] [])
  = failure (lit "AI extraction failed: 'utf-8' codec can't encode character '\ud800' in position 20: surrogates not allowed") /\
  error (fst (extract_activity_info Samples.utf8_stdout Samples.blank
                (init Samples.github_env) (lit "Summer")
                (lit "https://e.org") [] []))
  <> Some (lit "Missing or invalid title; Invalid category (must be conference, competition, or activity); Tags must be a non-empty array; Events must be a non-empty array").
Proof.
  split; [reflexivity|]. split; [reflexivity|]. split; [reflexivity|].
  vm_compute. discriminate.
Qed.

(** The service has no client exactly when the variable of the selected
    provider is unset or empty. *)
Lemma init_without_credential (env : str -> option str) :
  openai (init env) = None <->
  (env (snd (provider_names (init env))) = None \/
   env (snd (provider_names (init env))) = Some []).
Proof.
  unfold init, provider_names, client_for. simpl.
  destruct (str_eqb (getenv_or env (lit "AI_PROVIDER") (lit "github"))
              (lit "github"));
    [|destruct (str_eqb (getenv_or env (lit "AI_PROVIDER") (lit "github"))
                  (lit "dashscope"))];
    simpl;
    match goal with
    | |- context [env ?k] => destruct (env k) as [[|x k']|]
    end; split; intros H; try reflexivity; try discriminate; auto;
    destruct H; discriminate.
Qed.

(** C8, as amended: without a client the completion call is never made, and
    [extract_activity_info] reports the configuration error before any call
    of its own; but [extract_from_url] requests the page first: the fetch is
    its one call, the configuration error is the outcome when the fetch
    succeeds, and a failed fetch is reported in its place. *)
Theorem configuration_error_order (w : world) (U : tables) (T : template)
    (svc : service) (url content : str)
    (existing_tags existing_ids : list str) :
  openai svc = None ->
  extract_activity_info w T svc content url existing_tags existing_ids
  = (not_configured svc, []) /\
  snd (extract_from_url w U T svc url existing_tags existing_ids)
  = [Fetch url] /\
  (forall html, http_get w url = Ret html ->
     fst (extract_from_url w U T svc url existing_tags existing_ids)
     = not_configured svc) /\
  (forall e, http_get w url = Raise e ->
     fst (extract_from_url w U T svc url existing_tags existing_ids)
     = failure (lit "Failed to extract from URL: " ++ describe w e)) /\
  success (not_configured svc) = false /\
  exists message,
    error (not_configured svc)
    = Some (fst (provider_names svc) ++ message
            ++ snd (provider_names svc) ++ lit " environment variable.").
Proof.
  intros Ho.
  assert (E : extract_activity_info w T svc content url
                existing_tags existing_ids = (not_configured svc, [])).
  { unfold extract_activity_info. now rewrite Ho. }
  split; [exact E|].
  unfold extract_from_url, fetch_web_content, extract_activity_info.
  rewrite Ho.
  split; [destruct (http_get w url); reflexivity|].
  split; [intros html H; now rewrite H|].
  split; [intros e H; now rewrite H|].
  unfold not_configured. destruct (provider_names svc) as [name env_var].
  split; [reflexivity|]. eexists. reflexivity.
Qed.

Lemma configuration_error_order_witness :
  extract_activity_info Samples.offline Samples.blank (init Samples.no_env)
    (lit "Summer") (lit "https://e.org") [] []
  = (not_configured (init Samples.no_env), []) /\
  snd (extract_from_url Samples.offline ascii_tables Samples.blank
         (init Samples.no_env) (lit "https://e.org") [] [])
  = [Fetch (lit "https://e.org")].
Proof.
  destruct (configuration_error_order Samples.offline ascii_tables
              Samples.blank (init Samples.no_env) (lit "https://e.org")
              (lit "Summer") [] [] eq_refl) as [H1 [H2 _]].
  split; assumption.
Defined.

(** C8 as stated fails: with no credential in the environment the page is
    requested all the same, before the configuration error is returned; and
    when that request fails, the outcome is the fetch failure and the
    configuration error is not reported at all. *)
Lemma configuration_error_counterexample :
  let svc := init Samples.no_env in
  let w := Samples.answering (lit "{}") VNone in
  openai svc = None /\
  extract_from_url w ascii_tables Samples.blank svc (lit "https://e.org") [] []
  = (not_configured svc, [Fetch (lit "https://e.org")]) /\
  extract_from_url Samples.offline ascii_tables Samples.blank svc
    (lit "https://e.org") [] []
  = (failure (lit "Failed to extract from URL: connection refused"),
     [Fetch (lit "https://e.org")]).
Proof. repeat split; reflexivity. Qed.

(** ** The prompts *)





(** ** The corpus index *)

Lemma strs_are_strs (vs : list value) :
  forallb is_str vs = true -> vs = map VStr (map str_of vs).
Proof.
  induction vs as [|v vs IH]; simpl; [reflexivity|].
  intros H. apply andb_true_iff in H. destruct H as [Hv Hvs].
  destruct v; try discriminate. simpl. f_equal. auto.
Qed.

Lemma existsb_py_eq_str (s : str) (set : list str) :
  existsb (py_eq (VStr s)) (map VStr set) = existsb (str_eqb s) set.
Proof. induction set as [|t set IH]; simpl; [reflexivity | now rewrite IH]. Qed.

Lemma set_add_str (s : str) (set : list str) :
  set_add (VStr s) (map VStr set) = Ret (map VStr (add_str set s)).
Proof.
  unfold set_add, add_str. simpl. rewrite existsb_py_eq_str.
  destruct (existsb (str_eqb s) set); [reflexivity|].
  now rewrite map_app.
Qed.

Lemma add_tag_str (s : str) (tags : list str) ids w :
  add_tag (VStr s) {| all_tags := map VStr tags; all_ids := ids; warned := w |}
  = (Ret tt, {| all_tags := map VStr (add_str tags s);
                all_ids := ids; warned := w |}).
Proof. unfold add_tag. cbn [all_tags all_ids warned]. now rewrite set_add_str. Qed.

Lemma add_id_str (s : str) tags (ids : list str) w :
  add_id (VStr s) {| all_tags := tags; all_ids := map VStr ids; warned := w |}
  = (Ret tt, {| all_tags := tags;
                all_ids := map VStr (add_str ids s); warned := w |}).
Proof. unfold add_id. cbn [all_tags all_ids warned]. now rewrite set_add_str. Qed.

Lemma add_tags_strs (l : list str) :
  forall tags ids w,
    for_each (map VStr l) add_tag
      {| all_tags := map VStr tags; all_ids := ids; warned := w |}
    = (Ret tt, {| all_tags := map VStr (fold_left add_str l tags);
                  all_ids := ids; warned := w |}).
Proof.
  induction l as [|s l IH]; intros tags ids w; [reflexivity|].
  cbn [map for_each fold_left]. unfold seq. rewrite add_tag_str. apply IH.
Qed.

Lemma collect_tags_shaped (item : value) (tags : list str) ids w :
  item_shaped item = true ->
  collect_tags item {| all_tags := map VStr tags; all_ids := ids; warned := w |}
  = (Ret tt, {| all_tags := map VStr (fold_left add_str (item_tags item) tags);
                all_ids := ids; warned := w |}).
Proof.
  destruct item as [| | | | | |d]; try discriminate. simpl.
  intros H. apply andb_true_iff in H. destruct H as [H _].
  unfold collect_tags, seq, lift, py_in, py_getitem. simpl.
  destruct (lookup (lit "tags") d) as [v|]; [|reflexivity].
  destruct v as [| | | | |ts|]; try discriminate. simpl.
  rewrite (strs_are_strs ts H) at 1. apply add_tags_strs.
Qed.

Lemma collect_id_shaped (event : value) tags (ids : list str) w :
  event_shaped event = true ->
  collect_id event {| all_tags := tags; all_ids := map VStr ids; warned := w |}
  = (Ret tt, {| all_tags := tags;
                all_ids := map VStr (fold_left add_str (event_ids event) ids);
                warned := w |}).
Proof.
  destruct event as [| | | | | |e]; try discriminate. simpl. intros H.
  unfold collect_id, seq, lift, py_in, py_getitem. simpl.
  destruct (lookup (lit "id") e) as [v|]; [|reflexivity].
  destruct v as [| | | |s| |]; try discriminate.
  cbn [event_ids fold_left]. apply add_id_str.
Qed.

Lemma collect_events_shaped (es : list value) :
  forall tags (ids : list str) w,
    forallb event_shaped es = true ->
    for_each es collect_id
      {| all_tags := tags; all_ids := map VStr ids; warned := w |}
    = (Ret tt, {| all_tags := tags;
                  all_ids := map VStr (fold_left add_str (flat_map event_ids es) ids);
                  warned := w |}).
Proof.
  induction es as [|e es IH]; intros tags ids w H; [reflexivity|].
  simpl in H. apply andb_true_iff in H. destruct H as [He Hes].
  simpl. unfold seq at 1. rewrite collect_id_shaped by assumption.
  rewrite IH by assumption. now rewrite fold_left_app.
Qed.

Lemma collect_ids_shaped (item : value) tags (ids : list str) w :
  item_shaped item = true ->
  collect_ids item {| all_tags := tags; all_ids := map VStr ids; warned := w |}
  = (Ret tt, {| all_tags := tags;
                all_ids := map VStr (fold_left add_str (item_ids item) ids);
                warned := w |}).
Proof.
  destruct item as [| | | | | |d]; try discriminate. simpl.
  intros H. apply andb_true_iff in H. destruct H as [_ H].
  unfold collect_ids, seq, lift, py_in, py_getitem. simpl.
  destruct (lookup (lit "events") d) as [v|]; [|reflexivity].
  destruct v as [| | | | |es|]; try discriminate. simpl.
  apply collect_events_shaped. exact H.
Qed.

Lemma collect_items_shaped (items : list value) :
  forall (tags ids : list str) w,
    forallb item_shaped items = true ->
    for_each items (fun item => _ <- collect_tags item ;; collect_ids item)
      {| all_tags := map VStr tags; all_ids := map VStr ids; warned := w |}
    = (Ret tt,
       {| all_tags := map VStr (fold_left add_str (flat_map item_tags items) tags);
          all_ids := map VStr (fold_left add_str (flat_map item_ids items) ids);
          warned := w |}).
Proof.
  induction items as [|item items IH]; intros tags ids w H; [reflexivity|].
  simpl in H. apply andb_true_iff in H. destruct H as [Hi His].
  simpl. unfold seq at 1. unfold seq at 1.
  rewrite collect_tags_shaped by assumption.
  rewrite collect_ids_shaped by assumption.
  rewrite IH by assumption. now rewrite !fold_left_app.
Qed.

Lemma visit_shaped (f : store_file) (tags ids : list str) w :
  (forall data, loaded f = Ret data -> store_shaped data = true) ->
  visit {| all_tags := map VStr tags; all_ids := map VStr ids; warned := w |} f
  = {| all_tags :=
         map VStr (fold_left add_str (flat_map item_tags (store_items f)) tags);
       all_ids :=
         map VStr (fold_left add_str (flat_map item_ids (store_items f)) ids);
       warned := if readable f then w else w ++ [path f] |}.
Proof.
  intros H. unfold visit, store_items, readable.
  destruct (loaded f) as [data|e]; [|reflexivity].
  specialize (H data eq_refl).
  destruct data as [| | | | |items|]; try discriminate; try reflexivity.
  unfold collect. destruct items as [|item items]; [reflexivity|].
  cbn [truthy negb]. unfold seq, lift. cbn [py_iter].
  rewrite collect_items_shaped by exact H. reflexivity.
Qed.

Lemma visit_all_shaped (files : list store_file) :
  forall (tags ids : list str) w,
    (forall f data, In f files -> loaded f = Ret data ->
                    store_shaped data = true) ->
    fold_left visit files
      {| all_tags := map VStr tags; all_ids := map VStr ids; warned := w |}
    = {| all_tags := map VStr (fold_left add_str (corpus_tags files) tags);
         all_ids := map VStr (fold_left add_str (corpus_ids files) ids);
         warned :=
           w ++ map path (filter (fun f => negb (readable f)) files) |}.
Proof.
  induction files as [|f files IH]; intros tags ids w H.
  - simpl. now rewrite app_nil_r.
  - cbn [fold_left]. rewrite visit_shaped by (intros d; apply H; now left).
    rewrite IH by (intros g d Hg; apply H; now right).
    unfold corpus_tags, corpus_ids. cbn [flat_map filter].
    rewrite !fold_left_app. f_equal.
    destruct (readable f); cbn [negb map]; [reflexivity|].
    now rewrite <- app_assoc.
Qed.

Lemma in_add_str (set : list str) (s x : str) :
  In x (add_str set s) <-> In x set \/ x = s.
Proof.
  unfold add_str. destruct (existsb (str_eqb s) set) eqn:E.
  - split; [tauto|]. intros [H| ->]; [exact H|].
    apply existsb_exists in E. destruct E as [y [Hy E]].
    apply str_eqb_eq in E. now subst.
  - rewrite in_app_iff. simpl. intuition congruence.
Qed.

Lemma in_add_strs (l : list str) :
  forall set x, In x (fold_left add_str l set) <-> In x set \/ In x l.
Proof.
  induction l as [|s l IH]; intros set x; simpl; [tauto|].
  rewrite IH, in_add_str. intuition congruence.
Qed.

Lemma nodup_add_str (set : list str) (s : str) :
  NoDup set -> NoDup (add_str set s).
Proof.
  intros H. unfold add_str. destruct (existsb (str_eqb s) set) eqn:E; [exact H|].
  apply NoDup_app; [exact H | repeat constructor; auto | ].
  intros x Hx [E'|[]]. subst x.
  assert (existsb (str_eqb s) set = true); [|congruence].
  apply existsb_exists. exists s. split; [exact Hx | apply str_eqb_refl].
Qed.

Lemma nodup_add_strs (l : list str) :
  forall set, NoDup set -> NoDup (fold_left add_str l set).
Proof.
  induction l as [|s l IH]; intros set H; simpl; [exact H|].
  apply IH. now apply nodup_add_str.
Qed.

(** The order of strings is a total order. *)
Lemma leb_trans (a b c : str) :
  StrOrder.leb a b = true -> StrOrder.leb b c = true -> StrOrder.leb a c = true.
Proof.
  revert b c. induction a as [|x a IH]; intros b c; [reflexivity|].
  destruct b as [|y b]; [discriminate|]. destruct c as [|z c]; [discriminate|].
  simpl. intros H1 H2.
  apply orb_true_iff in H1. apply orb_true_iff in H2.
  apply orb_true_iff.
  destruct H1 as [H1|H1], H2 as [H2|H2];
    rewrite ?andb_true_iff, ?N.ltb_lt, ?N.eqb_eq in *.
  - left. lia.
  - left. destruct H2 as [-> _]. exact H1.
  - left. destruct H1 as [-> _]. exact H2.
  - right. destruct H1 as [-> H1], H2 as [-> H2]. split; [reflexivity|].
    eapply IH; eassumption.
Qed.

Lemma sort_strict (l : list str) :
  NoDup l -> StronglySorted str_lt (StrSort.sort l).
Proof.
  intros ND.
  assert (S : StronglySorted (fun a b => StrOrder.leb a b = true)
                (StrSort.sort l)).
  { apply Sorted_StronglySorted.
    - intros a b c. apply leb_trans.
    - apply StrSort.Sorted_sort. }
  assert (N : NoDup (StrSort.sort l)).
  { eapply Permutation_NoDup; [apply StrSort.Permuted_sort | exact ND]. }
  induction S as [|a rest S IH F]; constructor.
  - apply IH. now inversion N.
  - inversion N as [|? ? Hnotin _]; subst.
    rewrite Forall_forall in *. intros x Hx. split; [now apply F|].
    intros ->. contradiction.
Qed.

Lemma py_sorted_strs (l : list str) :
  py_sorted (map VStr l) = Ret (map VStr (StrSort.sort l)).
Proof.
  unfold py_sorted.
  destruct l as [|a [|b l]]; try reflexivity.
  replace (length (map VStr (a :: b :: l)) <=? 1)%nat with false by reflexivity.
  replace (forallb is_str (map VStr (a :: b :: l))) with true.
  - rewrite map_map. simpl str_of. now rewrite map_id.
  - symmetry. apply forallb_forall. intros x Hx.
    apply in_map_iff in Hx. destruct Hx as [s [<- _]]. reflexivity.
Qed.




(** The store of one well-formed file and one corrupt file. *)
Lemma load_one_corrupt_file :
  load_existing_data [Samples.good_file; Samples.corrupt_file]
  = (Ret ([VStr (lit "ai"); VStr (lit "oss")],
          [VStr (lit "k-2024"); VStr (lit "x-2025")]),
     [lit "activities.yml"]).
Proof. reflexivity. Qed.


(** ** The serializer *)

Lemma str_of_uint_no_minus (u : Decimal.uint) (x : str) :
  str_of_uint u <> 45%N :: x.
Proof.
  intros E. pose proof (str_of_uint_digits u) as D. rewrite E in D.
  inversion D. discriminate.
Qed.

Lemma str_of_Z_inj (a b : Z) : str_of_Z a = str_of_Z b -> a = b.
Proof.
  unfold str_of_Z. intros E.
  rewrite <- (DecimalZ.of_to a), <- (DecimalZ.of_to b).
  destruct (Z.to_int a) as [u|u], (Z.to_int b) as [v|v].
  - apply str_of_uint_inj in E. now subst.
  - now apply str_of_uint_no_minus in E.
  - symmetry in E. now apply str_of_uint_no_minus in E.
  - injection E as E. apply str_of_uint_inj in E. now subst.
Qed.

Lemma one_line_app (a b : str) :
  Serializer.one_line (a ++ b)
  = Serializer.one_line a && Serializer.one_line b.
Proof.
  unfold Serializer.one_line. rewrite existsb_app. apply negb_orb.
Qed.

Lemma one_line_forall (s : str) :
  Serializer.one_line s = true <->
  Forall (fun k => negb (N.eqb NL k) = true) s.
Proof.
  unfold Serializer.one_line. induction s as [|c s IH]; simpl.
  - split; [constructor | reflexivity].
  - rewrite negb_orb, andb_true_iff, IH. split.
    + intros [H1 H2]. now constructor.
    + intros H. now inversion H.
Qed.

Lemma one_line_uint (u : Decimal.uint) : Serializer.one_line (str_of_uint u) = true.
Proof. induction u; simpl; auto. Qed.

Lemma one_line_Z (z : Z) : Serializer.one_line (str_of_Z z) = true.
Proof.
  unfold str_of_Z. destruct (Z.to_int z); [apply one_line_uint|].
  change (45%N :: str_of_uint d) with ([45%N] ++ str_of_uint d).
  rewrite one_line_app, one_line_uint. reflexivity.
Qed.

(** Joining lines with a line feed loses nothing when no line holds one. *)
Lemma join_lines_inj (l1 : list str) :
  forall l2,
    Forall (fun s => Serializer.one_line s = true) l1 ->
    Forall (fun s => Serializer.one_line s = true) l2 ->
    l1 <> [] -> l2 <> [] ->
    join [NL] l1 = join [NL] l2 -> l1 = l2.
Proof.
  induction l1 as [|a l1 IH]; intros l2 F1 F2 N1 N2 E; [congruence|].
  destruct l2 as [|b l2]; [congruence|].
  inversion F1 as [|? ? Ha F1']; inversion F2 as [|? ? Hb F2']; subst.
  apply one_line_forall in Ha, Hb.
  destruct l1 as [|a' l1], l2 as [|b' l2].
  - simpl in E. now subst.
  - exfalso. cbn [join] in E. rewrite E in Ha.
    apply Forall_app in Ha. destruct Ha as [_ Ha]. inversion Ha. discriminate.
  - exfalso. cbn [join] in E. rewrite <- E in Hb.
    apply Forall_app in Hb. destruct Hb as [_ Hb]. inversion Hb. discriminate.
  - change (join [NL] (a :: a' :: l1)) with (a ++ NL :: join [NL] (a' :: l1)) in E.
    change (join [NL] (b :: b' :: l2)) with (b ++ NL :: join [NL] (b' :: l2)) in E.
    apply (run_unique (fun k => negb (N.eqb NL k))) in E;
      try assumption; try reflexivity.
    destruct E as [-> E]. injection E as E.
    f_equal. apply IH; auto; discriminate.
Qed.

Lemma cons_eq_inv {A} (a b : A) (x y : list A) :
  a :: x = b :: y -> a = b /\ x = y.
Proof. intros H. injection H. auto. Qed.

Ltac split_cons H H1 :=
  apply cons_eq_inv in H; destruct H as [H1 H].

Lemma tag_lines_inj (t1 : list str) :
  forall t2 rest1 rest2,
    map Serializer.tag_line t1 ++ lit "  events:" :: rest1
    = map Serializer.tag_line t2 ++ lit "  events:" :: rest2 ->
    t1 = t2 /\ rest1 = rest2.
Proof.
  induction t1 as [|a t1 IH]; intros [|b t2] rest1 rest2 E; cbn [map app] in E;
    split_cons E E1.
  - auto.
  - cbv in E1. discriminate.
  - cbv in E1. discriminate.
  - unfold Serializer.tag_line in E1. apply app_inv_head in E1. subst.
    destruct (IH _ _ _ E) as [-> ->]. auto.
Qed.

Lemma timeline_lines_inj (l1 : list Serializer.timeline_entry) :
  forall l2 z1 z2 rest1 rest2,
    flat_map Serializer.timeline_lines l1
      ++ (lit "      timezone: " ++ z1) :: rest1
    = flat_map Serializer.timeline_lines l2
      ++ (lit "      timezone: " ++ z2) :: rest2 ->
    l1 = l2 /\ z1 = z2 /\ rest1 = rest2.
Proof.
  induction l1 as [|[d1 c1] l1 IH]; intros [|[d2 c2] l2] z1 z2 rest1 rest2 E;
    cbn [flat_map Serializer.timeline_lines Serializer.deadline
           Serializer.comment app] in E;
    split_cons E E1.
  - apply app_inv_head in E1. auto.
  - exfalso. cbv in E1. discriminate.
  - exfalso. cbv in E1. discriminate.
  - split_cons E E2.
    apply app_inv_head in E1, E2. apply app_inv_tail in E1, E2.
    simpl in E1, E2. subst.
    destruct (IH _ _ _ _ _ E) as [-> [-> ->]]. auto.
Qed.

Lemma event_lines_eq (e : Serializer.event) (rest : list str) :
  Serializer.event_lines e ++ rest
  = (lit "    - year: " ++ str_of_Z (Serializer.year e))
    :: (lit "      id: " ++ Serializer.id e)
    :: (lit "      link: " ++ Serializer.link e)
    :: lit "      timeline:"
    :: (flat_map Serializer.timeline_lines (Serializer.timeline e)
        ++ (lit "      timezone: " ++ Serializer.timezone e)
        :: (lit "      date: " ++ Serializer.date e)
        :: (lit "      place: " ++ Serializer.place e)
        :: rest).
Proof. unfold Serializer.event_lines. rewrite <- !app_assoc. reflexivity. Qed.

Lemma event_lines_inj (es1 : list Serializer.event) :
  forall es2,
    flat_map Serializer.event_lines es1 = flat_map Serializer.event_lines es2 ->
    es1 = es2.
Proof.
  induction es1 as [|e1 es1 IH]; intros [|e2 es2] E.
  - reflexivity.
  - exfalso. change (flat_map Serializer.event_lines (e2 :: es2))
      with (Serializer.event_lines e2 ++ flat_map Serializer.event_lines es2) in E.
    rewrite event_lines_eq in E. discriminate.
  - exfalso. change (flat_map Serializer.event_lines (e1 :: es1))
      with (Serializer.event_lines e1 ++ flat_map Serializer.event_lines es1) in E.
    rewrite event_lines_eq in E. discriminate.
  - change (flat_map Serializer.event_lines (e1 :: es1))
      with (Serializer.event_lines e1 ++ flat_map Serializer.event_lines es1) in E.
    change (flat_map Serializer.event_lines (e2 :: es2))
      with (Serializer.event_lines e2 ++ flat_map Serializer.event_lines es2) in E.
    rewrite !event_lines_eq in E.
    split_cons E Ey. split_cons E Ei. split_cons E Ek. split_cons E Et.
    apply app_inv_head in Ey, Ei, Ek. apply str_of_Z_inj in Ey.
    apply timeline_lines_inj in E. destruct E as [El [Ez E]].
    split_cons E Ed. split_cons E Ep. apply app_inv_head in Ed, Ep.
    apply IH in E. subst es2.
    destruct e1, e2. simpl in *. now subst.
Qed.

Lemma one_line_prefixed (p s : str) :
  Serializer.one_line p = true -> Serializer.one_line s = true ->
  Serializer.one_line (p ++ s) = true.
Proof. intros Hp Hs. now rewrite one_line_app, Hp, Hs. Qed.

Lemma timeline_lines_one_line (l : list Serializer.timeline_entry) :
  forallb Serializer.entry_one_line l = true ->
  Forall (fun s => Serializer.one_line s = true)
         (flat_map Serializer.timeline_lines l).
Proof.
  induction l as [|t l IH]; [constructor|].
  intros H. cbn [forallb] in H. apply andb_true_iff in H. destruct H as [Ht Hl].
  apply andb_true_iff in Ht. destruct Ht as [Hd Hc].
  change (flat_map Serializer.timeline_lines (t :: l))
    with (Serializer.timeline_lines t ++ flat_map Serializer.timeline_lines l).
  unfold Serializer.timeline_lines at 1. cbn [app].
  constructor; [rewrite !one_line_app, Hd; reflexivity|].
  constructor; [rewrite !one_line_app, Hc; reflexivity|].
  now apply IH.
Qed.

Lemma event_lines_one_line (es : list Serializer.event) :
  forallb Serializer.event_one_line es = true ->
  Forall (fun s => Serializer.one_line s = true)
         (flat_map Serializer.event_lines es).
Proof.
  induction es as [|e es IH]; [constructor|].
  intros H. cbn [forallb] in H. apply andb_true_iff in H. destruct H as [He Hes].
  unfold Serializer.event_one_line in He.
  repeat (apply andb_true_iff in He; destruct He as [He ?]).
  change (flat_map Serializer.event_lines (e :: es))
    with (Serializer.event_lines e ++ flat_map Serializer.event_lines es).
  rewrite event_lines_eq.
  repeat (constructor; [apply one_line_prefixed; auto using one_line_Z|]).
  constructor; [reflexivity|].
  apply Forall_app. split; [now apply timeline_lines_one_line|].
  repeat (constructor; [apply one_line_prefixed; auto|]).
  now apply IH.
Qed.

Lemma yaml_lines_one_line (r : Serializer.record) :
  Serializer.record_one_line r = true ->
  Forall (fun s => Serializer.one_line s = true) (Serializer.yaml_lines r).
Proof.
  unfold Serializer.record_one_line. intros H.
  repeat (apply andb_true_iff in H; destruct H as [H ?]).
  unfold Serializer.yaml_lines.
  repeat (constructor; [apply one_line_prefixed; auto|]).
  constructor; [reflexivity|].
  apply Forall_app. split.
  - apply Forall_forall. intros x Hx. apply in_map_iff in Hx.
    destruct Hx as [t [<- Ht]]. apply one_line_prefixed; [reflexivity|].
    eapply forallb_forall; eassumption.
  - constructor; [reflexivity|]. now apply event_lines_one_line.
Qed.

Lemma yaml_lines_inj (r1 r2 : Serializer.record) :
  Serializer.yaml_lines r1 = Serializer.yaml_lines r2 -> r1 = r2.
Proof.
  unfold Serializer.yaml_lines. intros E. cbn [app] in E.
  split_cons E Et. split_cons E Ed. split_cons E Ec. split_cons E Eg.
  apply app_inv_head in Et, Ed, Ec.
  apply tag_lines_inj in E. destruct E as [Etags E].
  apply event_lines_inj in E.
  destruct r1, r2. simpl in *. now subst.
Qed.

(** C4, as amended: on records no string of which holds a line feed, the
    text block determines the record.  Two such records with the same
    serialization are the same record: same title, description and
    category, same tags in the same order, and event by event the same
    year, id, link, timezone, date, place and timeline pairs. *)
Theorem to_yaml_injective (r1 r2 : Serializer.record) :
  Serializer.record_one_line r1 = true ->
  Serializer.record_one_line r2 = true ->
  Serializer.to_yaml r1 = Serializer.to_yaml r2 ->
  r1 = r2.
Proof.
  intros H1 H2 E. apply yaml_lines_inj.
  unfold Serializer.to_yaml in E.
  apply join_lines_inj in E; auto using yaml_lines_one_line;
    unfold Serializer.yaml_lines; discriminate.
Qed.

Lemma to_yaml_injective_witness :
  Samples.summer_typed (lit "Open Source Summer") (lit "A summer of code")
  = Samples.summer_typed (lit "Open Source Summer") (lit "A summer of code").
Proof.
  apply (to_yaml_injective
           (Samples.summer_typed (lit "Open Source Summer")
              (lit "A summer of code"))
           (Samples.summer_typed (lit "Open Source Summer")
              (lit "A summer of code"))).
  - reflexivity.
  - reflexivity.
  - reflexivity.
Defined.

(** C4 as stated fails: these two records pass validation, have different
    titles, and are serialized to the same text block, so that no
    re-parsing of the block can yield back the title of both. *)
Lemma to_yaml_counterexample :
  validate_extracted_data (Serializer.record_value Samples.split_title) []
  = Ret {| valid := true; errors := None; warnings := None |} /\
  validate_extracted_data (Serializer.record_value Samples.split_description) []
  = Ret {| valid := true; errors := None; warnings := None |} /\
  Serializer.to_yaml Samples.split_title
  = Serializer.to_yaml Samples.split_description /\
  Serializer.title Samples.split_title
  <> Serializer.title Samples.split_description.
Proof. repeat split; try reflexivity. discriminate. Qed.

(** No reader of the text block recovers the title of every valid record. *)
Lemma no_reader_recovers_titles :
  ~ exists reader : str -> str,
      forall r,
        validate_extracted_data (Serializer.record_value r) []
        = Ret {| valid := true; errors := None; warnings := None |} ->
        reader (Serializer.to_yaml r) = Serializer.title r.
Proof.
  intros [reader H].
  assert (A : reader (Serializer.to_yaml Samples.split_title)
              = Serializer.title Samples.split_title)
    by (apply H; reflexivity).
  assert (B : reader (Serializer.to_yaml Samples.split_description)
              = Serializer.title Samples.split_description)
    by (apply H; reflexivity).
  replace (Serializer.to_yaml Samples.split_description)
    with (Serializer.to_yaml Samples.split_title) in B by reflexivity.
  rewrite A in B. discriminate.
Qed.

(** The end-to-end scenario: the record is valid and its block begins with
    the title line. *)
Lemma summer_serialized :
  let r := Samples.summer_typed (lit "Open Source Summer")
             (lit "A summer of code") in
  validate_extracted_data (Serializer.record_value r) []
  = Ret {| valid := true; errors := None; warnings := None |} /\
  startswith (lit "- title: Open Source Summer") (Serializer.to_yaml r) = true.
Proof. split; reflexivity. Qed.

(** ** The content normalizer *)

(** *** The scan of [re.sub] *)

Lemma sub_from_skip (m : matcher) (repl : str) (s : str) :
  forall k, sub_from m repl k s = sub_from m repl 0 (skipn k s).
Proof.
  induction s as [|c s IH]; intros [|k]; try reflexivity.
  simpl skipn. cbn [sub_from]. apply IH.
Qed.

Lemma re_sub_match (m : matcher) (repl : str) (c : char) (s : str) (n : nat) :
  m (c :: s) = Some (S n) ->
  sub_from m repl 0 (c :: s) = repl ++ sub_from m repl 0 (skipn n s).
Proof. intros H. cbn [sub_from]. rewrite H. now rewrite sub_from_skip. Qed.

Lemma re_sub_copy (m : matcher) (repl : str) (c : char) (s : str) :
  m (c :: s) = None ->
  sub_from m repl 0 (c :: s) = c :: sub_from m repl 0 s.
Proof. intros H. cbn [sub_from]. now rewrite H. Qed.

(** The output holds characters of the input and of the replacement only. *)
Lemma sub_from_in (m : matcher) (repl : str) (x : char) (s : str) :
  forall k, In x (sub_from m repl k s) -> In x s \/ In x repl.
Proof.
  induction s as [|c s IH]; intros k H; [destruct H|].
  destruct k as [|k]; cbn [sub_from] in H.
  - destruct (m (c :: s)) as [[|n]|].
    + destruct H as [->|H]; [left; now left|].
      apply IH in H. destruct H; [left; now right | now right].
    + apply in_app_or in H. destruct H as [H|H]; [now right|].
      apply IH in H. destruct H; [left; now right | now right].
    + destruct H as [->|H]; [left; now left|].
      apply IH in H. destruct H; [left; now right | now right].
  - apply IH in H. destruct H; [left; now right | now right].
Qed.

Lemma skipn_length_le {A} (n : nat) (l : list A) : length (skipn n l) <= length l.
Proof. rewrite length_skipn. lia. Qed.

(** *** Runs of spaces *)

Lemma span_all (p : char -> bool) (s : str) :
  skipn (span p s) s = [] \/
  exists d rest, skipn (span p s) s = d :: rest /\ p d = false.
Proof.
  induction s as [|c s IH]; simpl; [now left|].
  destruct (p c) eqn:E; simpl; [exact IH|].
  right. exists c, s. auto.
Qed.

Lemma m_spaces_none (c : char) (s : str) :
  is_space c = false -> m_spaces (c :: s) = None.
Proof. intros H. unfold m_spaces. simpl. now rewrite H. Qed.

Lemma m_spaces_some (c : char) (s : str) :
  is_space c = true -> m_spaces (c :: s) = Some (S (span is_space s)).
Proof. intros H. unfold m_spaces. simpl. now rewrite H. Qed.

Lemma collapse_head (c : char) (s : str) :
  is_space c = false ->
  collapse_spaces (c :: s) = c :: collapse_spaces s.
Proof.
  intros H. unfold collapse_spaces, re_sub.
  apply re_sub_copy. now apply m_spaces_none.
Qed.

Lemma collapse_run (c : char) (s : str) :
  is_space c = true ->
  collapse_spaces (c :: s)
  = SPACE :: collapse_spaces (skipn (span is_space s) s).
Proof.
  intros H. unfold collapse_spaces, re_sub.
  rewrite (re_sub_match _ _ _ _ _ (m_spaces_some c s H)). reflexivity.
Qed.

Lemma collapse_collapsed_bounded (n : nat) :
  forall s, length s <= n -> collapsed (collapse_spaces s) = true.
Proof.
  induction n as [|n IH]; intros s L.
  - destruct s; [reflexivity | simpl in L; lia].
  - destruct s as [|c s]; [reflexivity|]. simpl in L.
    destruct (is_space c) eqn:E.
    + rewrite collapse_run by exact E.
      assert (R : collapsed (collapse_spaces (skipn (span is_space s) s)) = true).
      { apply IH. pose proof (skipn_length_le (span is_space s) s). lia. }
      cbn [collapsed]. rewrite R.
      replace (is_space SPACE) with true by reflexivity.
      rewrite N.eqb_refl. cbn [andb]. rewrite andb_true_r.
      destruct (span_all is_space s) as [Z|[d [rest [Z Hd]]]]; rewrite Z.
      * reflexivity.
      * rewrite collapse_head by exact Hd. now rewrite Hd.
    + rewrite collapse_head by exact E. cbn [collapsed]. rewrite E.
      apply IH. lia.
Qed.

Lemma collapse_collapsed (s : str) : collapsed (collapse_spaces s) = true.
Proof. apply (collapse_collapsed_bounded (length s)). lia. Qed.

(** *** [strip] *)

Lemma lstrip_suffix (s : str) : exists a, s = a ++ lstrip s.
Proof.
  induction s as [|c s [a IH]]; [now exists []|]. simpl.
  destruct (is_space c); [|now exists []].
  exists (c :: a). simpl. now f_equal.
Qed.

Lemma lstrip_head (s : str) (c : char) (rest : str) :
  lstrip s = c :: rest -> is_space c = false.
Proof.
  induction s as [|d s IH]; simpl; [discriminate|].
  destruct (is_space d) eqn:E; [exact IH|].
  intros H. injection H as <- _. exact E.
Qed.

Lemma lstrip_keeps_last (s : str) (c : char) :
  is_space c = false -> exists front, lstrip (s ++ [c]) = front ++ [c].
Proof.
  intros H. induction s as [|d s [front IH]]; simpl.
  - rewrite H. now exists [].
  - destruct (is_space d); [now exists front|].
    exists (d :: s). reflexivity.
Qed.

(** [strip] keeps a stretch of the text, with no space at either end. *)
Lemma strip_infix (s : str) : exists a b, s = a ++ strip s ++ b.
Proof.
  unfold strip. destruct (lstrip_suffix s) as [a Ha].
  destruct (lstrip_suffix (List.rev (lstrip s))) as [b Hb].
  exists a, (List.rev b).
  rewrite <- rev_app_distr, <- Hb, rev_involutive. exact Ha.
Qed.

Lemma strip_first (s : str) (c : char) (rest : str) :
  strip s = c :: rest -> is_space c = false.
Proof.
  unfold strip. intros H.
  destruct (lstrip s) as [|d t] eqn:L.
  - simpl in H. discriminate.
  - pose proof (lstrip_head _ _ _ L) as Hd.
    cbn [List.rev] in H.
    destruct (lstrip_keeps_last (List.rev t) d Hd) as [front F].
    rewrite F, rev_app_distr in H. simpl in H. injection H as <- _. exact Hd.
Qed.

Lemma strip_last (s : str) (c : char) (front : str) :
  strip s = front ++ [c] -> is_space c = false.
Proof.
  unfold strip. intros H.
  apply (f_equal (@List.rev char)) in H.
  rewrite rev_involutive, rev_app_distr in H. simpl in H.
  eapply lstrip_head. exact H.
Qed.

(** *** The two normal forms survive the later passes *)

Lemma collapsed_suffix (a s : str) : collapsed (a ++ s) = true -> collapsed s = true.
Proof.
  induction a as [|c a IH]; simpl; [auto|].
  intros H. apply andb_true_iff in H. apply IH. tauto.
Qed.

Lemma collapsed_prefix (s b : str) : collapsed (s ++ b) = true -> collapsed s = true.
Proof.
  induction s as [|c s IH]; [reflexivity|]. cbn [app collapsed].
  intros H. apply andb_true_iff in H. destruct H as [H1 H2].
  rewrite (IH H2), andb_true_r.
  destruct (is_space c); [|reflexivity].
  apply andb_true_iff in H1. destruct H1 as [H1 H3]. rewrite H1.
  destruct s; [reflexivity | exact H3].
Qed.

Lemma tagless_suffix (a s : str) : tagless (a ++ s) = true -> tagless s = true.
Proof.
  induction a as [|c a IH]; simpl; [auto|].
  intros H. apply andb_true_iff in H. apply IH. tauto.
Qed.

Lemma tagless_prefix (s b : str) : tagless (s ++ b) = true -> tagless s = true.
Proof.
  induction s as [|c s IH]; [reflexivity|]. cbn [app tagless].
  intros H. apply andb_true_iff in H. destruct H as [H1 H2].
  rewrite (IH H2), andb_true_r.
  destruct (c =? LT)%N; [|reflexivity].
  apply orb_true_iff in H1. apply orb_true_iff.
  destruct H1 as [H1|H1].
  - left. destruct s; [reflexivity | exact H1].
  - right. rewrite existsb_app, negb_orb in H1.
    apply andb_true_iff in H1. tauto.
Qed.

Lemma collapsed_strip (s : str) : collapsed s = true -> collapsed (strip s) = true.
Proof.
  intros H. destruct (strip_infix s) as [a [b E]]. rewrite E in H.
  apply collapsed_suffix in H. now apply collapsed_prefix in H.
Qed.

Lemma tagless_strip (s : str) : tagless s = true -> tagless (strip s) = true.
Proof.
  intros H. destruct (strip_infix s) as [a [b E]]. rewrite E in H.
  apply tagless_suffix in H. now apply tagless_prefix in H.
Qed.

(** What the normal forms say, spelled out. *)
Lemma collapsed_spec (s a b : str) (x : char) :
  collapsed s = true -> s = a ++ x :: b -> is_space x = true ->
  x = SPACE /\ forall y b', b = y :: b' -> is_space y = false.
Proof.
  intros H -> Hx. apply collapsed_suffix in H. cbn [collapsed] in H.
  rewrite Hx in H. apply andb_true_iff in H. destruct H as [H _].
  apply andb_true_iff in H. destruct H as [H1 H2].
  apply N.eqb_eq in H1. split; [exact H1|].
  intros y b' ->. now apply negb_true_iff in H2.
Qed.

Lemma tagless_spec (s a tag b : str) :
  tagless s = true -> s = a ++ LT :: tag ++ GT :: b ->
  tag = [] \/ In GT tag.
Proof.
  intros H ->. apply tagless_suffix in H. cbn [tagless] in H.
  rewrite N.eqb_refl in H. apply andb_true_iff in H. destruct H as [H _].
  destruct tag as [|d tag]; [now left|]. right.
  apply orb_true_iff in H. destruct H as [H|H].
  - simpl in H. apply N.eqb_eq in H. subst. now left.
  - exfalso. apply negb_true_iff in H.
    assert (X : existsb (N.eqb GT) ((d :: tag) ++ GT :: b) = true).
    { apply existsb_exists. exists GT. split; [|apply N.eqb_refl].
      apply in_or_app. right. now left. }
    congruence.
Qed.

(** *** The tag pattern *)

Lemma span_covers (p : char -> bool) (s : str) :
  skipn (span p s) s = [] -> forallb p s = true.
Proof.
  induction s as [|c s IH]; simpl; [reflexivity|].
  destruct (p c); simpl; [exact IH | discriminate].
Qed.

Lemma m_tag_other (c : char) (s : str) : c <> LT -> m_tag (c :: s) = None.
Proof.
  intros H. unfold m_tag. apply N.eqb_neq in H. now rewrite H.
Qed.

Lemma m_tag_positive (s : str) : m_tag s <> Some 0.
Proof.
  unfold m_tag. destruct s as [|c s]; [discriminate|].
  destruct (c =? LT)%N; [|discriminate].
  destruct (span (fun x => negb (x =? GT)%N) s) as [|n]; [discriminate|].
  destruct (skipn (S n) s) as [|g rest]; [discriminate|].
  destruct (g =? GT)%N; [|discriminate].
  rewrite Nat.add_comm. discriminate.
Qed.

(** Where the tag pattern fails on a [<], the next character is [>] or no
    [>] follows at all. *)
Lemma m_tag_none (s : str) :
  m_tag (LT :: s) = None ->
  match s with [] => true | d :: _ => (d =? GT)%N end = true \/
  existsb (N.eqb GT) s = false.
Proof.
  unfold m_tag. rewrite N.eqb_refl.
  destruct (span (fun x => negb (x =? GT)%N) s) as [|n] eqn:Sp.
  - intros _. left. destruct s as [|d s]; [reflexivity|].
    simpl in Sp. destruct (d =? GT)%N; [reflexivity | discriminate].
  - pose proof (span_all (fun x => negb (x =? GT)%N) s) as A.
    pose proof (span_covers (fun x => negb (x =? GT)%N) s) as C.
    rewrite Sp in A, C.
    destruct (skipn (S n) s) as [|g rest].
    + intros _. right. specialize (C eq_refl).
      destruct (existsb (N.eqb GT) s) eqn:E; [|reflexivity].
      apply existsb_exists in E. destruct E as [x [Hx E]].
      apply N.eqb_eq in E. subst x.
      rewrite forallb_forall in C. specialize (C GT Hx).
      rewrite N.eqb_refl in C. discriminate.
    + destruct A as [A|[d [r [A Hd]]]]; [discriminate|].
      injection A as <- <-. apply negb_false_iff in Hd. rewrite Hd.
      discriminate.
Qed.

Lemma no_gt_after_sub (m : matcher) (s : str) (k : nat) :
  existsb (N.eqb GT) s = false ->
  existsb (N.eqb GT) (sub_from m [SPACE] k s) = false.
Proof.
  intros H. destruct (existsb (N.eqb GT) (sub_from m [SPACE] k s)) eqn:E;
    [|reflexivity].
  apply existsb_exists in E. destruct E as [x [Hx E]].
  apply N.eqb_eq in E. subst x.
  apply sub_from_in in Hx. destruct Hx as [Hx|[Hx|[]]]; [|discriminate].
  assert (existsb (N.eqb GT) s = true); [|congruence].
  apply existsb_exists. exists GT. split; [exact Hx | apply N.eqb_refl].
Qed.

Lemma replace_tags_tagless_bounded (n : nat) :
  forall s, length s <= n -> tagless (replace_tags s) = true.
Proof.
  unfold replace_tags, re_sub.
  induction n as [|n IH]; intros s L.
  - destruct s; [reflexivity | simpl in L; lia].
  - destruct s as [|c s]; [reflexivity|]. simpl in L.
    destruct (m_tag (c :: s)) as [[|k]|] eqn:M.
    + now apply m_tag_positive in M.
    + rewrite (re_sub_match _ _ _ _ _ M). cbn [app tagless].
      replace (SPACE =? LT)%N with false by reflexivity.
      apply IH. pose proof (skipn_length_le k s). lia.
    + rewrite (re_sub_copy _ _ _ _ M). cbn [tagless].
      rewrite (IH s) by lia. rewrite andb_true_r.
      destruct (N.eqb_spec c LT) as [->|Hc]; [|reflexivity].
      apply m_tag_none in M. apply orb_true_iff. destruct M as [M|M].
      * left. destruct s as [|d s]; [reflexivity|].
        apply N.eqb_eq in M. subst d.
        rewrite re_sub_copy by (apply m_tag_other; discriminate).
        reflexivity.
      * right. now rewrite no_gt_after_sub.
Qed.

Lemma replace_tags_tagless (s : str) : tagless (replace_tags s) = true.
Proof. apply (replace_tags_tagless_bounded (length s)). lia. Qed.

Lemma collapse_tagless_bounded (n : nat) :
  forall s, length s <= n -> tagless s = true ->
            tagless (collapse_spaces s) = true.
Proof.
  induction n as [|n IH]; intros s L T.
  - destruct s; [reflexivity | simpl in L; lia].
  - destruct s as [|c s]; [reflexivity|]. simpl in L.
    assert (Ts : tagless s = true) by (apply (tagless_suffix [c]); exact T).
    destruct (is_space c) eqn:E.
    + rewrite collapse_run by exact E. cbn [tagless].
      replace (SPACE =? LT)%N with false by reflexivity.
      apply IH; [pose proof (skipn_length_le (span is_space s) s); lia|].
      apply (tagless_suffix (firstn (span is_space s) s)).
      now rewrite firstn_skipn.
    + rewrite collapse_head by exact E. cbn [tagless].
      rewrite (IH s) by (auto; lia). rewrite andb_true_r.
      cbn [tagless] in T. apply andb_true_iff in T. destruct T as [T _].
      destruct (c =? LT)%N; [|reflexivity].
      apply orb_true_iff in T. apply orb_true_iff. destruct T as [T|T].
      * left. destruct s as [|d s]; [reflexivity|].
        apply N.eqb_eq in T. subst d.
        rewrite collapse_head by reflexivity. reflexivity.
      * right. apply negb_true_iff in T. apply negb_true_iff.
        unfold collapse_spaces, re_sub. now apply no_gt_after_sub.
Qed.

(** After the four passes, the text is in both normal forms. *)
Lemma normalize_web_forms (U : tables) (html : str) :
  collapsed (normalize_web U html) = true /\
  tagless (normalize_web U html) = true.
Proof.
  unfold normalize_web. split.
  - apply collapsed_strip, collapse_collapsed.
  - apply tagless_strip.
    apply (collapse_tagless_bounded (length (replace_tags
             (remove_styles U (remove_scripts U html))))); [lia|].
    apply replace_tags_tagless.
Qed.

(** *** Matching a literal, letter case aside *)

Lemma ci_eq_symbol (p x : char) :
  is_lower p = false -> p <> 115%N -> p <> 105%N -> p <> 107%N ->
  ci_eq p x = (x =? p)%N.
Proof.
  intros L A B C. unfold ci_eq. rewrite L.
  apply N.eqb_neq in A, B, C. rewrite A, B, C. simpl.
  now rewrite !orb_false_r.
Qed.

(** A lower-case letter of the pattern matches neither [<] nor [/]. *)
Lemma ci_eq_letter (p x : char) :
  is_lower p = true -> (x < 65)%N -> ci_eq p x = false.
Proof.
  unfold ci_eq, is_lower. intros L H.
  apply andb_true_iff in L. destruct L as [L1 L2].
  apply N.leb_le in L1, L2.
  assert (E1 : (x =? p)%N = false) by (apply N.eqb_neq; lia).
  assert (E2 : (x =? p - 32)%N = false) by (apply N.eqb_neq; lia).
  assert (E3 : (x =? 383)%N = false) by (apply N.eqb_neq; lia).
  assert (E4 : (x =? 304)%N = false) by (apply N.eqb_neq; lia).
  assert (E5 : (x =? 305)%N = false) by (apply N.eqb_neq; lia).
  assert (E6 : (x =? 8490)%N = false) by (apply N.eqb_neq; lia).
  rewrite E1, E2, E3, E4, E5, E6. now rewrite !andb_false_r.
Qed.

Lemma starts_ci_app_long (pat : str) :
  forall s z, length pat <= length s ->
              starts_ci pat (s ++ z) = starts_ci pat s.
Proof.
  induction pat as [|p pat IH]; intros [|c s] z L; simpl in *;
    try reflexivity; try lia.
  rewrite IH by lia. reflexivity.
Qed.

Lemma starts_ci_length (pat : str) :
  forall s, starts_ci pat s = true -> length pat <= length s.
Proof.
  induction pat as [|p pat IH]; intros [|c s] H; simpl in *;
    try lia; try discriminate.
  apply andb_true_iff in H. destruct H as [_ H]. apply IH in H. lia.
Qed.

Lemma starts_ci_short (pat s : str) :
  length s < length pat -> starts_ci pat s = false.
Proof.
  intros L. destruct (starts_ci pat s) eqn:E; [|reflexivity].
  apply starts_ci_length in E. lia.
Qed.

Lemma starts_ci_app_true (pat s z : str) :
  starts_ci pat s = true -> starts_ci pat (s ++ z) = true.
Proof.
  intros H. rewrite starts_ci_app_long; [exact H|].
  now apply starts_ci_length.
Qed.

(** A pattern none of whose characters matches [<] does not match across
    a [<] of the text. *)
Lemma starts_ci_blocked (pat : str) :
  forall s x,
    forallb (fun p => negb (ci_eq p LT)) pat = true ->
    length s < length pat ->
    starts_ci pat (s ++ LT :: x) = false.
Proof.
  induction pat as [|p pat IH]; intros [|c s] x F L; simpl in *; try lia;
    apply andb_true_iff in F; destruct F as [F1 F2].
  - apply negb_true_iff in F1. now rewrite F1.
  - rewrite IH by (auto; lia). apply andb_false_r.
Qed.

Section Bracketed.

(** A pattern that starts with [<] and has no further character matching
    [<], as the opening and the closing literals of a block are. *)
Variable tail : str.
Hypothesis tail_plain : forallb (fun p => negb (ci_eq p LT)) tail = true.

Lemma starts_ci_straddle (c : char) (s x : str) :
  length (c :: s) < length (LT :: tail) ->
  starts_ci (LT :: tail) ((c :: s) ++ LT :: x) = false.
Proof.
  intros L. simpl in *. rewrite (starts_ci_blocked tail s x tail_plain) by lia.
  apply andb_false_r.
Qed.

Lemma starts_ci_before (r x : str) :
  r <> [] ->
  starts_ci (LT :: tail) (r ++ LT :: x) = starts_ci (LT :: tail) r.
Proof.
  intros N. destruct r as [|c s]; [congruence|].
  destruct (Nat.lt_ge_cases (length (c :: s)) (length (LT :: tail))) as [L|L].
  - rewrite starts_ci_straddle by exact L. symmetry. now apply starts_ci_short.
  - now apply starts_ci_app_long.
Qed.

Lemma close_at_bound (r : str) :
  forall p, close_at (LT :: tail) r = Some p ->
            p + length (LT :: tail) <= length r.
Proof.
  induction r as [|c r IH]; intros p H; [discriminate|].
  cbn [close_at] in H.
  destruct ((c =? LT)%N && starts_ci (LT :: tail) (c :: r)) eqn:T.
  - injection H as <-. apply andb_true_iff in T. destruct T as [_ T].
    apply starts_ci_length in T. lia.
  - destruct (close_at (LT :: tail) r) as [q|]; [|discriminate].
    injection H as <-. specialize (IH q eq_refl). simpl in *. lia.
Qed.

(** The first closing tag of [r ++ <...] is the first one of [r], or else
    the first one of what follows [r]. *)
Lemma close_at_app (r x : str) :
  close_at (LT :: tail) (r ++ LT :: x)
  = match close_at (LT :: tail) r with
    | Some p => Some p
    | None => option_map (Nat.add (length r)) (close_at (LT :: tail) (LT :: x))
    end.
Proof.
  induction r as [|c r IH].
  - change (close_at (LT :: tail) []) with (@None nat).
    change ([] ++ LT :: x) with (LT :: x).
    destruct (close_at (LT :: tail) (LT :: x)); reflexivity.
  - remember (close_at (LT :: tail) (LT :: x)) as q eqn:Hq.
    change ((c :: r) ++ LT :: x) with (c :: (r ++ LT :: x)).
    cbn [close_at].
    change (c :: (r ++ LT :: x)) with ((c :: r) ++ LT :: x).
    rewrite starts_ci_before by discriminate.
    destruct ((c =? LT)%N && starts_ci (LT :: tail) (c :: r)); [reflexivity|].
    rewrite IH. destruct (close_at (LT :: tail) r) as [p|]; [reflexivity|].
    destruct q; reflexivity.
Qed.

(** A closing tag found in a text is found at the same place when the text
    goes on. *)
Lemma close_at_found (a z : str) :
  forall p, close_at (LT :: tail) a = Some p ->
            close_at (LT :: tail) (a ++ z) = Some p.
Proof.
  induction a as [|c a IH]; intros p H; [discriminate|].
  pose proof (close_at_bound _ _ H) as B.
  change ((c :: a) ++ z) with (c :: (a ++ z)).
  cbn [close_at] in *.
  change (c :: (a ++ z)) with ((c :: a) ++ z).
  rewrite starts_ci_app_long by lia.
  destruct ((c =? LT)%N && starts_ci (LT :: tail) (c :: a)); [exact H|].
  destruct (close_at (LT :: tail) a) as [q|]; [|discriminate].
  now rewrite (IH q eq_refl).
Qed.

(** No closing tag begins in a stretch without [<]. *)
Lemma close_at_plain (h y : str) :
  ~ In LT h ->
  close_at (LT :: tail) (h ++ y)
  = option_map (Nat.add (length h)) (close_at (LT :: tail) y).
Proof.
  induction h as [|c h IH]; intros N.
  - simpl. destruct (close_at (LT :: tail) y); reflexivity.
  - change ((c :: h) ++ y) with (c :: (h ++ y)). cbn [close_at].
    destruct (N.eqb_spec c LT) as [->|Hc]; [exfalso; apply N; now left|].
    cbn [andb]. rewrite IH by (intros H; apply N; now right).
    destruct (close_at (LT :: tail) y); reflexivity.
Qed.

End Bracketed.

(** *** Blocks *)

Lemma boundary_app (U : tables) (c : char) (r z : str) :
  r <> [] -> boundary U c (r ++ z) = boundary U c r.
Proof. intros N. destruct r; [congruence | reflexivity]. Qed.

Lemma re_sub_match_skip (m : matcher) (repl s : str) (n : nat) :
  m s = Some (S n) -> s <> [] ->
  sub_from m repl 0 s = repl ++ sub_from m repl 0 (skipn (S n) s).
Proof.
  intros H N. destruct s as [|c s]; [congruence|].
  cbn [skipn]. now apply re_sub_match.
Qed.

Section Block.

Variable U : tables.
Variable name : str.
Hypothesis name_letters : forallb is_lower name = true.
Hypothesis name_nonempty : name <> [].

Lemma name_plain : forallb (fun p => negb (ci_eq p LT)) name = true.
Proof.
  apply forallb_forall. intros p Hp.
  rewrite forallb_forall in name_letters.
  rewrite ci_eq_letter; [reflexivity | now apply name_letters | reflexivity].
Qed.

Lemma close_plain :
  forallb (fun p => negb (ci_eq p LT)) (47%N :: name ++ [GT]) = true.
Proof.
  cbn [forallb]. rewrite forallb_app, name_plain. reflexivity.
Qed.

(** The characters that match the name are letters. *)
Lemma matched_name (pat : str) :
  forall h, forallb is_lower pat = true -> starts_ci pat h = true ->
            length h = length pat ->
            Forall (fun c => (65 <= c)%N) h.
Proof.
  induction pat as [|p pat IH]; intros [|c h] L S E; simpl in *;
    try discriminate; constructor.
  - apply andb_true_iff in L, S. destruct L as [L _], S as [S _].
    destruct (N.lt_ge_cases c 65) as [Hc|Hc]; [|exact Hc].
    rewrite (ci_eq_letter p c L Hc) in S. discriminate.
  - apply andb_true_iff in L, S. apply IH; try tauto. lia.
Qed.

Lemma head_shape (head : str) :
  starts_ci (open_tag name) head = true ->
  length head = length (open_tag name) ->
  exists y h, head = LT :: y :: h /\ y <> 47%N /\ ~ In LT (y :: h).
Proof.
  unfold open_tag. intros S E.
  destruct head as [|x0 h']; [discriminate|].
  cbn [starts_ci] in S. apply andb_true_iff in S. destruct S as [S0 S].
  rewrite ci_eq_symbol in S0 by (reflexivity || discriminate).
  apply N.eqb_eq in S0. subst x0.
  simpl in E. injection E as E.
  pose proof (matched_name name h' name_letters S E) as F.
  destruct h' as [|y h].
  - destruct name; [congruence | discriminate].
  - exists y, h. split; [reflexivity|].
    inversion F as [|? ? Hy _]; subst. split.
    + intros ->. lia.
    + intros I. rewrite Forall_forall in F. specialize (F LT I).
      unfold LT in F. lia.
Qed.

(** No closing tag begins inside the opening literal. *)
Lemma close_at_head (head y : str) :
  starts_ci (open_tag name) head = true ->
  length head = length (open_tag name) ->
  close_at (close_tag name) (head ++ y)
  = option_map (Nat.add (length head)) (close_at (close_tag name) y).
Proof.
  intros S E. destruct (head_shape head S E) as [c [h [-> [Hc N]]]].
  unfold close_tag.
  pose proof (close_at_plain (47%N :: name ++ [GT]) (c :: h) y N) as P.
  remember (close_at (LT :: 47%N :: name ++ [GT]) y) as q eqn:Hq.
  change ((LT :: c :: h) ++ y) with (LT :: (c :: h) ++ y).
  cbn [close_at].
  replace (starts_ci (LT :: 47%N :: name ++ [GT]) (LT :: (c :: h) ++ y))
    with false.
  - cbn [andb]. rewrite P. destruct q; reflexivity.
  - symmetry. change ((c :: h) ++ y) with (c :: (h ++ y)). cbn [starts_ci].
    rewrite (ci_eq_symbol 47%N c) by (reflexivity || discriminate).
    apply N.eqb_neq in Hc. rewrite Hc. now rewrite andb_false_r.
Qed.

(** Where a block stands, the pattern matches the whole block. *)
Lemma m_block_at_block (head inner tail post : str) :
  is_block U name head inner tail = true ->
  m_block U name (head ++ inner ++ tail ++ post)
  = Some (length (head ++ inner ++ tail)) /\
  close_at (close_tag name) (head ++ inner ++ tail ++ post)
  = Some (length head + length inner) /\
  length tail = length (close_tag name) /\
  exists x, head ++ inner ++ tail ++ post = LT :: x.
Proof.
  unfold is_block. intros H.
  repeat (apply andb_true_iff in H; destruct H as [H ?]).
  rename H into S. rename H0 into C. rename H1 into Lt. rename H2 into St.
  rename H3 into B. rename H4 into Lh.
  apply Nat.eqb_eq in Lh, Lt.
  destruct (close_at (close_tag name) (inner ++ tail)) as [p|] eqn:Cp;
    [|discriminate].
  apply Nat.eqb_eq in C. subst p.
  assert (Cl : close_at (close_tag name) (inner ++ tail ++ post)
               = Some (length inner)).
  { rewrite app_assoc.
    apply (close_at_found (47%N :: name ++ [GT])). exact Cp. }
  assert (Ne : inner ++ tail <> []).
  { intros Z. apply (f_equal (@length char)) in Z.
    rewrite length_app, Lt in Z. unfold close_tag in Z. simpl in Z. lia. }
  split; [|split; [|split]].
  - unfold m_block. rewrite <- Lh.
    rewrite starts_ci_app_true by exact S.
    replace (firstn (length head) (head ++ inner ++ tail ++ post)) with head
      by (rewrite firstn_app, Nat.sub_diag, firstn_all; simpl;
          now rewrite app_nil_r).
    replace (skipn (length head) (head ++ inner ++ tail ++ post))
      with (inner ++ tail ++ post)
      by (rewrite skipn_app, Nat.sub_diag, skipn_all; reflexivity).
    rewrite (app_assoc inner), boundary_app by exact Ne. rewrite B.
    rewrite <- app_assoc, Cl. rewrite !length_app, Lt. f_equal. lia.
  - rewrite close_at_head by assumption. rewrite Cl. reflexivity.
  - exact Lt.
  - destruct (head_shape head S Lh) as [c [h [-> _]]]. eexists. reflexivity.
Qed.

(** Before a [<], the pattern sees the text up to that [<] and the place
    of the first closing tag from there on, nothing else. *)
Lemma m_block_before (pre x x' : str) (q q' : nat) :
  pre <> [] ->
  close_at (close_tag name) (LT :: x) = Some q ->
  close_at (close_tag name) (LT :: x') = Some q' ->
  let m := m_block U name in
  let c := length (close_tag name) in
  (m (pre ++ LT :: x) = None /\ m (pre ++ LT :: x') = None) \/
  (exists n, S n <= length pre /\
             m (pre ++ LT :: x) = Some (S n) /\
             m (pre ++ LT :: x') = Some (S n)) \/
  (m (pre ++ LT :: x) = Some (length pre + q + c) /\
   m (pre ++ LT :: x') = Some (length pre + q' + c)).
Proof.
  intros N Q Q' m c. subst m c. unfold m_block.
  set (k := length (open_tag name)).
  unfold open_tag at 1 3.
  rewrite !(starts_ci_before name name_plain) by exact N.
  fold (open_tag name).
  destruct (starts_ci (open_tag name) pre) eqn:Sp; [|now left].
  assert (L : k <= length pre) by (now apply starts_ci_length).
  assert (F : forall z, firstn k (pre ++ z) = firstn k pre).
  { intros z. rewrite firstn_app.
    replace (k - length pre) with 0 by lia. simpl. apply app_nil_r. }
  assert (K : forall z, skipn k (pre ++ z) = skipn k pre ++ z).
  { intros z. rewrite skipn_app.
    replace (k - length pre) with 0 by lia. reflexivity. }
  rewrite !F, !K.
  assert (Bd : boundary U (last (firstn k pre) LT) (skipn k pre ++ LT :: x)
               = boundary U (last (firstn k pre) LT) (skipn k pre ++ LT :: x')).
  { destruct (skipn k pre); reflexivity. }
  rewrite Bd.
  destruct (boundary U (last (firstn k pre) LT) (skipn k pre ++ LT :: x'));
    [|now left].
  unfold close_tag at 1 3.
  rewrite !(close_at_app (47%N :: name ++ [GT]) close_plain).
  fold (close_tag name). rewrite Q, Q'.
  destruct (close_at (close_tag name) (skipn k pre)) as [p|] eqn:P.
  - right. left.
    pose proof (close_at_bound (47%N :: name ++ [GT]) _ _ P) as Bp.
    fold (close_tag name) in Bp. rewrite length_skipn in Bp.
    exists (k + p + length (close_tag name) - 1).
    assert (1 <= k) by (unfold k, open_tag; simpl; lia).
    replace (S (k + p + length (close_tag name) - 1))
      with (k + p + length (close_tag name)) by lia.
    repeat split; lia.
  - right. right. cbn [option_map]. rewrite length_skipn.
    split; f_equal; lia.
Qed.

(** The scan deletes a block as a whole: what it leaves of a text does not
    depend on which block stands at a given place. *)
Lemma remove_block_bounded (head inner tail head' inner' tail' post : str) :
  is_block U name head inner tail = true ->
  is_block U name head' inner' tail' = true ->
  forall n pre,
    length pre <= n ->
    re_sub (m_block U name) [] (pre ++ head ++ inner ++ tail ++ post)
    = re_sub (m_block U name) [] (pre ++ head' ++ inner' ++ tail' ++ post).
Proof.
  intros B B'. unfold re_sub.
  destruct (m_block_at_block head inner tail post B) as [M [C [Lt [x X]]]].
  destruct (m_block_at_block head' inner' tail' post B') as [M' [C' [Lt' [x' X']]]].
  assert (E : forall h i t, length (h ++ i ++ t) <> 0 ->
                skipn (length (h ++ i ++ t)) (h ++ i ++ t ++ post) = post).
  { intros h i t _.
    replace (h ++ i ++ t ++ post) with ((h ++ i ++ t) ++ post)
      by now rewrite <- !app_assoc.
    rewrite skipn_app, Nat.sub_diag, skipn_all. reflexivity. }
  assert (P : forall h i t y,
             h ++ i ++ t ++ post = LT :: y ->
             m_block U name (h ++ i ++ t ++ post) = Some (length (h ++ i ++ t)) ->
             sub_from (m_block U name) [] 0 (h ++ i ++ t ++ post)
             = sub_from (m_block U name) [] 0 post).
  { intros h i t y Y Mh.
    destruct (length (h ++ i ++ t)) as [|b] eqn:Lb.
    - destruct h; [|discriminate]. destruct i; [|discriminate].
      destruct t; [|discriminate]. reflexivity.
    - rewrite (re_sub_match_skip _ _ _ _ Mh) by (rewrite Y; discriminate).
      rewrite <- Lb, E by lia. reflexivity. }
  induction n as [|n IH]; intros pre L.
  - destruct pre; [|simpl in L; lia]. rewrite !app_nil_l.
    rewrite (P _ _ _ _ X M), (P _ _ _ _ X' M'). reflexivity.
  - destruct pre as [|c pre]; [apply (IH []); simpl; lia|].
    simpl in L.
    rewrite X, X' in *.
    destruct (m_block_before (c :: pre) x x' _ _ ltac:(discriminate) C C')
      as [[N1 N2]|[[k [Lk [S1 S2]]]|[S1 S2]]].
    + change ((c :: pre) ++ LT :: x) with (c :: (pre ++ LT :: x)) in *.
      change ((c :: pre) ++ LT :: x') with (c :: (pre ++ LT :: x')) in *.
      rewrite (re_sub_copy _ _ _ _ N1), (re_sub_copy _ _ _ _ N2).
      f_equal. apply IH. lia.
    + rewrite (re_sub_match_skip _ _ _ _ S1) by discriminate.
      rewrite (re_sub_match_skip _ _ _ _ S2) by discriminate.
      f_equal. rewrite !skipn_app.
      replace (S k - length (c :: pre)) with 0 by lia. cbn [skipn].
      apply IH.
      pose proof (skipn_length_le k pre). lia.
    + assert (Z : forall y (q : nat) (w : str),
                 length (c :: pre) + q + length (close_tag name)
                 = length (c :: pre) + length w ->
                 LT :: y = w ++ post ->
                 m_block U name ((c :: pre) ++ LT :: y)
                 = Some (length (c :: pre) + q + length (close_tag name)) ->
                 sub_from (m_block U name) [] 0 ((c :: pre) ++ LT :: y)
                 = sub_from (m_block U name) [] 0 post).
      { intros y q w Hl Hw Hm. rewrite Hl in Hm.
        change (length (c :: pre) + length w)
          with (S (length pre + length w)) in Hm.
        rewrite (re_sub_match_skip _ _ _ _ Hm) by discriminate.
        rewrite Hw, app_assoc, skipn_app.
        replace (S (length pre + length w) - length ((c :: pre) ++ w)) with 0
          by (rewrite length_app; simpl; lia).
        rewrite skipn_all2 by (rewrite length_app; simpl; lia).
        reflexivity. }
      rewrite (Z x (length head + length inner) (head ++ inner ++ tail));
        [|rewrite !length_app, Lt; lia
         |rewrite <- X; now rewrite <- !app_assoc
         |exact S1].
      rewrite (Z x' (length head' + length inner') (head' ++ inner' ++ tail'));
        [reflexivity
        |rewrite !length_app, Lt'; lia
        |rewrite <- X'; now rewrite <- !app_assoc
        |exact S2].
Qed.

End Block.

Lemma m_block_no_lt (U : tables) (name : str) (c : char) (s : str) :
  c <> LT -> m_block U name (c :: s) = None.
Proof.
  intros H. unfold m_block, open_tag. cbn [starts_ci].
  rewrite ci_eq_symbol by (reflexivity || discriminate).
  apply N.eqb_neq in H. now rewrite H.
Qed.

(** After a text without [<], the scan deletes the block and goes on with
    what follows it. *)
Lemma remove_block_here (U : tables) (name : str)
    (pre head inner tail post : str) :
  forallb is_lower name = true -> name <> [] ->
  ~ In LT pre ->
  is_block U name head inner tail = true ->
  re_sub (m_block U name) [] (pre ++ head ++ inner ++ tail ++ post)
  = pre ++ re_sub (m_block U name) [] post.
Proof.
  intros Hl Hn N B. unfold re_sub.
  induction pre as [|c pre IH].
  - destruct (m_block_at_block U name Hl Hn head inner tail post B)
      as [M [_ [_ [x X]]]].
    rewrite !app_nil_l.
    destruct (length (head ++ inner ++ tail)) as [|b] eqn:Lb.
    + destruct head; [|discriminate]. destruct inner; [|discriminate].
      destruct tail; [|discriminate]. reflexivity.
    + rewrite (re_sub_match_skip _ _ _ _ M) by (rewrite X; discriminate).
      rewrite <- Lb.
      replace (head ++ inner ++ tail ++ post)
        with ((head ++ inner ++ tail) ++ post) by now rewrite <- !app_assoc.
      rewrite skipn_app, Nat.sub_diag, skipn_all. reflexivity.
  - change ((c :: pre) ++ head ++ inner ++ tail ++ post)
      with (c :: (pre ++ head ++ inner ++ tail ++ post)).
    rewrite re_sub_copy
      by (apply m_block_no_lt; intros ->; apply N; now left).
    rewrite <- app_comm_cons. f_equal. apply IH. intros I. apply N. now right.
Qed.

(** C5, as amended: the normalized text has no space character at either
    end, every space character in it is a single U+0020 between two other
    characters, and nowhere in it does a tag stand (a [<], one or more
    characters other than [>], a [>]), so that it holds no script or style
    tag.  A script block, in any letter case, is deleted as a whole: the
    normalized text is the same whatever block stands at a given place, and
    after a text without [<] the first pass leaves that text and what it
    makes of the rest.  The second pass does the same with the style blocks
    of the text it receives. *)
Theorem normalize_web_spec (U : tables) (html : str) :
  (forall c rest, normalize_web U html = c :: rest -> is_space c = false) /\
  (forall c front, normalize_web U html = front ++ [c] ->
                   is_space c = false) /\
  (forall a x b, normalize_web U html = a ++ x :: b -> is_space x = true ->
                 x = SPACE /\ forall y b', b = y :: b' -> is_space y = false) /\
  (forall a tag b, normalize_web U html = a ++ LT :: tag ++ GT :: b ->
                   tag = [] \/ In GT tag) /\
  (forall pre head inner tail head' inner' tail' post,
      is_block U (lit "script") head inner tail = true ->
      is_block U (lit "script") head' inner' tail' = true ->
      normalize_web U (pre ++ head ++ inner ++ tail ++ post)
      = normalize_web U (pre ++ head' ++ inner' ++ tail' ++ post)) /\
  (forall pre head inner tail post,
      ~ In LT pre ->
      is_block U (lit "script") head inner tail = true ->
      remove_scripts U (pre ++ head ++ inner ++ tail ++ post)
      = pre ++ remove_scripts U post) /\
  (forall pre head inner tail head' inner' tail' post,
      is_block U (lit "style") head inner tail = true ->
      is_block U (lit "style") head' inner' tail' = true ->
      remove_styles U (pre ++ head ++ inner ++ tail ++ post)
      = remove_styles U (pre ++ head' ++ inner' ++ tail' ++ post)) /\
  (forall pre head inner tail post,
      ~ In LT pre ->
      is_block U (lit "style") head inner tail = true ->
      remove_styles U (pre ++ head ++ inner ++ tail ++ post)
      = pre ++ remove_styles U post).
Proof.
  destruct (normalize_web_forms U html) as [C T].
  split; [apply strip_first|].
  split; [apply strip_last|].
  split; [intros a x b E; eapply collapsed_spec; eassumption|].
  split; [intros a tag b E; eapply tagless_spec; eassumption|].
  split.
  { intros pre head inner tail head' inner' tail' post B B'.
    unfold normalize_web, remove_scripts.
    rewrite (remove_block_bounded U (lit "script") eq_refl
               ltac:(discriminate) head inner tail head' inner' tail' post
               B B' (length pre) pre (le_n _)).
    reflexivity. }
  split.
  { intros pre head inner tail post N B.
    apply remove_block_here; auto; discriminate. }
  split.
  { intros pre head inner tail head' inner' tail' post B B'.
    apply (remove_block_bounded U (lit "style") eq_refl
             ltac:(discriminate) head inner tail head' inner' tail' post
             B B' (length pre) pre (le_n _)). }
  intros pre head inner tail post N B.
  apply remove_block_here; auto; discriminate.
Qed.

Lemma normalize_web_spec_witness :
  normalize_web ascii_tables (Samples.page_with (lit ">var a = '<b>';"))
  = normalize_web ascii_tables (Samples.page_with (lit " src=x>")).
Proof.
  destruct (normalize_web_spec ascii_tables (lit "<p>a</p>"))
    as [_ [_ [_ [_ [H _]]]]].
  apply (H (lit "<html><p>Summer  of</p>") (lit "<SCRIPT")
           (lit ">var a = '<b>';") (lit "</Script>")
           (lit "<SCRIPT") (lit " src=x>") (lit "</Script>")
           (lit " <b>code</b> </html>")).
  - reflexivity.
  - reflexivity.
Defined.

(** The page of the witness, normalized. *)
Lemma page_normalized :
  normalize_web ascii_tables (Samples.page_with (lit ">var a = '<b>';"))
  = lit "Summer of code".
Proof. reflexivity. Qed.

(** C5 as stated fails on two pages.  In the first, a style block stands in
    the input, its inner text opens a script, and the first pass removes
    from that opening on: the style block is not deleted and the text
    [secret] of its inside is the output.  In the second, the output holds
    the inner text of the script block, which the page also says outside of
    the block. *)
Lemma normalize_web_counterexample :
  (is_block ascii_tables (lit "style")
     (lit "<style") (lit ">secret<script>") (lit "</style>") = true /\
   Samples.style_then_script
   = lit "<style" ++ lit ">secret<script>" ++ lit "</style>" ++ lit "</script>" /\
   normalize_web ascii_tables Samples.style_then_script = lit "secret") /\
  (is_block ascii_tables (lit "script")
     (lit "<script") (lit ">alert") (lit "</script>") = true /\
   Samples.echo_page
   = lit "alert" ++ lit "<script" ++ lit ">alert" ++ lit "</script>" /\
   normalize_web ascii_tables Samples.echo_page = lit "alert" /\
   contains (lit "alert") (normalize_web ascii_tables Samples.echo_page) = true).
Proof. repeat split; reflexivity. Qed.

(** On these two pages the outcome is the same whatever the table of
    alphanumeric characters: the pages hold ASCII only. *)
Lemma counter_pages_any_tables (U : tables) :
  normalize_web U Samples.style_then_script = lit "secret" /\
  normalize_web U Samples.echo_page = lit "alert".
Proof. split; reflexivity. Qed.

(* ================================================================== *)
(** * Further properties *)
(* ================================================================== *)

(** ** The validator *)

Lemma bad_str_false (d : dict) (k : str) :
  bad_str d k = false <-> nonempty_str (get d k).
Proof.
  unfold bad_str, nonempty_str. destruct (get d k) as [| | | |s| |]; simpl;
    rewrite ?orb_true_r;
    try (split; [discriminate | intros [s0 [E _]]; discriminate]).
  destruct s as [|c s]; simpl.
  - split; [discriminate | intros [s0 [E N]]; injection E as <-; congruence].
  - split; [intros _; eexists; split; [reflexivity | discriminate] | reflexivity].
Qed.

Lemma bad_list_false (d : dict) (k : str) :
  bad_list d k = false <-> nonempty_list (get d k).
Proof.
  unfold bad_list, nonempty_list. destruct (get d k) as [| | | | |l|]; simpl;
    try (split; [discriminate | intros [x [l0 E]]; discriminate]).
  destruct l as [|x l]; simpl.
  - split; [discriminate | intros [x [l0 E]]; discriminate].
  - split; [intros _; eauto | reflexivity].
Qed.

Lemma bad_int_false (d : dict) (k : str) :
  bad_int d k = false <-> year_ok (get d k).
Proof.
  unfold bad_int, year_ok. destruct (get d k) as [|b|z| | | |]; simpl;
    rewrite ?orb_true_r;
    try (split; [discriminate | intros [[z0 [E _]]|E]; discriminate]).
  - destruct b; simpl.
    + split; [auto | reflexivity].
    + split; [discriminate | intros [[z0 [E _]]|E]; discriminate].
  - rewrite orb_false_r. destruct (Z.eqb_spec z 0) as [->|N]; simpl.
    + split; [discriminate|].
      intros [[z0 [E N]]|E]; [injection E as <-; congruence | discriminate].
    + split; [intros _; left; eauto | reflexivity].
Qed.

Lemma bad_category_false (d : dict) :
  bad_category d = false <->
  exists c, get d (lit "category") = VStr c /\ In c categories.
Proof.
  unfold bad_category. rewrite negb_false_iff, existsb_exists. split.
  - intros [c [Hc E]]. unfold eq_str in E.
    destruct (get d (lit "category")); try discriminate.
    apply str_eqb_eq in E. subst. eauto.
  - intros [c [E Hc]]. exists c. split; [exact Hc|].
    rewrite E. apply str_eqb_refl.
Qed.

Lemma known_id_false (known : list str) (id : str) :
  known_id known (VStr id) = false <-> ~ In id known.
Proof.
  unfold known_id. split.
  - intros H I. pose proof (known_id_in known id I) as K.
    unfold known_id in K. congruence.
  - intros N. destruct (existsb (eq_str (VStr id)) known) eqn:E; [|reflexivity].
    apply existsb_exists in E. destruct E as [x [Hx E]]. simpl in E.
    apply str_eqb_eq in E. subst. contradiction.
Qed.

Lemma when_nil (b : bool) (m : str) : when b m = [] <-> b = false.
Proof. destruct b; simpl; split; congruence. Qed.

Lemma app_nil_iff {A} (a b : list A) : a ++ b = [] <-> a = [] /\ b = [].
Proof.
  split; [apply app_eq_nil | intros [-> ->]; reflexivity].
Qed.

Lemma id_errors_nil (known : list str) (i : nat) (ev : dict) :
  id_errors known i ev = [] <->
  exists id, get ev (lit "id") = VStr id /\ id <> [] /\ ~ In id known.
Proof.
  unfold id_errors. destruct (bad_str ev (lit "id")) eqn:B.
  - split; [discriminate|]. intros [id [E [N _]]].
    assert (X : bad_str ev (lit "id") = false)
      by (apply bad_str_false; exists id; auto).
    congruence.
  - apply bad_str_false in B. destruct B as [id [E N]]. rewrite E.
    destruct (known_id known (VStr id)) eqn:K.
    + split; [discriminate|]. intros [id' [E' [_ N']]]. injection E' as <-.
      apply known_id_false in N'. congruence.
    + apply known_id_false in K. split; [eauto | reflexivity].
Qed.

Lemma event_errors_nil (known : list str) (i : nat) (ev : dict) :
  event_errors known i ev = [] <-> event_ok known ev.
Proof.
  unfold event_errors, event_ok.
  rewrite !app_nil_iff, !when_nil, id_errors_nil,
    bad_int_false, !bad_str_false, bad_list_false.
  tauto.
Qed.

Lemma events_errors_nil (known : list str) (evs : list dict) :
  forall i, events_errors known i evs = [] <-> Forall (event_ok known) evs.
Proof.
  induction evs as [|ev evs IH]; intros i; simpl.
  - split; [constructor | reflexivity].
  - rewrite app_nil_iff, event_errors_nil, IH. split.
    + intros [H1 H2]. now constructor.
    + intros H. now inversion H.
Qed.

Lemma record_errors_nil (d : dict) :
  record_errors d = [] <->
  nonempty_str (get d (lit "title")) /\
  nonempty_str (get d (lit "description")) /\
  (exists c, get d (lit "category") = VStr c /\ In c categories) /\
  nonempty_list (get d (lit "tags")) /\
  nonempty_list (get d (lit "events")).
Proof.
  unfold record_errors.
  rewrite !app_nil_iff, !when_nil, !bad_str_false, !bad_list_false,
    bad_category_false.
  tauto.
Qed.

Lemma valid_make_iff (errs : list str) :
  valid (make_verdict errs) = true <-> errs = [].
Proof. destruct errs; simpl; split; congruence. Qed.

(** The verdict is valid exactly on the records that every rule accepts. *)
Lemma valid_iff_record_ok (data : value) (known : list str) :
  (exists r, validate_extracted_data data known = Ret r /\ valid r = true) <->
  exists d, data = VDict d /\ record_ok known d.
Proof.
  split.
  - intros [r [V T]]. apply validate_returns_inv in V.
    destruct V as [d [evs [-> [-> Hev]]]]. exists d. split; [reflexivity|].
    apply valid_make_iff, app_nil_iff in T. destruct T as [R E].
    apply record_errors_nil in R. destruct R as [R1 [R2 [R3 [R4 R5]]]].
    apply events_errors_nil in E.
    unfold record_ok. repeat (split; [assumption|]).
    destruct Hev as [Hev|[Hev _]].
    + destruct evs as [|ev evs].
      * destruct R5 as [x [l R5]]. rewrite Hev in R5. discriminate.
      * exists ev, evs. auto.
    + destruct R5 as [x [l R5]]. rewrite R5 in Hev. discriminate.
  - intros [d [-> [R1 [R2 [R3 [R4 [ev [evs [He F]]]]]]]]].
    eexists. split; [apply validate_on_objects; exact He|].
    apply valid_make_iff, app_nil_iff. split.
    + apply record_errors_nil. repeat (split; [assumption|]).
      rewrite He. simpl. unfold nonempty_list. eauto.
    + now apply events_errors_nil.
Qed.

(** X1: the validator returns a valid verdict exactly on the objects that
    hold a non-empty string title and description, one of the three
    categories, a non-empty list of tags and a non-empty list of events, all
    of them objects with a non-empty string id outside the known ids, a year
    that is a non-zero integer (or [true]), a non-empty string link and
    timezone and a non-empty list as timeline; the verdict then holds
    neither errors nor warnings. *)
Theorem validator_accepts_iff (data : value) (known : list str) :
  validate_extracted_data data known
  = Ret {| valid := true; errors := None; warnings := None |} <->
  exists d, data = VDict d /\ record_ok known d.
Proof.
  rewrite <- valid_iff_record_ok. split.
  - intros H. eexists. split; [exact H | reflexivity].
  - intros [r [V T]]. rewrite V. f_equal.
    apply validate_returns_inv in V. destruct V as [d [evs [_ [-> _]]]].
    apply valid_make_iff in T. rewrite T. reflexivity.
Qed.

Lemma event_errors_same_checks (known : list str) (i : nat) (ev ev' : dict) :
  same_checks ev ev' -> event_errors known i ev = event_errors known i ev'.
Proof.
  intros [E1 [E2 [E3 [E4 [E5 E6]]]]].
  unfold event_errors, id_errors, bad_str, bad_int, bad_list.
  now rewrite E1, E2, E3, E4, E5, E6.
Qed.

Lemma events_errors_same_checks (known : list str) (evs evs' : list dict) :
  Forall2 same_checks evs evs' ->
  forall i, events_errors known i evs = events_errors known i evs'.
Proof.
  induction 1 as [|ev ev' evs evs' H _ IH]; intros i; [reflexivity|].
  simpl. now rewrite (event_errors_same_checks known i ev ev' H), IH.
Qed.

(** X2: the verdict depends on nothing but the fields that the rules read:
    two records that agree on title, description, category and tags, and
    whose events are objects that agree one by one on id, year, link and
    timezone and on the length of the timeline list, get the same verdict,
    whatever their other keys and the entries of their timelines. *)
Theorem validator_reads_checked_fields_only (d d' : dict)
    (evs evs' : list dict) (known : list str) :
  get d (lit "title") = get d' (lit "title") ->
  get d (lit "description") = get d' (lit "description") ->
  get d (lit "category") = get d' (lit "category") ->
  get d (lit "tags") = get d' (lit "tags") ->
  get d (lit "events") = VList (map VDict evs) ->
  get d' (lit "events") = VList (map VDict evs') ->
  Forall2 same_checks evs evs' ->
  validate_extracted_data (VDict d) known
  = validate_extracted_data (VDict d') known.
Proof.
  intros E1 E2 E3 E4 He He' F.
  rewrite (validate_on_objects d known evs He).
  rewrite (validate_on_objects d' known evs' He').
  rewrite (events_errors_same_checks known evs evs' F 0).
  assert (B : bad_list d (lit "events") = bad_list d' (lit "events")).
  { unfold bad_list. rewrite He, He'. cbn [isinstance_list len].
    f_equal. f_equal. rewrite !length_map. exact (Forall2_length F). }
  unfold record_errors. rewrite B.
  unfold bad_str, bad_category, bad_list.
  now rewrite E1, E2, E3, E4.
Qed.

Lemma validator_reads_checked_fields_only_witness :
  validate_extracted_data (VDict Samples.summer) []
  = validate_extracted_data
      (VDict (Samples.record_with (VList [VDict Samples.bare_event]))) [].
Proof.
  apply (validator_reads_checked_fields_only Samples.summer
           (Samples.record_with (VList [VDict Samples.bare_event]))
           [Samples.summer_event] [Samples.bare_event] []);
    try reflexivity.
  constructor; [|constructor]. repeat split.
Defined.

Lemma known_id_incl (known known' : list str) (v : value) :
  incl known known' -> known_id known v = true -> known_id known' v = true.
Proof.
  unfold known_id. intros I H. apply existsb_exists in H.
  destruct H as [x [Hx E]]. apply existsb_exists. exists x. auto.
Qed.

Lemma event_errors_incl (known known' : list str) (i : nat) (ev : dict) (m : str) :
  incl known known' ->
  In m (event_errors known i ev) -> In m (event_errors known' i ev).
Proof.
  intros I. unfold event_errors. rewrite !in_app_iff.
  intros [H|H]; [left | now right].
  unfold id_errors in *. destruct (bad_str ev (lit "id")); [exact H|].
  destruct (get ev (lit "id")); try exact H.
  destruct (known_id known (VStr s)) eqn:K; [|destruct H].
  now rewrite (known_id_incl known known' _ I K).
Qed.

(** X3: on a record whose events are objects, a longer list of known ids
    can only add messages: every message of the verdict against a list is a
    message of the verdict against any list that includes it, so that a
    record valid against the longer list is valid against the shorter. *)
Theorem known_ids_monotone (d : dict) (evs : list dict)
    (known known' : list str) :
  get d (lit "events") = VList (map VDict evs) ->
  incl known known' ->
  exists r r',
    validate_extracted_data (VDict d) known = Ret r /\
    validate_extracted_data (VDict d) known' = Ret r' /\
    (forall m, In m (errors_list r) -> In m (errors_list r')) /\
    (valid r' = true -> valid r = true).
Proof.
  intros He I.
  exists (make_verdict (record_errors d ++ events_errors known 0 evs)).
  exists (make_verdict (record_errors d ++ events_errors known' 0 evs)).
  split; [now apply validate_on_objects|].
  split; [now apply validate_on_objects|].
  rewrite !errors_list_make, !valid_make_iff.
  assert (S : forall m,
             In m (record_errors d ++ events_errors known 0 evs) ->
             In m (record_errors d ++ events_errors known' 0 evs)).
  { intros m. rewrite !in_app_iff, !in_events_errors.
    intros [H|[k [ev [H1 H2]]]]; [now left|].
    right. exists k, ev. split; [exact H1|].
    eapply event_errors_incl; eassumption. }
  split; [exact S|].
  intros E. rewrite E in S.
  destruct (record_errors d ++ events_errors known 0 evs) as [|m l];
    [reflexivity|].
  destruct (S m (or_introl eq_refl)).
Qed.

Lemma known_ids_monotone_witness :
  exists r r',
    validate_extracted_data (VDict Samples.summer) [] = Ret r /\
    validate_extracted_data (VDict Samples.summer) [lit "x-2025"] = Ret r' /\
    (forall m, In m (errors_list r) -> In m (errors_list r')) /\
    (valid r' = true -> valid r = true).
Proof.
  apply (known_ids_monotone Samples.summer [Samples.summer_event]
           [] [lit "x-2025"]).
  - reflexivity.
  - intros x [].
Defined.

Lemma check_events_raise_inv (known : list str) (events : list value) :
  forall i errs e,
    check_events known i events errs = Raise e ->
    e = AttributeError /\
    exists x, In x events /\ forall ev, x <> VDict ev.
Proof.
  induction events as [|x events IH]; intros i errs e H; [discriminate|].
  simpl in H. destruct x as [| | | | | |ev];
    try (injection H as <-; split; [reflexivity|];
         eexists; split; [now left | discriminate]).
  simpl in H. apply IH in H. destruct H as [-> [x [Hx N]]].
  split; [reflexivity|]. exists x. split; [now right | exact N].
Qed.

(** X4: the validator raises, and then [AttributeError], exactly when the
    data is not an object or its [events] is a list with an element that is
    not an object; on every other input it returns a verdict. *)
Theorem validator_raises_iff (data : value) (known : list str) (e : exn) :
  validate_extracted_data data known = Raise e <->
  e = AttributeError /\
  ((forall d, data <> VDict d) \/
   exists d events x,
     data = VDict d /\ get d (lit "events") = VList events /\
     In x events /\ forall ev, x <> VDict ev).
Proof.
  split.
  - intros H. destruct data as [| | | | | |d];
      try (injection H as <-; split; [reflexivity | left; discriminate]).
    unfold validate_extracted_data in H.
    destruct (get d (lit "events")) as [| | | | |events|] eqn:G;
      try discriminate.
    destruct (check_events known 0 events (record_errors d)) as [out|e'] eqn:C;
      [discriminate|].
    simpl in H. injection H as <-.
    apply check_events_raise_inv in C. destruct C as [-> [x [Hx N]]].
    split; [reflexivity|]. right. exists d, events, x. auto.
  - intros [-> [N|[d [events [x [-> [G [Hx N]]]]]]]].
    + destruct data; try reflexivity. now destruct (N d).
    + unfold validate_extracted_data. rewrite G.
      rewrite check_events_raises; [reflexivity|]. exists x. auto.
Qed.

Lemma record_errors_known (d : dict) (m : str) :
  In m (record_errors d) ->
  In m [msg_title; msg_description; msg_category; msg_tags; msg_events].
Proof.
  unfold record_errors, when. rewrite !in_app_iff.
  intros [H|[H|[H|[H|H]]]];
    match type of H with In _ (if ?b then _ else _) => destruct b end;
    simpl in H; try tauto; destruct H as [<-|[]]; simpl; auto 6.
Qed.

Lemma record_errors_length (d : dict) : length (record_errors d) <= 5.
Proof.
  unfold record_errors, when. rewrite !length_app.
  repeat match goal with |- context [if ?b then _ else _] => destruct b end;
    simpl; lia.
Qed.

Lemma event_errors_length (known : list str) (i : nat) (ev : dict) :
  length (event_errors known i ev) <= 5.
Proof.
  unfold event_errors, id_errors, when. rewrite !length_app.
  repeat match goal with
         | |- context [if ?b then _ else _] => destruct b
         | |- context [match ?v with VNone => _ | _ => _ end] => destruct v
         end; simpl; lia.
Qed.

Lemma events_errors_length (known : list str) (evs : list dict) :
  forall i, length (events_errors known i evs) <= 5 * length evs.
Proof.
  induction evs as [|ev evs IH]; intros i; simpl; [lia|].
  rewrite length_app. pose proof (event_errors_length known i ev).
  specialize (IH (S i)). lia.
Qed.

(** X5: on a record whose events are objects, every message of the verdict
    is one of the five record-level messages or starts with [Event i: ] for
    the index [i] of an event of the list, and there are at most five
    messages for the record and five for each event. *)
Theorem messages_are_traceable (d : dict) (evs : list dict)
    (known : list str) :
  get d (lit "events") = VList (map VDict evs) ->
  exists r,
    validate_extracted_data (VDict d) known = Ret r /\
    (forall m, In m (errors_list r) ->
       In m [msg_title; msg_description; msg_category; msg_tags; msg_events]
       \/ exists i tail, i < length evs /\ m = event_msg i tail) /\
    length (errors_list r) <= 5 + 5 * length evs.
Proof.
  intros He. eexists. split; [apply validate_on_objects; exact He|].
  rewrite errors_list_make. split.
  - intros m H. apply in_app_or in H. destruct H as [H|H].
    + left. now apply record_errors_known in H.
    + right. apply in_events_errors in H. destruct H as [k [ev [N H]]].
      assert (L : k < length evs) by (apply nth_error_Some; congruence).
      simpl in H. apply in_event_errors_inv in H.
      destruct H as [[_ ->]|[[_ [id [_ [_ ->]]]]|[[_ ->]|[[_ ->]|[[_ ->]|[_ ->]]]]]];
        eexists; eexists; (split; [exact L | reflexivity]).
  - rewrite length_app. pose proof (record_errors_length d).
    pose proof (events_errors_length known evs 0). lia.
Qed.

Lemma messages_are_traceable_witness :
  exists r,
    validate_extracted_data (VDict Samples.summer) [lit "x-2025"] = Ret r /\
    (forall m, In m (errors_list r) ->
       In m [msg_title; msg_description; msg_category; msg_tags; msg_events]
       \/ exists i tail, i < 1 /\ m = event_msg i tail) /\
    length (errors_list r) <= 5 + 5 * 1.
Proof.
  apply (messages_are_traceable Samples.summer [Samples.summer_event]
           [lit "x-2025"]).
  reflexivity.
Defined.

(** ** The pipeline *)

(** What a successful [after_completion] has gone through. *)
Lemma after_completion_success (w : world) (ids : list str)
    (response : option str) (o : outcome) :
  after_completion w ids response = Ret o ->
  success o = true ->
  exists text parsed d,
    response = Some text /\ text <> [] /\
    json_loads w text = Ret parsed /\
    parsed = VDict d /\ record_ok ids d /\
    o = {| success := true; error := None; data := Some parsed;
           outcome_warnings := None |}.
Proof.
  unfold after_completion. intros H T.
  destruct response as [[|c text]|]; try discriminate.
  destruct (prints w [RawBanner; Raw (c :: text); RawEnd]); [|discriminate].
  cbn [bind] in H.
  destruct (json_loads w (c :: text)) as [parsed|] eqn:J; [|discriminate].
  cbn [bind] in H.
  destruct (prints w [ParsedBanner; Parsed parsed; ParsedEnd]);
    [|discriminate].
  cbn [bind] in H.
  destruct (validate_extracted_data parsed ids) as [r|] eqn:V; [|discriminate].
  cbn [bind] in H. destruct (valid r) eqn:Vr; cbn [negb] in H.
  - injection H as <-.
    assert (X : exists r', validate_extracted_data parsed ids = Ret r'
                           /\ valid r' = true) by eauto.
    apply valid_iff_record_ok in X. destruct X as [d [-> R]].
    exists (c :: text), (VDict d), d.
    split; [reflexivity|]. split; [discriminate|].
    split; [exact J|]. split; [reflexivity|]. split; [exact R|].
    apply validate_returns_inv in V. destruct V as [d' [evs [_ [-> _]]]].
    reflexivity.
  - destruct (prints w [InvalidBanner; InvalidErrors (errors r); InvalidEnd]);
      [|discriminate].
    cbn [bind] in H.
    destruct (errors r); [|discriminate]. injection H as <-. discriminate.
Qed.

Lemma extract_activity_info_success (w : world) (T : template) (svc : service)
    (content source_url : str) (tags ids : list str) :
  success (fst (extract_activity_info w T svc content source_url tags ids))
  = true ->
  exists c text parsed d,
    openai svc = Some c /\
    chat_completion w (model svc) (system_prompt T tags ids)
      (user_prompt source_url content) = Ret (Some text) /\
    json_loads w text = Ret parsed /\
    parsed = VDict d /\ record_ok ids d /\
    fst (extract_activity_info w T svc content source_url tags ids)
    = {| success := true; error := None; data := Some parsed;
         outcome_warnings := None |}.
Proof.
  unfold extract_activity_info.
  destruct (openai svc) as [c|] eqn:O.
  - cbn [fst].
    destruct (chat_completion w (model svc) (system_prompt T tags ids)
                (user_prompt source_url content)) as [response|] eqn:C;
      [|discriminate].
    cbn [bind].
    destruct (after_completion w ids response) as [o|] eqn:A; [|discriminate].
    intros S. destruct (after_completion_success w ids response o A S)
      as [text [parsed [d [-> [_ [J [-> [R ->]]]]]]]].
    exists c, text, (VDict d), d. auto 10.
  - unfold not_configured. destruct (provider_names svc). discriminate.
Qed.

Lemma validate_raises_attribute (data : value) (known : list str) (e : exn) :
  validate_extracted_data data known = Raise e -> e = AttributeError.
Proof.
  intros H. destruct data as [| | | | | |d];
    try (injection H as <-; reflexivity).
  unfold validate_extracted_data in H.
  destruct (get d (lit "events")) as [| | | | |events|]; try discriminate.
  destruct (check_events known 0 events (record_errors d)) as [out|e'] eqn:C;
    [discriminate|].
  simpl in H. injection H as <-.
  apply check_events_raise_inv in C. tauto.
Qed.

(** X6: an extraction from a URL that reports success has fetched the page,
    has received an answer that parses to a record which every rule of the
    validator accepts, and returns that record as its data; in particular
    no event of the returned record has an id among the existing ids. *)
Theorem success_is_validated (w : world) (U : tables) (T : template)
    (svc : service) (url : str) (tags ids : list str) :
  success (fst (extract_from_url w U T svc url tags ids)) = true ->
  exists html d evs,
    http_get w url = Ret html /\
    data (fst (extract_from_url w U T svc url tags ids)) = Some (VDict d) /\
    error (fst (extract_from_url w U T svc url tags ids)) = None /\
    record_ok ids d /\
    get d (lit "events") = VList (map VDict evs) /\
    forall ev id, In ev evs -> get ev (lit "id") = VStr id -> ~ In id ids.
Proof.
  unfold extract_from_url, fetch_web_content.
  destruct (http_get w url) as [html|] eqn:H; cbn [bind]; [|discriminate].
  destruct (extract_activity_info w T svc (normalize_web U html) url tags ids)
    as [o calls] eqn:E.
  cbn [fst]. intros S.
  pose proof (extract_activity_info_success w T svc (normalize_web U html)
                url tags ids) as X.
  rewrite E in X. cbn [fst] in X.
  destruct (X S) as [c [text [parsed [d [_ [_ [_ [-> [R ->]]]]]]]]].
  pose proof R as [_ [_ [_ [_ [ev0 [evs [He F]]]]]]].
  exists html, d, (ev0 :: evs).
  split; [reflexivity|]. split; [reflexivity|]. split; [reflexivity|].
  split; [exact R|]. split; [exact He|].
  intros ev id Hin Hid I. rewrite Forall_forall in F.
  destruct (F ev Hin) as [[id' [Hid' [_ N]]] _].
  rewrite Hid in Hid'. injection Hid' as <-. contradiction.
Qed.

Lemma success_is_validated_witness :
  let w := Samples.answering (lit "{}") (VDict Samples.summer) in
  exists html d evs,
    http_get w (lit "https://e.org") = Ret html /\
    data (fst (extract_from_url w ascii_tables Samples.blank
                 (init Samples.github_env) (lit "https://e.org") [] []))
    = Some (VDict d) /\
    error (fst (extract_from_url w ascii_tables Samples.blank
                  (init Samples.github_env) (lit "https://e.org") [] []))
    = None /\
    record_ok [] d /\
    get d (lit "events") = VList (map VDict evs) /\
    forall ev id, In ev evs -> get ev (lit "id") = VStr id -> ~ In id [].
Proof.
  intros w.
  apply (success_is_validated w ascii_tables Samples.blank
           (init Samples.github_env) (lit "https://e.org") [] []).
  reflexivity.
Defined.

(** X7: every outcome of an extraction from a URL is a success with data
    and no error, or a failure with an error message and no data. *)
Theorem outcome_is_uniform (w : world) (U : tables) (T : template)
    (svc : service) (url : str) (tags ids : list str) :
  let o := fst (extract_from_url w U T svc url tags ids) in
  (success o = true /\ error o = None /\ exists d, data o = Some d) \/
  (success o = false /\ data o = None /\ exists m, error o = Some m).
Proof.
  assert (F : forall m, let o := failure m in
    (success o = true /\ error o = None /\ exists d, data o = Some d) \/
    (success o = false /\ data o = None /\ exists m, error o = Some m)).
  { intros m. right. cbn. eauto. }
  unfold extract_from_url, fetch_web_content.
  destruct (http_get w url) as [html|]; cbn [bind]; [|apply F].
  unfold extract_activity_info.
  destruct (openai svc) as [c|].
  - cbn [fst].
    destruct (chat_completion w (model svc) (system_prompt T tags ids)
                (user_prompt url (normalize_web U html))) as [response|];
      cbn [bind]; [|apply F].
    unfold after_completion.
    destruct response as [[|x text]|]; try apply F.
    destruct (prints w [RawBanner; Raw (x :: text); RawEnd]); cbn [bind];
      [|apply F].
    destruct (json_loads w (x :: text)) as [parsed|]; cbn [bind]; [|apply F].
    destruct (prints w [ParsedBanner; Parsed parsed; ParsedEnd]); cbn [bind];
      [|apply F].
    destruct (validate_extracted_data parsed ids) as [r|]; cbn [bind];
      [|apply F].
    destruct (valid r); cbn [negb].
    + left. cbn. eauto.
    + destruct (prints w [InvalidBanner; InvalidErrors (errors r);
                          InvalidEnd]); cbn [bind]; [|apply F].
      destruct (errors r); [|apply F]. right. cbn. eauto.
  - unfold not_configured. destruct (provider_names svc). apply F.
Qed.

(** X8: an extraction from a URL requests the page once and the completion
    at most once; the completion is requested only when the page came back
    and a client exists, and then on the prompts built from the normalized
    page. *)
Theorem calls_of_extract_from_url (w : world) (U : tables) (T : template)
    (svc : service) (url : str) (tags ids : list str) :
  snd (extract_from_url w U T svc url tags ids)
  = Fetch url ::
    match http_get w url, openai svc with
    | Ret html, Some _ =>
        [Completion (model svc) (system_prompt T tags ids)
           (user_prompt url (normalize_web U html))]
    | _, _ => []
    end.
Proof.
  unfold extract_from_url, fetch_web_content, extract_activity_info.
  destruct (http_get w url); cbn [bind]; [|reflexivity].
  destruct (openai svc); reflexivity.
Qed.

(** X9: with a client, the ways in which the completion step fails are
    reported as failures whose message is [AI extraction failed: ] followed
    by the text of the exception: the call raises, the answer is absent or
    empty, one of the [print]s around the raw answer raises, the answer
    does not parse, one of the [print]s around the parsed answer raises,
    and the parsed answer makes the validator raise. *)
Theorem completion_failures (w : world) (T : template) (svc : service)
    (c : client) (content source_url : str) (tags ids : list str) :
  openai svc = Some c ->
  let answer := chat_completion w (model svc) (system_prompt T tags ids)
                  (user_prompt source_url content) in
  let o := fst (extract_activity_info w T svc content source_url tags ids) in
  (forall e, answer = Raise e ->
     o = failure (lit "AI extraction failed: " ++ describe w e)) /\
  (answer = Ret None \/ answer = Ret (Some []) ->
     o = failure (lit "AI extraction failed: No response from AI")) /\
  (forall text e, answer = Ret (Some text) -> text <> [] ->
     prints w [RawBanner; Raw text; RawEnd] = Raise e ->
     o = failure (lit "AI extraction failed: " ++ describe w e)) /\
  (forall text e, answer = Ret (Some text) -> text <> [] ->
     prints w [RawBanner; Raw text; RawEnd] = Ret tt ->
     json_loads w text = Raise e ->
     o = failure (lit "AI extraction failed: " ++ describe w e)) /\
  (forall text parsed e, answer = Ret (Some text) -> text <> [] ->
     prints w [RawBanner; Raw text; RawEnd] = Ret tt ->
     json_loads w text = Ret parsed ->
     prints w [ParsedBanner; Parsed parsed; ParsedEnd] = Raise e ->
     o = failure (lit "AI extraction failed: " ++ describe w e)) /\
  (forall text parsed e, answer = Ret (Some text) -> text <> [] ->
     prints w [RawBanner; Raw text; RawEnd] = Ret tt ->
     json_loads w text = Ret parsed ->
     prints w [ParsedBanner; Parsed parsed; ParsedEnd] = Ret tt ->
     validate_extracted_data parsed ids = Raise e ->
     o = failure (lit "AI extraction failed: " ++ exn_text w AttributeError)).
Proof.
  intros O answer o. subst answer o.
  unfold extract_activity_info. rewrite O. cbn [fst].
  split; [intros e ->; reflexivity|].
  split; [intros [->| ->]; reflexivity|].
  split; [|split; [|split]].
  - intros text e -> N P. destruct text; [congruence|].
    cbn [bind after_completion]. rewrite P. reflexivity.
  - intros text e -> N P J. destruct text; [congruence|].
    cbn [bind after_completion]. rewrite P. cbn [bind]. rewrite J.
    reflexivity.
  - intros text parsed e -> N P J P'. destruct text; [congruence|].
    cbn [bind after_completion]. rewrite P. cbn [bind]. rewrite J.
    cbn [bind]. rewrite P'. reflexivity.
  - intros text parsed e -> N P J P' V. destruct text; [congruence|].
    cbn [bind after_completion]. rewrite P. cbn [bind]. rewrite J.
    cbn [bind]. rewrite P'. cbn [bind]. rewrite V.
    apply validate_raises_attribute in V. subst e. reflexivity.
Qed.

Lemma completion_failures_witness :
  fst (extract_activity_info Samples.utf8_stdout Samples.blank
         (init Samples.github_env) (lit "Summer") (lit "https://e.org") [] [])
  = failure (lit "AI extraction failed: 'utf-8' codec can't encode character '\ud800' in position 20: surrogates not allowed").
Proof.
  destruct (completion_failures Samples.utf8_stdout Samples.blank
              (init Samples.github_env)
              {| api_key := lit "ghp_token";
                 base_url := Some (lit "https://models.inference.ai.azure.com") |}
              (lit "Summer") (lit "https://e.org") [] [] eq_refl)
    as [_ [_ [_ [_ [H _]]]]].
  apply (H Samples.surrogate_answer Samples.surrogate_record
           (OtherError (lit "'utf-8' codec can't encode character '\ud800' in position 20: surrogates not allowed")));
    try reflexivity.
  discriminate.
Defined.

(** X10: the variable that the configuration message names is the one that
    [__init__] reads for the selected provider: a client carries the
    non-empty value of that variable as its key, and there is no client
    exactly when that variable is unset or empty. *)
Theorem client_key_matches_message (env : str -> option str) :
  match openai (init env) with
  | Some c =>
      env (snd (provider_names (init env))) = Some (api_key c) /\
      api_key c <> []
  | None =>
      env (snd (provider_names (init env))) = None \/
      env (snd (provider_names (init env))) = Some []
  end.
Proof.
  unfold init, provider_names, client_for. simpl.
  destruct (str_eqb (getenv_or env (lit "AI_PROVIDER") (lit "github"))
              (lit "github"));
    [|destruct (str_eqb (getenv_or env (lit "AI_PROVIDER") (lit "github"))
                  (lit "dashscope"))];
    simpl;
    match goal with
    | |- context [env ?k] => destruct (env k) as [[|x k']|]
    end; simpl; auto; (split; [reflexivity | discriminate]).
Qed.

(** ** The content normalizer, once more *)

(** A pattern that matches nowhere in [s] leaves [s] as it is. *)
Lemma re_sub_fixed (m : matcher) (repl : str) (s : str) :
  (forall a c b, s = a ++ c :: b -> m (c :: b) = None) ->
  re_sub m repl s = s.
Proof.
  unfold re_sub. induction s as [|c s IH]; intros H; [reflexivity|].
  rewrite re_sub_copy by exact (H [] c s eq_refl).
  f_equal. apply IH. intros a x b E. apply (H (c :: a) x b).
  rewrite E. reflexivity.
Qed.

Lemma span_none (p : char -> bool) (s : str) :
  forallb p s = true -> skipn (span p s) s = [].
Proof.
  induction s as [|c s IH]; simpl; [reflexivity|].
  destruct (p c); simpl; [exact IH | discriminate].
Qed.

Lemma m_tag_tagless (c : char) (b : str) :
  tagless (c :: b) = true -> m_tag (c :: b) = None.
Proof.
  intros T. destruct (N.eqb_spec c LT) as [->|N]; [|now apply m_tag_other].
  simpl in T. apply andb_prop in T. destruct T as [T _].
  apply orb_prop in T. unfold m_tag.
  change (LT =? LT)%N with true. cbv iota.
  destruct T as [T|T].
  - destruct b as [|d b]; [reflexivity|].
    simpl. rewrite T. reflexivity.
  - apply negb_true_iff in T.
    assert (F : forallb (fun x : char => negb (x =? GT)%N) b = true).
    { clear -T. induction b as [|d b IH]; [reflexivity|].
      cbn [existsb] in T. cbn [forallb].
      apply orb_false_elim in T. destruct T as [T1 T2].
      rewrite N.eqb_sym, T1. now apply IH. }
    cbv zeta. pose proof (span_none _ _ F) as E.
    destruct (span (fun x : char => negb (x =? GT)%N) b); [reflexivity|].
    rewrite E. reflexivity.
Qed.

Lemma replace_tags_fixed (s : str) : tagless s = true -> replace_tags s = s.
Proof.
  intros T. apply re_sub_fixed. intros a c b ->.
  apply m_tag_tagless. exact (tagless_suffix _ _ T).
Qed.

Lemma starts_ci_in (pat : str) (g : char) :
  forall s, In g pat -> (forall x, ci_eq g x = true -> x = g) ->
            starts_ci pat s = true -> In g s.
Proof.
  induction pat as [|p pat IH]; intros s I G H; [destruct I|].
  destruct s as [|x s]; [discriminate|]. simpl in H.
  apply andb_prop in H. destruct H as [H1 H2].
  destruct I as [->|I]; [left; now apply G|].
  right. now apply IH.
Qed.

Lemma close_at_in (close : str) (g : char) :
  forall s p, In g close -> (forall x, ci_eq g x = true -> x = g) ->
              close_at close s = Some p -> In g s.
Proof.
  induction s as [|c s IH]; intros p I G H; [discriminate|].
  simpl in H.
  destruct ((c =? LT)%N && starts_ci close (c :: s)) eqn:E.
  - apply andb_prop in E. destruct E as [_ E].
    exact (starts_ci_in close g (c :: s) I G E).
  - destruct (close_at close s) as [q|] eqn:Q; [|discriminate].
    right. exact (IH q I G eq_refl).
Qed.

Lemma ci_eq_gt (x : char) : ci_eq GT x = true -> x = GT.
Proof.
  unfold ci_eq, GT. change (is_lower 62%N) with false.
  change ((62 =? 115)%N) with false. change ((62 =? 105)%N) with false.
  change ((62 =? 107)%N) with false. simpl.
  rewrite !orb_false_r. intros H. now apply N.eqb_eq in H.
Qed.

Lemma in_skipn {A} (x : A) (n : nat) (l : list A) :
  In x (skipn n l) -> In x l.
Proof.
  intros H. rewrite <- (firstn_skipn n l). apply in_or_app. now right.
Qed.

Lemma m_block_tagless (U : tables) (name : str) (c : char) (b : str) :
  forallb is_lower name = true -> name <> [] ->
  tagless (c :: b) = true -> m_block U name (c :: b) = None.
Proof.
  intros L N T.
  destruct (N.eqb_spec c LT) as [->|Nc]; [|now apply m_block_no_lt].
  unfold m_block.
  destruct (starts_ci (open_tag name) (LT :: b)) eqn:S0; [|reflexivity].
  destruct (boundary U _ _); [|reflexivity].
  destruct (close_at (close_tag name)
              (skipn (length (open_tag name)) (LT :: b))) as [p|] eqn:C;
    [|reflexivity].
  exfalso.
  assert (I : In GT b).
  { assert (I : In GT (skipn (length (open_tag name)) (LT :: b))).
    { apply (close_at_in (close_tag name) GT _ p); [|exact ci_eq_gt|exact C].
      unfold close_tag. right. right. apply in_or_app. right. now left. }
    destruct name as [|y name]; [congruence|].
    simpl in I. destruct b as [|d b]; [destruct I|].
    right. exact (in_skipn _ _ _ I). }
  destruct name as [|y name]; [congruence|].
  destruct b as [|d b]; [destruct I|].
  simpl in S0. apply andb_prop in S0. destruct S0 as [Y _].
  simpl in L. apply andb_prop in L. destruct L as [Ly _].
  simpl in T. apply andb_prop in T. destruct T as [T _].
  apply orb_prop in T. destruct T as [T|T].
  - apply N.eqb_eq in T. subst d.
    rewrite (ci_eq_letter y GT Ly) in Y by (unfold GT; lia). discriminate.
  - apply negb_true_iff in T.
    assert (X : existsb (N.eqb GT) (d :: b) = true).
    { apply existsb_exists. exists GT. split; [exact I | apply N.eqb_refl]. }
    simpl in X. congruence.
Qed.

Lemma remove_block_fixed (U : tables) (name : str) (s : str) :
  forallb is_lower name = true -> name <> [] ->
  tagless s = true -> re_sub (m_block U name) [] s = s.
Proof.
  intros L N T. apply re_sub_fixed. intros a c b ->.
  apply m_block_tagless; try assumption. exact (tagless_suffix _ _ T).
Qed.

Lemma collapse_fixed (s : str) : collapsed s = true -> collapse_spaces s = s.
Proof.
  induction s as [|c s IH]; intros C; [reflexivity|].
  cbn [collapsed] in C. apply andb_prop in C. destruct C as [C1 C2].
  destruct (is_space c) eqn:Sc.
  - rewrite collapse_run by exact Sc.
    apply andb_prop in C1. destruct C1 as [E D].
    apply N.eqb_eq in E. subst c.
    destruct s as [|d s]; [reflexivity|].
    apply negb_true_iff in D. cbn [span]. rewrite D. cbn [skipn].
    f_equal. now apply IH.
  - rewrite collapse_head by exact Sc. f_equal. now apply IH.
Qed.

Lemma lstrip_fixed (s : str) :
  (forall c rest, s = c :: rest -> is_space c = false) -> lstrip s = s.
Proof.
  destruct s as [|c s]; intros H; [reflexivity|].
  simpl. now rewrite (H c s eq_refl).
Qed.

Lemma strip_fixed (s : str) :
  (forall c rest, s = c :: rest -> is_space c = false) ->
  (forall c front, s = front ++ [c] -> is_space c = false) ->
  strip s = s.
Proof.
  intros F L. unfold strip. rewrite (lstrip_fixed s F).
  rewrite lstrip_fixed; [apply rev_involutive|].
  intros c rest E. apply (L c (List.rev rest)).
  rewrite <- (rev_involutive s), E. reflexivity.
Qed.

Lemma strip_strip (s : str) : strip (strip s) = strip s.
Proof.
  apply strip_fixed.
  - intros c rest E. exact (strip_first s c rest E).
  - intros c front E. exact (strip_last s c front E).
Qed.

(** X11: normalizing is idempotent: the text that [fetch_web_content]
    makes of a page is left as it is by the four passes and the strip. *)
Theorem normalize_web_idempotent (U : tables) (html : str) :
  normalize_web U (normalize_web U html) = normalize_web U html.
Proof.
  destruct (normalize_web_forms U html) as [C T].
  remember (normalize_web U html) as t eqn:E.
  unfold normalize_web at 1. unfold remove_scripts, remove_styles.
  rewrite (remove_block_fixed U (lit "script") t) by (reflexivity || discriminate || exact T).
  rewrite (remove_block_fixed U (lit "style") t) by (reflexivity || discriminate || exact T).
  rewrite (replace_tags_fixed t T), (collapse_fixed t C).
  rewrite E. unfold normalize_web. apply strip_strip.
Qed.

Lemma sub_from_length (m : matcher) (repl : str) (s : str) :
  length repl <= 1 ->
  forall k, length (sub_from m repl k s) <= length s.
Proof.
  intros R. induction s as [|c s IH]; intros k; [simpl; lia|].
  cbn [sub_from]. destruct k as [|k].
  - destruct (m (c :: s)) as [[|n]|].
    + cbn [length]. specialize (IH 0). lia.
    + rewrite length_app. cbn [length]. specialize (IH n). lia.
    + cbn [length]. specialize (IH 0). lia.
  - cbn [length]. specialize (IH k). lia.
Qed.

Lemma strip_length (s : str) : length (strip s) <= length s.
Proof.
  destruct (strip_infix s) as [a [b E]].
  rewrite E at 2. rewrite !length_app. lia.
Qed.

Lemma strip_in (x : char) (s : str) : In x (strip s) -> In x s.
Proof.
  destruct (strip_infix s) as [a [b E]]. intros H.
  rewrite E. apply in_or_app. right. apply in_or_app. now left.
Qed.

(** X12: the normalized text is never longer than the page, and each of
    its characters is a character of the page or the space U+0020: the
    passes delete and replace, they never add anything else. *)
Theorem normalize_web_shrinks (U : tables) (html : str) :
  length (normalize_web U html) <= length html /\
  forall x, In x (normalize_web U html) -> In x html \/ x = SPACE.
Proof.
  unfold normalize_web, remove_scripts, remove_styles, replace_tags,
    collapse_spaces, re_sub.
  split.
  - eapply Nat.le_trans; [apply strip_length|].
    eapply Nat.le_trans; [apply sub_from_length; simpl; lia|].
    eapply Nat.le_trans; [apply sub_from_length; simpl; lia|].
    eapply Nat.le_trans; [apply sub_from_length; simpl; lia|].
    apply sub_from_length; simpl; lia.
  - intros x H. apply strip_in in H.
    apply sub_from_in in H. destruct H as [H|[<-|[]]]; [|now right].
    apply sub_from_in in H. destruct H as [H|[<-|[]]]; [|now right].
    apply sub_from_in in H. destruct H as [H|[]].
    apply sub_from_in in H. destruct H as [H|[]].
    now left.
Qed.

(** ** The serializer on parsed data *)

Lemma lookup_of_get (d : dict) (k : str) (v : value) :
  get d k = v -> v <> VNone -> lookup k d = Some v.
Proof.
  unfold get. destruct (lookup k d); intros <- N; [reflexivity | congruence].
Qed.

Lemma field_dict (F : Render.formats) (d : dict) (k : str) (v : value) :
  lookup k d = Some v -> Render.field F (VDict d) k = Render.py_format F v.
Proof. intros H. unfold Render.field, py_getitem. now rewrite H. Qed.

Lemma has_text_spec (F : Render.formats) (k : str) (d : dict) :
  Render.has_text F k d
  = match Render.field F (VDict d) k with Ret _ => true | Raise _ => false end.
Proof.
  unfold Render.has_text, Render.printable, Render.field, py_getitem.
  destruct (lookup k d); reflexivity.
Qed.

(** A loop over elements returns exactly when its body returns on each. *)
Lemma for_lines_spec (body : value -> res (list str))
    (complete : value -> bool) (xs : list value) :
  (forall x, In x xs ->
     complete x = match body x with Ret _ => true | Raise _ => false end) ->
  forallb complete xs
  = match Render.for_lines body xs with Ret _ => true | Raise _ => false end.
Proof.
  induction xs as [|x xs IH]; intros H; [reflexivity|].
  cbn [forallb Render.for_lines].
  rewrite (H x (or_introl eq_refl)), IH by (intros y Hy; apply H; now right).
  destruct (body x); [|reflexivity]. cbn [bind andb].
  destruct (Render.for_lines body xs); reflexivity.
Qed.

Lemma entry_complete_spec (F : Render.formats) (t : value) :
  Render.entry_complete F t
  = match Render.timeline_lines F t with Ret _ => true | Raise _ => false end.
Proof.
  destruct t as [| | | | | |e]; try reflexivity.
  unfold Render.entry_complete, Render.timeline_lines.
  rewrite !has_text_spec.
  destruct (Render.field F (VDict e) (lit "deadline")); [|reflexivity].
  cbn [bind andb].
  destruct (Render.field F (VDict e) (lit "comment")); reflexivity.
Qed.

(** An event that the validator accepts is rendered exactly when it is
    complete. *)
Lemma event_complete_spec (F : Render.formats) (known : list str) (ev : dict) :
  event_ok known ev ->
  Render.event_complete F ev
  = match Render.event_lines F (VDict ev) with
    | Ret _ => true
    | Raise _ => false
    end.
Proof.
  intros [[id [Hid [Nid _]]] [_ [[link [Hl Nl]] [[x [tl Ht]] [tz [Hz Nz]]]]]].
  unfold Render.event_complete, Render.event_lines.
  rewrite !has_text_spec, Ht.
  rewrite (for_lines_spec (Render.timeline_lines F) (Render.entry_complete F)
             (x :: tl) (fun t _ => entry_complete_spec F t)).
  destruct (Render.field F (VDict ev) (lit "year")); [|reflexivity].
  cbn [bind andb].
  rewrite (field_dict F ev _ _ (lookup_of_get _ _ _ Hid ltac:(discriminate))).
  rewrite (field_dict F ev _ _ (lookup_of_get _ _ _ Hl ltac:(discriminate))).
  rewrite (field_dict F ev _ _ (lookup_of_get _ _ _ Hz ltac:(discriminate))).
  cbn [Render.py_format bind]. unfold py_getitem at 1.
  rewrite (lookup_of_get _ _ _ Ht ltac:(discriminate)).
  cbn [bind py_iter].
  destruct (Render.for_lines (Render.timeline_lines F) (x :: tl));
    [|reflexivity].
  cbn [bind andb].
  destruct (Render.field F (VDict ev) (lit "date")); [|reflexivity].
  cbn [bind andb].
  destruct (Render.field F (VDict ev) (lit "place")); reflexivity.
Qed.

Lemma map_VDict_inj (a b : list dict) : map VDict a = map VDict b -> a = b.
Proof.
  revert b. induction a as [|x a IH]; intros [|y b] H; try discriminate;
    [reflexivity|].
  simpl in H. injection H as -> H. f_equal. now apply IH.
Qed.

Lemma record_complete_spec (F : Render.formats) (known : list str)
    (d : dict) (evs : list dict) :
  record_ok known d ->
  get d (lit "events") = VList (map VDict evs) ->
  Render.record_complete F d evs
  = match Render.to_yaml F (VDict d) with Ret _ => true | Raise _ => false end.
Proof.
  intros [[t [Ht Nt]] [[ds [Hd Nd]] [[c [Hc _]] [[x [tl Hg]]
          [ev0 [evs0 [He0 Fo]]]]]]] He.
  rewrite He in He0. injection He0 as He0.
  assert (E : evs = ev0 :: evs0)
    by exact (map_VDict_inj evs (ev0 :: evs0) He0).
  rewrite <- E in Fo. clear E He0 ev0 evs0.
  unfold Render.record_complete, Render.to_yaml. rewrite Hg.
  rewrite (field_dict F d _ _ (lookup_of_get _ _ _ Ht ltac:(discriminate))).
  rewrite (field_dict F d _ _ (lookup_of_get _ _ _ Hd ltac:(discriminate))).
  rewrite (field_dict F d _ _ (lookup_of_get _ _ _ Hc ltac:(discriminate))).
  cbn [Render.py_format bind]. unfold py_getitem.
  rewrite (lookup_of_get _ _ _ Hg ltac:(discriminate)).
  rewrite (lookup_of_get _ _ _ He ltac:(discriminate)).
  cbn [bind py_iter].
  rewrite (for_lines_spec (Render.tag_lines F) (Render.printable F) (x :: tl)).
  2:{ intros v _. unfold Render.printable, Render.tag_lines.
      destruct (Render.py_format F v); reflexivity. }
  destruct (Render.for_lines (Render.tag_lines F) (x :: tl)); [|reflexivity].
  cbn [bind andb].
  assert (Y : forallb (Render.event_complete F) evs
              = match Render.for_lines (Render.event_lines F) (map VDict evs)
                with Ret _ => true | Raise _ => false end).
  { rewrite <- (for_lines_spec (Render.event_lines F)
                  (fun v => match v with
                            | VDict ev => Render.event_complete F ev
                            | _ => false
                            end) (map VDict evs)).
    - clear. induction evs as [|ev evs IH]; [reflexivity|].
      cbn [map forallb]. now rewrite IH.
    - intros v Hv. apply in_map_iff in Hv. destruct Hv as [ev [<- Hev]].
      rewrite Forall_forall in Fo.
      exact (event_complete_spec F known ev (Fo ev Hev)). }
  rewrite Y.
  destruct (Render.for_lines (Render.event_lines F) (map VDict evs));
    reflexivity.
Qed.

(** X13: the validator does not check everything that [to_yaml] reads.
    A record that the validator accepts is rendered exactly when each
    tag and each year can be rendered (an integer within the limit of
    digits, for one), each event has the keys [date] and [place] with
    values that can be rendered, and each timeline entry is an object with
    such keys [deadline] and [comment]; on any other accepted record
    [to_yaml] raises. *)
Theorem accepted_record_rendered_iff (F : Render.formats) (known : list str)
    (d : dict) (evs : list dict) :
  record_ok known d ->
  get d (lit "events") = VList (map VDict evs) ->
  ((exists y, Render.to_yaml F (VDict d) = Ret y) <->
   Render.record_complete F d evs = true) /\
  (Render.record_complete F d evs = false ->
   exists e, Render.to_yaml F (VDict d) = Raise e).
Proof.
  intros R He. rewrite (record_complete_spec F known d evs R He).
  destruct (Render.to_yaml F (VDict d)) as [y|e].
  - split; [split; eauto | discriminate].
  - split; [split; [intros [y H]|]; discriminate | eauto].
Qed.

Lemma accepted_record_rendered_iff_witness :
  exists e,
    Render.to_yaml Samples.plain_formats
      (VDict (Samples.record_with (VList [VDict Samples.bare_event])))
    = Raise e.
Proof.
  refine (proj2 (accepted_record_rendered_iff
                   Samples.plain_formats []
                   (Samples.record_with (VList [VDict Samples.bare_event]))
                   [Samples.bare_event] _ eq_refl) eq_refl).
  repeat split.
  - exists (lit "Open Source Summer"). split; [reflexivity | discriminate].
  - exists (lit "A summer of code"). split; [reflexivity | discriminate].
  - exists (lit "competition"). split; [reflexivity | right; now left].
  - exists (VStr (lit "a")), []. reflexivity.
  - exists Samples.bare_event, []. split; [reflexivity|].
    constructor; [|constructor]. repeat split.
    + exists (lit "x-2025"). split; [reflexivity|]. split; [discriminate|].
      intros [].
    + left. exists 2025%Z. split; [reflexivity | discriminate].
    + exists (lit "https://e.org"). split; [reflexivity | discriminate].
    + exists VNone, [VInt 7]. reflexivity.
    + exists (lit "Asia/Shanghai"). split; [reflexivity | discriminate].
Defined.

Lemma entries_render (F : Render.formats)
    (entries : list Serializer.timeline_entry) :
  Render.for_lines (Render.timeline_lines F)
    (map Serializer.entry_value entries)
  = Ret (flat_map Serializer.timeline_lines entries).
Proof.
  induction entries as [|t entries IH]; [reflexivity|].
  cbn [map Render.for_lines]. rewrite IH.
  change (flat_map Serializer.timeline_lines (t :: entries))
    with (Serializer.timeline_lines t
          ++ flat_map Serializer.timeline_lines entries).
  reflexivity.
Qed.

Lemma tags_render (F : Render.formats) (tags : list str) :
  Render.for_lines (Render.tag_lines F) (map VStr tags)
  = Ret (map Serializer.tag_line tags).
Proof.
  induction tags as [|t tags IH]; [reflexivity|].
  cbn [map Render.for_lines]. rewrite IH. reflexivity.
Qed.

Lemma event_render (F : Render.formats) (e : Serializer.event) :
  Render.event_lines F (Serializer.event_value e)
  = if Render.fits F (Serializer.year e)
    then Ret (Serializer.event_lines e)
    else Raise (Render.too_long F).
Proof.
  unfold Render.event_lines, Serializer.event_value.
  match goal with
  | |- context [Render.field F (VDict ?d) _] => set (dd := d)
  end.
  rewrite (field_dict F dd (lit "year") (VInt (Serializer.year e)) eq_refl).
  rewrite (field_dict F dd (lit "id") (VStr (Serializer.id e)) eq_refl).
  rewrite (field_dict F dd (lit "link") (VStr (Serializer.link e)) eq_refl).
  rewrite (field_dict F dd (lit "timezone")
             (VStr (Serializer.timezone e)) eq_refl).
  rewrite (field_dict F dd (lit "date") (VStr (Serializer.date e)) eq_refl).
  rewrite (field_dict F dd (lit "place") (VStr (Serializer.place e)) eq_refl).
  cbn [Render.py_format].
  destruct (Render.fits F (Serializer.year e)); [|reflexivity].
  cbn [bind].
  change (py_getitem (VDict dd) (lit "timeline"))
    with (@Ret value (VList (map Serializer.entry_value
                               (Serializer.timeline e)))).
  cbn [bind py_iter]. rewrite entries_render. reflexivity.
Qed.

Lemma events_render (F : Render.formats) (events : list Serializer.event) :
  Render.for_lines (Render.event_lines F)
    (map Serializer.event_value events)
  = if forallb (fun e => Render.fits F (Serializer.year e)) events
    then Ret (flat_map Serializer.event_lines events)
    else Raise (Render.too_long F).
Proof.
  induction events as [|e events IH]; [reflexivity|].
  cbn [map Render.for_lines forallb]. rewrite event_render, IH.
  destruct (Render.fits F (Serializer.year e)); [|reflexivity].
  cbn [bind andb].
  destruct (forallb (fun e0 => Render.fits F (Serializer.year e0)) events);
    [|reflexivity].
  change (flat_map Serializer.event_lines (e :: events))
    with (Serializer.event_lines e
          ++ flat_map Serializer.event_lines events).
  reflexivity.
Qed.

(** X14: on the object that stands for a record with the field types of
    the data model, [to_yaml] returns the block of the record, its strings
    as they are and its years in decimal, when every year has no more
    digits than the interpreter converts; when some year has more, it
    raises the [ValueError] of the conversion.  How the interpreter renders
    values of other types plays no part. *)
Theorem to_yaml_of_record (F : Render.formats) (r : Serializer.record) :
  Render.to_yaml F (Serializer.record_value r)
  = if forallb (fun e => Render.fits F (Serializer.year e))
         (Serializer.events r)
    then Ret (Serializer.to_yaml r)
    else Raise (Render.too_long F).
Proof.
  unfold Render.to_yaml, Serializer.record_value.
  match goal with
  | |- context [Render.field F (VDict ?d) _] => set (dd := d)
  end.
  rewrite (field_dict F dd (lit "title") (VStr (Serializer.title r)) eq_refl).
  rewrite (field_dict F dd (lit "description")
             (VStr (Serializer.description r)) eq_refl).
  rewrite (field_dict F dd (lit "category")
             (VStr (Serializer.category r)) eq_refl).
  cbn [Render.py_format bind].
  change (py_getitem (VDict dd) (lit "tags"))
    with (@Ret value (VList (map VStr (Serializer.tags r)))).
  change (py_getitem (VDict dd) (lit "events"))
    with (@Ret value (VList (map Serializer.event_value
                               (Serializer.events r)))).
  cbn [bind py_iter]. rewrite tags_render. cbn [bind].
  rewrite events_render.
  destruct (forallb (fun e => Render.fits F (Serializer.year e))
              (Serializer.events r)); reflexivity.
Qed.

(** ** Files *)

Lemma lower_from_suffix (K : FileInput.casing) (s1 s2 : str) :
  forall before,
    exists pre, FileInput.lower_from K before (s1 ++ s2)
                = pre ++ FileInput.lower_from K (before ++ s1) s2.
Proof.
  induction s1 as [|c s1 IH]; intros before.
  - exists []. now rewrite app_nil_r.
  - destruct (IH (before ++ [c])) as [pre E].
    rewrite <- app_assoc in E. change ([c] ++ s1) with (c :: s1) in E.
    exists ((if (c <? 128)%N then [FileInput.lower_ascii c]
             else FileInput.lower_wide K before c (s1 ++ s2)) ++ pre).
    rewrite <- app_comm_cons. cbn [FileInput.lower_from].
    rewrite E, app_assoc. reflexivity.
Qed.

Lemma lower_ascii_small (c : char) :
  (FileInput.lower_ascii c < 128)%N -> (c < 128)%N.
Proof.
  unfold FileInput.lower_ascii, is_upper.
  destruct (N.leb_spec 65 c), (N.leb_spec c 90); simpl; lia.
Qed.

Lemma lower_from_ascii (K : FileInput.casing) (s : str) :
  forall before,
    Forall (fun c => (FileInput.lower_ascii c < 128)%N) s ->
    FileInput.lower_from K before s = map FileInput.lower_ascii s.
Proof.
  induction s as [|c s IH]; intros before H; [reflexivity|].
  inversion H as [|? ? Hc Hs]; subst.
  cbn [FileInput.lower_from map].
  apply lower_ascii_small in Hc. apply N.ltb_lt in Hc. rewrite Hc.
  rewrite IH by exact Hs. reflexivity.
Qed.

Lemma endswith_app (pre s : str) : FileInput.endswith s (pre ++ s) = true.
Proof.
  unfold FileInput.endswith. rewrite rev_app_distr. apply startswith_app.
Qed.

Lemma extensions_ascii (ext : str) :
  In ext FileInput.image_extensions -> Forall (fun c => (c < 128)%N) ext.
Proof.
  intros H. unfold FileInput.image_extensions in H. simpl in H.
  repeat (destruct H as [<-|H];
          [repeat constructor|]).
  destruct H.
Qed.

Lemma is_image_by_extension (K : FileInput.casing) (stem ext : str) :
  In (map FileInput.lower_ascii ext) FileInput.image_extensions ->
  FileInput.is_image K (stem ++ ext) = true.
Proof.
  intros H. unfold FileInput.is_image. apply existsb_exists.
  exists (map FileInput.lower_ascii ext). split; [exact H|].
  unfold FileInput.lower.
  destruct (lower_from_suffix K stem ext []) as [pre ->].
  rewrite lower_from_ascii; [apply endswith_app|].
  apply extensions_ascii in H. rewrite Forall_forall in *.
  intros c Hc. apply H. now apply in_map.
Qed.

(** X15: a file whose name ends with one of the six image extensions, in
    any letter case, is not read: [process_file_content] returns the
    placeholder that quotes the name, and [extract_from_file] returns the
    same outcome and makes the same calls whatever the file holds. *)
Theorem image_file_is_not_read (w : world) (K : FileInput.casing)
    (T : template) (svc : service) (stem ext : str) (tags ids : list str) :
  In (map FileInput.lower_ascii ext) FileInput.image_extensions ->
  forall file_content,
    FileInput.process_file_content K file_content (stem ++ ext)
    = FileInput.placeholder (stem ++ ext) /\
    forall other_content,
      FileInput.extract_from_file w K T svc file_content (stem ++ ext)
        tags ids
      = FileInput.extract_from_file w K T svc other_content (stem ++ ext)
          tags ids.
Proof.
  intros H file_content.
  unfold FileInput.extract_from_file, FileInput.process_file_content.
  rewrite (is_image_by_extension K stem ext H). split; reflexivity.
Qed.

Lemma image_file_is_not_read_witness :
  FileInput.process_file_content {| FileInput.lower_wide := fun _ c _ => [c] |}
    (lit "binary") (lit "poster" ++ lit ".JPeG")
  = FileInput.placeholder (lit "poster" ++ lit ".JPeG").
Proof.
  refine (proj1 (image_file_is_not_read Samples.offline
                   {| FileInput.lower_wide := fun _ c _ => [c] |}
                   Samples.blank (init Samples.no_env)
                   (lit "poster") (lit ".JPeG") [] [] _ (lit "binary"))).
  right. now left.
Defined.

(** X16: [extract_from_file] never requests a page, and requests the
    completion at most once: when a client exists, on the prompt that has
    no URL line and holds the first 8000 characters of the processed
    content. *)
Theorem calls_of_extract_from_file (w : world) (K : FileInput.casing)
    (T : template) (svc : service) (file_content file_name : str)
    (tags ids : list str) :
  snd (FileInput.extract_from_file w K T svc file_content file_name tags ids)
  = match openai svc with
    | Some _ =>
        [Completion (model svc) (system_prompt T tags ids)
           (PLAIN_HEADER
            ++ firstn CONTENT_LIMIT
                 (FileInput.process_file_content K file_content file_name))]
    | None => []
    end.
Proof.
  unfold FileInput.extract_from_file, extract_activity_info.
  destruct (openai svc); reflexivity.
Qed.

(** ** The corpus index, once more *)

(** What the load returns on stores of the expected shape. *)
Lemma load_shaped (files : list store_file) :
  (forall f data, In f files -> loaded f = Ret data ->
                  store_shaped data = true) ->
  fst (load_existing_data files)
  = Ret (map VStr (StrSort.sort (fold_left add_str (corpus_tags files) [])),
         map VStr (StrSort.sort (fold_left add_str (corpus_ids files) []))).
Proof.
  intros H. unfold load_existing_data, empty.
  change (@nil value) with (map VStr []).
  rewrite (visit_all_shaped files [] [] [] H).
  cbn [all_tags all_ids fst]. rewrite !py_sorted_strs. reflexivity.
Qed.

Lemma leb_antisym (a : str) :
  forall b, StrOrder.leb a b = true -> StrOrder.leb b a = true -> a = b.
Proof.
  induction a as [|x a IH]; intros [|y b] H1 H2; try discriminate;
    [reflexivity|].
  simpl in H1, H2.
  apply orb_true_iff in H1. apply orb_true_iff in H2.
  rewrite ?andb_true_iff, ?N.ltb_lt, ?N.eqb_eq in *.
  destruct H1 as [H1|[E1 H1]], H2 as [H2|[E2 H2]]; try lia.
  subst y. f_equal. now apply IH.
Qed.

Lemma sorted_unique (l1 : list str) :
  forall l2,
    StronglySorted str_lt l1 -> StronglySorted str_lt l2 ->
    (forall x, In x l1 <-> In x l2) -> l1 = l2.
Proof.
  induction l1 as [|a r1 IH]; intros [|b r2] S1 S2 H.
  - reflexivity.
  - exfalso. apply (proj2 (H b)). now left.
  - exfalso. apply (proj1 (H a)). now left.
  - inversion S1 as [|? ? S1' F1]; subst.
    inversion S2 as [|? ? S2' F2]; subst.
    rewrite Forall_forall in F1, F2.
    assert (E : a = b).
    { destruct (proj1 (H a) (or_introl eq_refl)) as [E|Ha]; [now symmetry|].
      destruct (proj2 (H b) (or_introl eq_refl)) as [E|Hb]; [exact E|].
      destruct (F2 a Ha) as [L1 _]. destruct (F1 b Hb) as [L2 _].
      now apply leb_antisym. }
    subst b. f_equal. apply IH; try assumption.
    intros x. split; intros Hx.
    + destruct (proj1 (H x) (or_intror Hx)) as [E|Hx']; [|exact Hx'].
      subst x. destruct (F1 a Hx) as [_ N]. congruence.
    + destruct (proj2 (H x) (or_intror Hx)) as [E|Hx']; [|exact Hx'].
      subst x. destruct (F2 a Hx) as [_ N]. congruence.
Qed.

Lemma sort_of_set (l l' : list str) :
  (forall x, In x l <-> In x l') ->
  StrSort.sort (fold_left add_str l [])
  = StrSort.sort (fold_left add_str l' []).
Proof.
  intros H. apply sorted_unique.
  - apply sort_strict, nodup_add_strs. constructor.
  - apply sort_strict, nodup_add_strs. constructor.
  - intros x.
    rewrite <- (Permutation_in' (eq_refl x) (StrSort.Permuted_sort _)).
    rewrite <- (Permutation_in' (eq_refl x) (StrSort.Permuted_sort _)).
    rewrite !in_add_strs. simpl. rewrite H. tauto.
Qed.

(** X17: on stores of the expected shape, what [load_existing_data]
    returns depends only on which tags and which ids the files hold: not
    on the order in which the directory yields the files, nor on how the
    tags and ids are spread over files and records or repeated. *)
Theorem load_depends_on_sets (files files' : list store_file) :
  (forall f data, In f files -> loaded f = Ret data ->
                  store_shaped data = true) ->
  (forall f data, In f files' -> loaded f = Ret data ->
                  store_shaped data = true) ->
  (forall t, In t (corpus_tags files) <-> In t (corpus_tags files')) ->
  (forall i, In i (corpus_ids files) <-> In i (corpus_ids files')) ->
  fst (load_existing_data files) = fst (load_existing_data files').
Proof.
  intros S S' Ht Hi.
  rewrite (load_shaped files S), (load_shaped files' S').
  rewrite (sort_of_set _ _ Ht), (sort_of_set _ _ Hi). reflexivity.
Qed.

Lemma load_depends_on_sets_witness :
  fst (load_existing_data [Samples.good_file; Samples.corrupt_file])
  = fst (load_existing_data
           [Samples.corrupt_file; Samples.good_file; Samples.good_file]).
Proof.
  apply (load_depends_on_sets
           [Samples.good_file; Samples.corrupt_file]
           [Samples.corrupt_file; Samples.good_file; Samples.good_file]).
  - intros f data [<-|[<-|[]]] L; [injection L as <-; reflexivity|discriminate].
  - intros f data [<-|[<-|[<-|[]]]] L;
      [discriminate | injection L as <-; reflexivity
       | injection L as <-; reflexivity].
  - intros t. unfold corpus_tags. simpl. tauto.
  - intros i. unfold corpus_ids. simpl. tauto.
Defined.

(** ** The agent on the lists of the corpus, and the driver *)

Lemma strs_of_strs (l : list str) : Agent.strs_of (map VStr l) = Ret l.
Proof.
  induction l as [|s l IH]; [reflexivity|].
  cbn [map Agent.strs_of]. rewrite IH. reflexivity.
Qed.

Lemma known_strs_strs (l : list str) : Agent.known_strs (map VStr l) = l.
Proof.
  unfold Agent.known_strs. induction l as [|s l IH]; [reflexivity|].
  cbn [map flat_map]. rewrite IH. reflexivity.
Qed.

Lemma agent_system_prompt_strs (T : template) (tags ids : list str) :
  Agent.system_prompt T (map VStr tags) (map VStr ids)
  = Ret (system_prompt T tags ids).
Proof.
  unfold Agent.system_prompt, Agent.tag_hint, Agent.id_hint, Agent.py_join,
    system_prompt, tag_hint, id_hint.
  rewrite !firstn_map, !strs_of_strs, length_map.
  destruct tags as [|t tags], ids as [|i ids]; reflexivity.
Qed.

(** On lists of strings the agent is the pipeline of the first part. *)
Lemma agent_extract_from_url_strs (w : world) (U : tables) (T : template)
    (svc : service) (url : str) (tags ids : list str) :
  Agent.extract_from_url w U T svc url (map VStr tags) (map VStr ids)
  = extract_from_url w U T svc url tags ids.
Proof.
  unfold Agent.extract_from_url, extract_from_url,
    Agent.extract_activity_info, extract_activity_info.
  destruct (fetch_web_content w U url) as [[content|e] calls];
    [|reflexivity].
  destruct (openai svc); [|reflexivity].
  rewrite agent_system_prompt_strs, known_strs_strs. reflexivity.
Qed.

Lemma agent_success (w : world) (U : tables) (T : template) (svc : service)
    (url : str) (tags ids : list value) :
  success (fst (Agent.extract_from_url w U T svc url tags ids)) = true ->
  exists d,
    data (fst (Agent.extract_from_url w U T svc url tags ids))
    = Some (VDict d) /\
    record_ok (Agent.known_strs ids) d.
Proof.
  unfold Agent.extract_from_url, Agent.extract_activity_info.
  destruct (fetch_web_content w U url) as [[content|e] calls];
    [|discriminate].
  destruct (openai svc).
  - destruct (Agent.system_prompt T tags ids) as [system|e]; [|discriminate].
    cbn [bind fst].
    destruct (chat_completion w (model svc) system (user_prompt url content))
      as [response|e]; [|discriminate].
    cbn [bind].
    destruct (after_completion w (Agent.known_strs ids) response)
      as [o|e] eqn:A; [|discriminate].
    intros S.
    destruct (after_completion_success w _ response o A S)
      as [text [parsed [d [_ [_ [_ [-> [R ->]]]]]]]].
    exists d. split; [reflexivity | exact R].
  - cbn [fst]. unfold not_configured. destruct (provider_names svc).
    discriminate.
Qed.

Lemma appended_net (calls : list call) : Driver.appended (map Driver.Net calls) = [].
Proof. induction calls as [|c calls IH]; [reflexivity | exact IH]. Qed.

Lemma appended_app (a b : list Driver.effect) :
  Driver.appended (a ++ b) = Driver.appended a ++ Driver.appended b.
Proof. unfold Driver.appended. apply flat_map_app. Qed.

Lemma appended_writes (file : str) (texts : list str) :
  Driver.appended (map (Driver.Append file) texts) = map (pair file) texts.
Proof.
  induction texts as [|t texts IH]; [reflexivity|].
  cbn [map]. change (Driver.appended (Driver.Append file t :: ?l))
    with ((file, t) :: Driver.appended l).
  unfold Driver.appended in *. cbn [flat_map app]. now rewrite IH.
Qed.

Lemma andthen_quiet {A B} (r : res A) (k : A -> Driver.run B) :
  Driver.andthen (Driver.quiet r) k
  = match r with Ret a => k a | Raise e => (Raise e, []) end.
Proof.
  destruct r as [a|e]; [|reflexivity].
  unfold Driver.andthen, Driver.quiet. cbn [fst snd app].
  now destruct (k a).
Qed.

Lemma andthen_pair {A B} (a : A) (es : list Driver.effect)
    (k : A -> Driver.run B) :
  Driver.andthen (Ret a, es) k = (fst (k a), es ++ snd (k a)).
Proof. reflexivity. Qed.

(** The writes that returned are the first texts of the block, and all of
    them when the block returns. *)
Lemma write_all_spec (D : Driver.disk) (file : str) (texts : list str) :
  (exists k, snd (Driver.write_all D file texts)
             = map (Driver.Append file) (firstn k texts)) /\
  (forall u, fst (Driver.write_all D file texts) = Ret u ->
             snd (Driver.write_all D file texts)
             = map (Driver.Append file) texts).
Proof.
  induction texts as [|t texts [[k IH1] IH2]].
  - split; [exists 0; reflexivity | reflexivity].
  - cbn [Driver.write_all].
    destruct (Driver.fs_write D file t); cbn [fst snd].
    + split.
      * exists (S k). cbn [firstn map]. now rewrite IH1.
      * intros u H. cbn [map]. now rewrite (IH2 u H).
    + split; [exists 0; reflexivity | discriminate].
Qed.

Lemma append_to_spec (D : Driver.disk) (file : str) (texts : list str) :
  (exists k, snd (Driver.append_to D file texts)
             = map (Driver.Append file) (firstn k texts)) /\
  (forall u, fst (Driver.append_to D file texts) = Ret u ->
             snd (Driver.append_to D file texts)
             = map (Driver.Append file) texts).
Proof.
  unfold Driver.append_to.
  destruct (write_all_spec D file texts) as [[k W1] W2].
  destruct (Driver.fs_open D file); cbn [fst snd].
  - split; [eauto|].
    destruct (fst (Driver.write_all D file texts)) as [u|e] eqn:B.
    + intros _ _. exact (W2 u eq_refl).
    + destruct (Driver.fs_close D file); discriminate.
  - split; [exists 0; reflexivity | discriminate].
Qed.

(** What a run of [extract_and_save] has appended: nothing, or texts of the
    block of the record that the agent returned. *)
Lemma extract_and_save_cases (w : world) (U : tables) (T : template)
    (F : Render.formats) (D : Driver.disk) (env : str -> option str)
    (files : list store_file) (url : str) (auto_save : bool) :
  (Driver.appended
     (snd (Driver.extract_and_save w U T F D env files url auto_save)) = [] /\
   forall s,
     fst (Driver.extract_and_save w U T F D env files url auto_save) = Ret s ->
     Driver.saved_file s = None) \/
  exists tags ids d yaml c k,
    fst (load_existing_data files) = Ret (tags, ids) /\
    data (fst (Agent.extract_from_url w U T (init env) url tags ids))
    = Some (VDict d) /\
    record_ok (Agent.known_strs ids) d /\
    Render.to_yaml F (VDict d) = Ret yaml /\
    get d (lit "category") = VStr c /\ In c categories /\
    auto_save = true /\
    Driver.appended
      (snd (Driver.extract_and_save w U T F D env files url auto_save))
    = map (pair (c ++ lit "s.yml")) (firstn k [[NL]; yaml; [NL]]) /\
    forall s,
      fst (Driver.extract_and_save w U T F D env files url auto_save) = Ret s ->
      Driver.saved_success s = true /\
      Driver.saved_file s = Some (c ++ lit "s.yml") /\
      Driver.appended
        (snd (Driver.extract_and_save w U T F D env files url auto_save))
      = map (pair (c ++ lit "s.yml")) [[NL]; yaml; [NL]].
Proof.
  remember (Driver.extract_and_save w U T F D env files url auto_save)
    as r eqn:Er.
  assert (Q : forall e : exn,
            Driver.appended (snd (@Raise Driver.saved e, @nil Driver.effect))
            = [] /\
            forall s, fst (@Raise Driver.saved e, @nil Driver.effect) = Ret s ->
                      Driver.saved_file s = None)
    by (intros e; split; [reflexivity | discriminate]).
  unfold Driver.extract_and_save in Er.
  rewrite andthen_quiet in Er.
  destruct (prints w [Extracting url; Rule]); [|subst r; left; apply Q].
  rewrite andthen_quiet in Er.
  destruct (fst (load_existing_data files)) as [[tags ids]|];
    [|subst r; left; apply Q].
  cbn [fst snd] in Er. rewrite andthen_quiet in Er.
  destruct (py_print w (Loaded (length tags) (length ids)));
    [|subst r; left; apply Q].
  pose proof (agent_success w U T (init env) url tags ids) as S.
  remember (Agent.extract_from_url w U T (init env) url tags ids)
    as answer eqn:Ea.
  destruct answer as [result calls].
  cbn [fst snd] in S, Er. rewrite andthen_pair in Er.
  match type of Er with
  | _ = (fst ?K, _) => remember K as r' eqn:Er'
  end.
  subst r. cbn [fst snd]. rewrite appended_app, appended_net. cbn [app].
  destruct (success result).
  2:{ left. rewrite andthen_quiet in Er'.
      destruct (py_print w (Failed (error result))); subst r'; [|apply Q].
      split; [reflexivity|]. intros s H. injection H as <-. reflexivity. }
  destruct (S eq_refl) as [d [Dd R]]. rewrite Dd in Er'.
  rewrite andthen_quiet in Er'.
  destruct (prints w (Succeeded
                      :: Driver.warning_prints (outcome_warnings result)));
    [|subst r'; left; apply Q].
  rewrite andthen_quiet, andthen_quiet in Er'.
  destruct (Render.to_yaml F (VDict d)) as [yaml|] eqn:Y;
    [|subst r'; left; apply Q].
  rewrite andthen_quiet in Er'.
  destruct (prints w [YamlBanner; Rule; Yaml yaml; Rule]);
    [|subst r'; left; apply Q].
  pose proof R as [[title [Ht Nt]] [_ [[c [Hc Ic]] _]]].
  rewrite andthen_quiet in Er'. unfold py_getitem at 1 in Er'.
  rewrite (lookup_of_get _ _ _ Hc ltac:(discriminate)) in Er'.
  rewrite andthen_quiet in Er'. cbn [Render.py_format] in Er'.
  destruct auto_save.
  2:{ left. rewrite andthen_quiet in Er'. unfold py_getitem in Er'.
      rewrite (lookup_of_get _ _ _ Ht ltac:(discriminate)) in Er'.
      subst r'. split; [reflexivity|].
      intros s H. injection H as <-. reflexivity. }
  right.
  destruct (append_to_spec D (c ++ lit "s.yml") [[NL]; yaml; [NL]])
    as [[k A1] A2].
  exists tags, ids, d, yaml, c, k.
  split; [reflexivity|]. split; [rewrite <- Ea; exact Dd|]. split; [exact R|].
  split; [exact Y|]. split; [exact Hc|]. split; [exact Ic|].
  split; [reflexivity|].
  unfold Driver.andthen at 1 in Er'.
  destruct (fst (Driver.append_to D (c ++ lit "s.yml") [[NL]; yaml; [NL]]))
    as [u|e] eqn:Ap.
  - specialize (A2 u eq_refl).
    assert (K : firstn k [[NL]; yaml; [NL]] = [[NL]; yaml; [NL]]).
    { rewrite A1 in A2. clear -A2. apply (f_equal Driver.appended) in A2.
      rewrite !appended_writes in A2.
      apply (f_equal (map snd)) in A2. rewrite !map_map in A2.
      cbn [snd] in A2. rewrite !map_id in A2. exact A2. }
    rewrite K. rewrite andthen_quiet in Er'.
    destruct (py_print w (Saved (c ++ lit "s.yml"))).
    + rewrite andthen_quiet in Er'. unfold py_getitem in Er'.
      rewrite (lookup_of_get _ _ _ Ht ltac:(discriminate)) in Er'.
      subst r'. cbn [fst snd].
      rewrite appended_app, A2, appended_writes, app_nil_r.
      split; [reflexivity|]. intros s H. injection H as <-. auto.
    + subst r'. cbn [fst snd].
      rewrite appended_app, A2, appended_writes, app_nil_r.
      split; [reflexivity | discriminate].
  - subst r'. cbn [fst snd]. rewrite A1, appended_writes.
    split; [reflexivity | discriminate].
Qed.

(** X18: whatever the data directory holds and the collaborators answer,
    [extract_and_save] appends nothing, or it was asked to save and what it
    has appended is an initial part of three texts written to one file: a
    line feed, the block of the record that the agent returned and a line
    feed.  That record passes every rule of the validator; the file is
    named after its category followed by [s.yml], hence one of
    [conferences.yml], [competitions.yml] and [activitys.yml]; and when the
    call returns, it reports success with that file and the three texts
    have all been appended. *)
Theorem appends_of_extract_and_save (w : world) (U : tables) (T : template)
    (F : Render.formats) (D : Driver.disk) (env : str -> option str)
    (files : list store_file) (url : str) (auto_save : bool) :
  let run := Driver.extract_and_save w U T F D env files url auto_save in
  Driver.appended (snd run) = [] \/
  (auto_save = true /\
   exists d c yaml known k,
     record_ok known d /\
     get d (lit "category") = VStr c /\
     Render.to_yaml F (VDict d) = Ret yaml /\
     In (c ++ lit "s.yml")
        [lit "conferences.yml"; lit "competitions.yml"; lit "activitys.yml"] /\
     Driver.appended (snd run)
     = firstn k [(c ++ lit "s.yml", [NL]); (c ++ lit "s.yml", yaml);
                 (c ++ lit "s.yml", [NL])] /\
     forall s, fst run = Ret s ->
       Driver.saved_success s = true /\
       Driver.saved_file s = Some (c ++ lit "s.yml") /\
       Driver.appended (snd run)
       = [(c ++ lit "s.yml", [NL]); (c ++ lit "s.yml", yaml);
          (c ++ lit "s.yml", [NL])]).
Proof.
  intros run. subst run.
  destruct (extract_and_save_cases w U T F D env files url auto_save)
    as [[A _]|[tags [ids [d [yaml [c [k [_ [_ [R [Y [Hc [Ic [Sv [A B]]]]]]]]]]]]]]];
    [now left|].
  right. split; [exact Sv|].
  exists d, c, yaml, (Agent.known_strs ids), k.
  split; [exact R|]. split; [exact Hc|]. split; [exact Y|].
  split.
  { destruct Ic as [<-|[<-|[<-|[]]]]; simpl; auto. }
  split.
  { rewrite A, <- firstn_map. reflexivity. }
  exact B.
Qed.

Lemma appends_of_extract_and_save_witness :
  let run := Driver.extract_and_save
               (Samples.answering (lit "{}") (VDict Samples.escaped_title))
               ascii_tables Samples.blank Samples.plain_formats
               Samples.utf8_disk Samples.github_env [Samples.archive_file]
               (lit "https://e.org") true in
  Driver.appended (snd run) = [] \/
  (true = true /\
   exists d c yaml known k,
     record_ok known d /\
     get d (lit "category") = VStr c /\
     Render.to_yaml Samples.plain_formats (VDict d) = Ret yaml /\
     In (c ++ lit "s.yml")
        [lit "conferences.yml"; lit "competitions.yml"; lit "activitys.yml"] /\
     Driver.appended (snd run)
     = firstn k [(c ++ lit "s.yml", [NL]); (c ++ lit "s.yml", yaml);
                 (c ++ lit "s.yml", [NL])] /\
     forall s, fst run = Ret s ->
       Driver.saved_success s = true /\
       Driver.saved_file s = Some (c ++ lit "s.yml") /\
       Driver.appended (snd run)
       = [(c ++ lit "s.yml", [NL]); (c ++ lit "s.yml", yaml);
          (c ++ lit "s.yml", [NL])]).
Proof.
  intros run.
  apply (appends_of_extract_and_save
           (Samples.answering (lit "{}") (VDict Samples.escaped_title))
           ascii_tables Samples.blank Samples.plain_formats
           Samples.utf8_disk Samples.github_env [Samples.archive_file]
           (lit "https://e.org") true).
Defined.

(** A write that raises: with a lone surrogate in the title, the first
    line feed has been written when the write of the block raises; the
    call raises and one line feed has been appended. *)
Lemma failed_write_leaves_line_feed :
  let run := Driver.extract_and_save
               (Samples.answering (lit "{}") (VDict Samples.escaped_title))
               ascii_tables Samples.blank Samples.plain_formats
               Samples.utf8_disk Samples.github_env [Samples.archive_file]
               (lit "https://e.org") true in
  fst run
  = Raise (OtherError
             (lit "'utf-8' codec can't encode character '\udc80' in position 10: surrogates not allowed")) /\
  Driver.appended (snd run) = [(lit "competitions.yml", [NL])].
Proof. split; reflexivity. Qed.

(** X19: when the files of the data directory have the shape of a store,
    what [extract_and_save] appends holds no id that the directory had:
    the texts appended are an initial part of a line feed, a block and a
    line feed, and the block is that of a record none of whose events has
    an id among the ids of the files. *)
Theorem saved_ids_are_new (w : world) (U : tables) (T : template)
    (F : Render.formats) (D : Driver.disk) (env : str -> option str)
    (files : list store_file) (url : str) (auto_save : bool) :
  (forall f data, In f files -> loaded f = Ret data ->
                  store_shaped data = true) ->
  let run := Driver.extract_and_save w U T F D env files url auto_save in
  Driver.appended (snd run) <> [] ->
  exists d evs yaml file k,
    Driver.appended (snd run)
    = firstn k [(file, [NL]); (file, yaml); (file, [NL])] /\
    Render.to_yaml F (VDict d) = Ret yaml /\
    get d (lit "events") = VList (map VDict evs) /\
    forall ev id, In ev evs -> get ev (lit "id") = VStr id ->
                  ~ In id (corpus_ids files).
Proof.
  intros Sh run N. subst run.
  pose proof (load_shaped files Sh) as L.
  destruct (extract_and_save_cases w U T F D env files url auto_save)
    as [[A _]|[tags [ids [d [yaml [c [k [L' [_ [R [Y [_ [_ [_ [A _]]]]]]]]]]]]]]];
    [congruence|].
  rewrite L in L'. injection L' as <- <-.
  rewrite known_strs_strs in R.
  destruct R as [_ [_ [_ [_ [ev0 [evs [He Fo]]]]]]].
  exists d, (ev0 :: evs), yaml, (c ++ lit "s.yml"), k.
  split; [rewrite A, <- firstn_map; reflexivity|].
  split; [exact Y|]. split; [exact He|].
  intros ev id Hev Hid I. rewrite Forall_forall in Fo.
  destruct (Fo ev Hev) as [[id' [Hid' [_ Ni]]] _].
  rewrite Hid in Hid'. injection Hid' as <-. apply Ni.
  apply (proj1 (Permutation_in' (eq_refl id) (StrSort.Permuted_sort _))).
  apply (proj2 (in_add_strs _ _ _)). now right.
Qed.

Lemma saved_ids_are_new_witness :
  let run := Driver.extract_and_save
               (Samples.answering (lit "{}") (VDict Samples.summer))
               ascii_tables Samples.blank Samples.plain_formats
               Samples.sound_disk Samples.github_env [Samples.archive_file]
               (lit "https://e.org") true in
  exists d evs yaml file k,
    Driver.appended (snd run)
    = firstn k [(file, [NL]); (file, yaml); (file, [NL])] /\
    Render.to_yaml Samples.plain_formats (VDict d) = Ret yaml /\
    get d (lit "events") = VList (map VDict evs) /\
    forall ev id, In ev evs -> get ev (lit "id") = VStr id ->
                  ~ In id (corpus_ids [Samples.archive_file]).
Proof.
  intros run.
  apply (saved_ids_are_new
           (Samples.answering (lit "{}") (VDict Samples.summer))
           ascii_tables Samples.blank Samples.plain_formats
           Samples.sound_disk Samples.github_env [Samples.archive_file]
           (lit "https://e.org") true).
  - intros f data [<-|[]] L. injection L as <-. reflexivity.
  - vm_compute. discriminate.
Defined.






Lemma strs_of_raises (parts : list value) :
  existsb (fun v => negb (is_str v)) parts = true ->
  Agent.strs_of parts = Raise TypeError.
Proof.
  induction parts as [|v parts IH]; [discriminate|].
  cbn [existsb]. destruct v; try reflexivity.
  cbn [is_str negb orb]. intros H. cbn [Agent.strs_of].
  rewrite (IH H). reflexivity.
Qed.

Lemma strs_of_raise_inv (parts : list value) (e : exn) :
  Agent.strs_of parts = Raise e -> e = TypeError.
Proof.
  induction parts as [|v parts IH]; [discriminate|].
  destruct v; cbn [Agent.strs_of]; try (intros H; now injection H as <-).
  destruct (Agent.strs_of parts); [discriminate|].
  cbn [bind]. intros H. injection H as <-. now apply IH.
Qed.

(** X21: a value that is not a string among the first twenty loaded tags,
    or among the first ten loaded ids, makes every extraction fail once the
    page has come back and a client exists: the prompt cannot be built,
    the completion is not requested, and the error is that of the
    extraction from a URL with the text of a [TypeError]. *)
Theorem non_string_hint_fails (w : world) (U : tables) (T : template)
    (svc : service) (c : client) (url html : str) (tags ids : list value) :
  openai svc = Some c ->
  http_get w url = Ret html ->
  existsb (fun v => negb (is_str v)) (firstn 20 tags) = true \/
  existsb (fun v => negb (is_str v)) (firstn 10 ids) = true ->
  Agent.extract_from_url w U T svc url tags ids
  = (failure (lit "Failed to extract from URL: " ++ exn_text w TypeError),
     [Fetch url]).
Proof.
  intros O H B.
  unfold Agent.extract_from_url, fetch_web_content,
    Agent.extract_activity_info.
  rewrite H, O. cbn [bind].
  assert (P : Agent.system_prompt T tags ids = Raise TypeError).
  { unfold Agent.system_prompt, Agent.tag_hint, Agent.id_hint, Agent.py_join.
    destruct B as [B|B].
    - destruct tags as [|t tags]; [discriminate|].
      rewrite (strs_of_raises _ B). reflexivity.
    - destruct ids as [|i ids]; [discriminate|].
      rewrite (strs_of_raises _ B).
      destruct tags as [|t tags]; [reflexivity|].
      destruct (Agent.strs_of (firstn 20 (t :: tags))) as [l|e] eqn:E;
        [reflexivity|].
      apply strs_of_raise_inv in E. subst e. reflexivity. }
  rewrite P. reflexivity.
Qed.

Lemma non_string_hint_fails_witness :
  Agent.extract_from_url (Samples.answering (lit "{}") (VDict Samples.summer))
    ascii_tables Samples.blank (init Samples.github_env)
    (lit "https://e.org") [VInt 2025] []
  = (failure (lit "Failed to extract from URL: error"),
     [Fetch (lit "https://e.org")]).
Proof.
  apply (non_string_hint_fails
           (Samples.answering (lit "{}") (VDict Samples.summer))
           ascii_tables Samples.blank (init Samples.github_env)
           {| api_key := lit "ghp_token";
              base_url := Some (lit "https://models.inference.ai.azure.com") |}
           (lit "https://e.org")
           (lit "<html><body><p>Summer</p></body></html>")
           [VInt 2025] []).
  - reflexivity.
  - reflexivity.
  - left. reflexivity.
Defined.

(** X22: what [extract_from_url] sends as content is the text of the page,
    not its markup: the user prompt of its completion call embeds a prefix
    of at most 8000 characters of the normalized page, in which the tag
    pattern matches nowhere, every space character is a single U+0020
    followed by another character or the end, and the first character is
    not a space. *)
Theorem prompt_content_is_text (w : world) (U : tables) (T : template)
    (svc : service) (url : str) (tags ids : list str) (m sys user : str) :
  In (Completion m sys user) (snd (extract_from_url w U T svc url tags ids)) ->
  exists html,
    http_get w url = Ret html /\
    user = user_prompt url (normalize_web U html) /\
    let sent := firstn CONTENT_LIMIT (normalize_web U html) in
    (exists header, user = header ++ sent) /\
    length sent <= CONTENT_LIMIT /\
    tagless sent = true /\
    collapsed sent = true /\
    forall x rest, sent = x :: rest -> is_space x = false.
Proof.
  unfold extract_from_url, fetch_web_content, extract_activity_info.
  destruct (http_get w url) as [html|e]; cbn [bind];
    [|intros [H|[]]; discriminate].
  destruct (openai svc); cbn [snd app];
    [|intros [H|[]]; discriminate].
  intros [H|[H|[]]]; [discriminate|]. injection H as _ _ <-.
  exists html. split; [reflexivity|]. split; [reflexivity|].
  destruct (normalize_web_forms U html) as [C G].
  pose proof (firstn_skipn CONTENT_LIMIT (normalize_web U html)) as E.
  cbv zeta. split.
  { unfold user_prompt. destruct url as [|u url].
    - exists PLAIN_HEADER. reflexivity.
    - exists (URL_HEADER ++ (u :: url) ++ CONTENT_HEADER).
      now rewrite <- !app_assoc. }
  split; [apply firstn_le_length|].
  split; [apply (tagless_prefix _ (skipn CONTENT_LIMIT (normalize_web U html)));
          now rewrite E|].
  split; [apply (collapsed_prefix _ (skipn CONTENT_LIMIT (normalize_web U html)));
          now rewrite E|].
  intros x rest Hs. apply (strip_first
    (collapse_spaces (replace_tags (remove_styles U (remove_scripts U html))))
    x (rest ++ skipn CONTENT_LIMIT (normalize_web U html))).
  fold (normalize_web U html). rewrite <- E at 1. rewrite Hs. reflexivity.
Qed.

Lemma prompt_content_is_text_witness :
  exists html,
    http_get (Samples.answering (lit "{}") (VDict Samples.summer))
      (lit "https://e.org") = Ret html /\
    user_prompt (lit "https://e.org") (lit "Summer")
    = user_prompt (lit "https://e.org") (normalize_web ascii_tables html) /\
    let sent := firstn CONTENT_LIMIT (normalize_web ascii_tables html) in
    (exists header,
        user_prompt (lit "https://e.org") (lit "Summer") = header ++ sent) /\
    length sent <= CONTENT_LIMIT /\
    tagless sent = true /\
    collapsed sent = true /\
    forall x rest, sent = x :: rest -> is_space x = false.
Proof.
  apply (prompt_content_is_text
           (Samples.answering (lit "{}") (VDict Samples.summer))
           ascii_tables Samples.blank (init Samples.github_env)
           (lit "https://e.org") [] []
           (lit "gpt-4o-mini") (system_prompt Samples.blank [] [])).
  right. left. reflexivity.
Defined.

(** ** Warnings of the load on any files *)













